(** * searchFunctions.py: the search for special subroutines

    A shallow embedding of [searchSpecial] and of [importFlexFile] of
    Tools/disassemblerAGC/searchFunctions.py (virtualagc), and the
    properties of the pattern matcher: the forward phase, the backward
    phase over leading optional items, the registry [specialSubroutines]
    and the rewriting of operand placeholders; and of the import of
    pattern files.

    Python values are modelled as follows.
    - [int] is [Z]; list indices that the code only counts up from 0 are [nat].
    - A pattern entry [[required, opcodes, operands]] is the record [Item];
      a search-pattern dictionary is the record [SearchPattern]; an address
      range [[bank, start, end]], whose start is an [int] or a [str], is
      [Range] with the tagged [Start].
    - [searchPatterns] is an insertion-ordered dictionary: a list of
      (symbol, variants) pairs; a Python dictionary has no repeated key.
    - The module-level dictionary [specialSubroutines] is a [gmap]; it is
      part of the state that [searchSpecial] receives and leaves behind.
    - An exception aborts [searchSpecial] and leaves the state as it is at
      that point: every stateful function returns a result or an exception,
      together with the state.
    - The tuple stored in [specialSubroutines] holds a reference to the
      search-pattern dictionary: the reference is the pair of the symbol
      and the position of the variant in [searchPatterns[symbol]].
    - The lists of the catalog are taken to be distinct objects, as
      [importFlexFile] builds them; the rewriting of line 294 then changes
      one operand list at a time.
    - The output of the debugging [print]s for the symbol "no" is left out;
      that they read [opcode] and [operand] is kept ([debugPrint]).
    - [importFlexFile] is given the lines that the iteration over the file
      yields; the opening of the file and its decoding are outside of the
      model. A [str] is a [string], a sequence of characters with codes
      below 256. The built-in [int] is a parameter ([Interp]) of which only
      this is used: it returns a number or raises [ValueError]. *)

From Stdlib Require Import ZArith Lia Ascii.
From stdpp Require Import base list strings gmap.

Local Open Scope Z_scope.

(** ** Exceptions and results *)

Inductive Exc : Type :=
| IndexError   (* a list index out of range *)
| TypeError    (* range() called with a str *)
| NameError    (* a local variable read before it is bound *)
| KeyError.    (* a dictionary key that is absent *)

Inductive Res (A : Type) : Type :=
| Ok (a : A)
| Raise (e : Exc).
Arguments Ok {A} a.
Arguments Raise {A} e.

(** Sequencing: an exception skips the rest. *)
#[global] Instance res_bind : MBind Res := fun A B k r =>
  match r with
  | Ok a => k a
  | Raise e => Raise e
  end.

(** ** The catalog of search patterns *)

Record Item : Type := mkItem {
  required : bool;                 (* p[0] *)
  desiredOpcodes : list string;    (* p[1] *)
  desiredOperands : list string    (* p[2] *)
}.

Inductive Start : Type :=
| StartInt (n : Z)
| StartSym (s : string).

Record Range : Type := mkRange {
  r_bank : Z;        (* searchRange[0] *)
  r_start : Start;   (* searchRange[1] *)
  r_end : Z          (* searchRange[2] *)
}.

Record SearchPattern : Type := mkSearchPattern {
  ranges : list Range;
  pattern : list Item;
  dataWords : Z;
  noReturn : bool
}.

Definition Catalog : Type := list (string * list SearchPattern).

(** ** The registry [specialSubroutines] *)

(** A reference to the dictionary [searchPatterns[symbol][n]]. *)
Definition VariantRef : Type := (string * nat)%type.

(** The sixth component of a stored tuple: an [int], or (line 278) the list
    [searchPattern["pattern"]] of the referenced variant. *)
Inductive DataWordsField : Type :=
| DWCount (n : Z)
| DWPatternOf (v : VariantRef).

Record Entry : Type := mkEntry {
  e_bank : Z;
  e_offset : Z;
  e_fixedFixed : Z;
  e_searchPattern : option VariantRef;   (* None is the empty dictionary *)
  e_symbol : string;
  e_dataWords : DataWordsField
}.

Abbreviation Registry := (gmap string Entry).

(** Line 176: [(-1, -1, -1, {}, symbol, 0)]. *)
Definition notFound (symbol : string) : Entry :=
  mkEntry (-1) (-1) (-1) None symbol (DWCount 0).

(** Lines 250-252 and 272-274. *)
Definition fixedFixedOf (bank offset : Z) : Z :=
  if bool_decide (bank ∈ [2; 3]) then bank * 1024 + offset else -1.

(** ** Python helpers *)

(** [x in l] for a list of strings. *)
Definition inList (x : string) (l : list string) : bool := bool_decide (x ∈ l).

(** [range(a, b)]. *)
Definition pyRange (a b : Z) : list Z :=
  map (fun i : nat => a + Z.of_nat i) (seq 0 (Z.to_nat (b - a))).

(** ["%04o" % n]: octal digits, zero-padded to four characters, the sign
    counted in the width. *)
Definition octDigit (d : Z) : string :=
  match d with
  | 0 => "0" | 1 => "1" | 2 => "2" | 3 => "3"
  | 4 => "4" | 5 => "5" | 6 => "6" | _ => "7"
  end.

Fixpoint octDigits (fuel : nat) (n : Z) : string :=
  match fuel with
  | O => octDigit n
  | S fuel' =>
      if n <? 8 then octDigit n
      else octDigits fuel' (n / 8) +:+ octDigit (n mod 8)
  end.

Definition oct (n : Z) : string := octDigits (Z.to_nat (Z.log2 n)) n.

Fixpoint zeros (k : nat) : string :=
  match k with
  | O => ""
  | S k' => "0" +:+ zeros k'
  end.

Definition format04o (n : Z) : string :=
  if n <? 0 then
    let d := oct (- n) in "-" +:+ zeros (3 - String.length d) +:+ d
  else
    let d := oct n in zeros (4 - String.length d) +:+ d.

(** The number that a string of octal digits denotes, with a leading "-"
    for a negative one: the reading of the literals that ["%04o"] writes. *)
Fixpoint octValue (acc : Z) (s : string) : Z :=
  match s with
  | EmptyString => acc
  | String c s' => octValue (acc * 8 + (Z.of_nat (nat_of_ascii c) - 48)) s'
  end.

Definition readOct (s : string) : Z :=
  match s with
  | String "-"%char s' => - octValue 0 s'
  | _ => octValue 0 s
  end.

(** A string of octal digits. *)
Fixpoint octalDigits (s : string) : bool :=
  match s with
  | EmptyString => true
  | String c s' =>
      bool_decide (48 ≤ Z.of_nat (nat_of_ascii c) ≤ 55) && octalDigits s'
  end.

(** [ops[ops.index(symbol)] = lit], guarded by [symbol in ops]: the first
    entry equal to [symbol] is replaced. *)
Fixpoint replaceFirst (symbol lit : string) (ops : list string) : list string :=
  match ops with
  | [] => []
  | o :: rest =>
      if bool_decide (o = symbol) then lit :: rest
      else o :: replaceFirst symbol lit rest
  end.

(** Lines 288-295, on one pattern entry, one variant, the whole catalog. *)
Definition rewriteItem (symbol lit : string) (p : Item) : Item :=
  if inList symbol (desiredOperands p)
  then mkItem (required p) (desiredOpcodes p)
              (replaceFirst symbol lit (desiredOperands p))
  else p.

Definition rewriteVariant (symbol lit : string) (sp : SearchPattern) : SearchPattern :=
  mkSearchPattern (ranges sp) (map (rewriteItem symbol lit) (pattern sp))
                  (dataWords sp) (noReturn sp).

Definition rewriteCatalog (symbol lit : string) (c : Catalog) : Catalog :=
  map (fun kv => (kv.1, map (rewriteVariant symbol lit) kv.2)) c.

(** [searchPatterns[symbol]]. *)
Fixpoint catLookup (c : Catalog) (symbol : string) : option (list SearchPattern) :=
  match c with
  | [] => None
  | (k, vs) :: rest => if bool_decide (k = symbol) then Some vs else catLookup rest symbol
  end.

(** ** The search *)

(** The local variables [opcode] and [operand] of [searchSpecial]: unbound
    until the first disassembly, and never reset afterwards. *)
Abbreviation Locals := (option (string * string)).

(** The state of the forward loop (lines 213-243). *)
Record Fwd : Type := mkFwd {
  offset : Z;
  iPat : nat;
  extended : bool;
  lastOffset : Z;
  decoded : Locals
}.

(** How an iteration of the forward loop ends: at the loop test again, or
    at the [break] of line 242. *)
Inductive Flow : Type :=
| Next (st : Fwd)
| Stop (st : Fwd).

(** What the search of one symbol reads and writes: the registry
    [specialSubroutines] and the locals [opcode], [operand]. *)
Record Mem : Type := mkMem {
  reg : Registry;
  loc : Locals
}.

Record State : Type := mkState {
  mem : Mem;
  cat : Catalog
}.

(** Lines 199-200, and the [range] of line 202 for a start that is still a
    string. *)
Definition resolveStart (r : Registry) (st : Start) : Res Z :=
  match st with
  | StartInt n => Ok n
  | StartSym name =>
      match r !! name with
      | Some e => Ok (e_offset e + 1)
      | None => Raise TypeError
      end
  end.

(** Lines 211-212 and 258-259: [while not pattern[iPat][0]: iPat += 1],
    on the part of the pattern from [iPat] on. *)
Fixpoint seekRequired (items : list Item) (iPat : nat) : Res nat :=
  match items with
  | [] => Raise IndexError
  | p :: rest => if required p then Ok iPat else seekRequired rest (S iPat)
  end.

(** [len(l) == 0 or x in l], for a local [x] that may be unbound. *)
Definition emptyOrIn (l : list string) (x : option string) : Res bool :=
  if bool_decide (length l = 0%nat) then Ok true
  else match x with
       | Some v => Ok (inList v l)
       | None => Raise NameError
       end.

(** Lines 235-237. *)
Definition compatible (item : Item) (d : Locals) : Res bool :=
  okOpcode ← emptyOrIn (desiredOpcodes item) (fst <$> d);
  if okOpcode : bool then emptyOrIn (desiredOperands item) (snd <$> d)
  else Ok false.

(** Lines 228-230: the debugging output for the symbol "no" reads [opcode]
    and [operand]. *)
Definition debugPrint (symbol : string) (d : Locals) : Res unit :=
  if bool_decide (symbol = "no"%string) then
    match d with
    | Some _ => Ok tt
    | None => Raise NameError
    end
  else Ok tt.

(** [for x in xs: if found: break; body], for a body that sets [found]:
    the three nested loops of lines 178, 182 and 202 have this shape. *)
Fixpoint untilFound {A : Type} (body : A -> Mem -> Res bool * Mem)
    (xs : list A) (s : Mem) : Res bool * Mem :=
  match xs with
  | [] => (Ok false, s)
  | x :: rest =>
      match body x s with
      | (Ok true, s') => (Ok true, s')
      | (Ok false, s') => untilFound body rest s'
      | (Raise e, s') => (Raise e, s')
      end
  end.

(** The two arguments of [searchSpecial] that the search only calls:
    the address space and the disassembler. *)
Class Machine : Type := {
  word : Type;
  (** [core[bank][offset]], which raises where the address space has no word. *)
  core : Z -> Z -> Res word;
  (** [disassembleBasic(word, extended)]: opcode, operand, new [extended]. *)
  disassembleBasic : word -> bool -> string * string * bool
}.

Section Search.
Context `{Machine}.

(** Lines 225-227. *)
Definition fetch (bank : Z) (st : Fwd) : Res Fwd :=
  if bool_decide (offset st ≠ lastOffset st) then
    w ← core bank (offset st);
    let '(opcode, operand, ext) := disassembleBasic w (extended st) in
    Ok (mkFwd (offset st) (iPat st) ext (lastOffset st) (Some (opcode, operand)))
  else Ok st.

(** Lines 225-243: the body of the forward loop, for [item = pattern[iPat]]. *)
Definition fwdIter (symbol : string) (bank : Z) (item : Item) (st : Fwd) : Res Flow :=
  st1 ← fetch bank st;
  _ ← debugPrint symbol (decoded st1);
  m ← compatible item (decoded st1);
  if m : bool then
    Ok (Next (mkFwd (offset st1 + 1) (S (iPat st1)) (extended st1) (offset st1) (decoded st1)))
  else if required item then
    Ok (Stop (mkFwd (offset st1) (iPat st1) (extended st1) (offset st1) (decoded st1)))
  else
    Ok (Next (mkFwd (offset st1) (S (iPat st1)) (extended st1) (offset st1) (decoded st1))).

(** Lines 218-243: the forward loop, on [items = pattern[iPat:]]. The loop
    runs while [offset < endingOffset and iPat < len(pattern)]. *)
Fixpoint forward (symbol : string) (bank endingOffset : Z)
    (items : list Item) (st : Fwd) : Res Fwd :=
  match items with
  | [] => Ok st
  | item :: rest =>
      if bool_decide (offset st < endingOffset) then
        match fwdIter symbol bank item st with
        | Ok (Next st') => forward symbol bank endingOffset rest st'
        | Ok (Stop st') => Ok st'
        | Raise e => Raise e
        end
      else Ok st
  end.

(** The states that the forward loop goes through: [fwdReach items st
    items' st'] when the loop, at its test with state [st] and the items
    [items] left, comes to its test again with [st'] and [items'] left. *)
Inductive fwdReach (symbol : string) (bank endingOffset : Z)
    : list Item -> Fwd -> list Item -> Fwd -> Prop :=
| reach_here items st : fwdReach symbol bank endingOffset items st items st
| reach_next item rest st st1 items' st' :
    offset st < endingOffset ->
    fwdIter symbol bank item st = Ok (Next st1) ->
    fwdReach symbol bank endingOffset rest st1 items' st' ->
    fwdReach symbol bank endingOffset (item :: rest) st items' st'.

(** Lines 253-256 and 275-278. *)
Definition store (symbol : string) (e : Entry) (s : Mem) : Mem :=
  mkMem (<[symbol := e]> (reg s)) (loc s).

(** Lines 261-281: the backward loop. *)
Fixpoint backward (symbol : string) (ref : VariantRef) (pat : list Item)
    (bank startingOffset : Z) (iPat : nat) (offset : Z) (s : Mem) : Res unit * Mem :=
  match iPat with
  | O => (Ok tt, s)
  | S iPat' =>
      if bool_decide (offset > startingOffset) then
        let offset' := offset - 1 in
        match pat !! iPat' with
        | None => (Raise IndexError, s)
        | Some item =>
            match core bank offset' with
            | Raise e => (Raise e, s)
            | Ok w =>
                let '(opcode, operand, _) := disassembleBasic w false in
                let s1 := mkMem (reg s) (Some (opcode, operand)) in
                if inList opcode (desiredOpcodes item) then
                  if bool_decide (length (desiredOperands item) = 0%nat)
                     || inList operand (desiredOperands item)
                  then
                    backward symbol ref pat bank startingOffset iPat' offset'
                      (store symbol
                         (mkEntry bank offset' (fixedFixedOf bank offset')
                                  (Some ref) symbol (DWPatternOf ref)) s1)
                  else (Ok tt, s1)
                else backward symbol ref pat bank startingOffset iPat' offset' s1
            end
        end
      else (Ok tt, s)
  end.

(** Lines 203-282: one candidate [testOffset]. The result is [found]. *)
Definition tryOffset (symbol : string) (ref : VariantRef) (sp : SearchPattern)
    (bank startingOffset endingOffset testOffset : Z) (s : Mem) : Res bool * Mem :=
  match seekRequired (pattern sp) 0 with
  | Raise e => (Raise e, s)
  | Ok i0 =>
      match forward symbol bank endingOffset (drop i0 (pattern sp))
              (mkFwd testOffset i0 false (-1) (loc s)) with
      | Raise e => (Raise e, s)
      | Ok st =>
          let s1 := mkMem (reg s) (decoded st) in
          if bool_decide (length (pattern sp) ≤ iPat st)%nat then
            let s2 := store symbol
                        (mkEntry bank testOffset (fixedFixedOf bank testOffset)
                                 (Some ref) symbol (DWCount (dataWords sp))) s1 in
            match seekRequired (pattern sp) 0 with
            | Raise e => (Raise e, s2)
            | Ok i1 =>
                match backward symbol ref (pattern sp) bank startingOffset i1 testOffset s2 with
                | (Ok _, s3) => (Ok true, s3)
                | (Raise e, s3) => (Raise e, s3)
                end
            end
          else (Ok false, s1)
      end
  end.

(** Lines 202-204: the candidates in ascending order, until [found]. *)
Definition forOffsets (symbol : string) (ref : VariantRef) (sp : SearchPattern)
    (bank startingOffset endingOffset : Z) (candidates : list Z) (s : Mem)
    : Res bool * Mem :=
  untilFound (tryOffset symbol ref sp bank startingOffset endingOffset) candidates s.

(** Lines 189-202: one address range. *)
Definition searchRange (symbol : string) (ref : VariantRef) (sp : SearchPattern)
    (r : Range) (s : Mem) : Res bool * Mem :=
  match resolveStart (reg s) (r_start r) with
  | Raise e => (Raise e, s)
  | Ok startingOffset =>
      forOffsets symbol ref sp (r_bank r) startingOffset (r_end r)
        (pyRange startingOffset (r_end r)) s
  end.

(** Lines 182-188: the ranges of a variant, until [found]. *)
Definition forRanges (symbol : string) (ref : VariantRef) (sp : SearchPattern)
    (rs : list Range) (s : Mem) : Res bool * Mem :=
  untilFound (searchRange symbol ref sp) rs s.

(** Lines 178-181: one variant, at position [nsp.1] of [searchPatterns[symbol]]. *)
Definition searchVariant (symbol : string) (nsp : nat * SearchPattern) (s : Mem)
    : Res bool * Mem :=
  forRanges symbol (symbol, nsp.1) nsp.2 (ranges nsp.2) s.

(** Line 178: the variants of a symbol in order, until [found]. *)
Definition forVariants (symbol : string) (variants : list SearchPattern) (s : Mem)
    : Res bool * Mem :=
  untilFound (searchVariant symbol) (imap pair variants) s.

(** Lines 283-295: the rewriting of the placeholders that name [symbol]. *)
Definition rewriteAfter (symbol : string) (found : bool) (s : Mem) (c : Catalog)
    : Res Catalog :=
  if found then
    match reg s !! symbol with
    | None => Raise KeyError
    | Some e =>
        if bool_decide (e_fixedFixed e ≠ -1)
        then Ok (rewriteCatalog symbol (format04o (e_fixedFixed e)) c)
        else Ok c
    end
  else Ok c.

(** Lines 176-295: the body of the loop over the symbols. *)
Definition processSymbol (symbol : string) (st : State) : Res unit * State :=
  let s0 := store symbol (notFound symbol) (mem st) in
  match catLookup (cat st) symbol with
  | None => (Raise KeyError, mkState s0 (cat st))
  | Some variants =>
      match forVariants symbol variants s0 with
      | (Raise e, s1) => (Raise e, mkState s1 (cat st))
      | (Ok found, s1) =>
          match rewriteAfter symbol found s1 (cat st) with
          | Raise e => (Raise e, mkState s1 (cat st))
          | Ok c' => (Ok tt, mkState s1 c')
          end
      end
  end.

(** Line 175: the symbols in the order of the dictionary. *)
Fixpoint forSymbols (symbols : list string) (st : State) : Res unit * State :=
  match symbols with
  | [] => (Ok tt, st)
  | symbol :: rest =>
      match processSymbol symbol st with
      | (Ok _, st') => forSymbols rest st'
      | (Raise e, st') => (Raise e, st')
      end
  end.

(** [searchSpecial(core, searchPatterns, disassembleBasic)], run with the
    module-level [specialSubroutines] holding [registry]. It returns
    nothing; its effect is the registry and the catalog it leaves. *)
Definition searchSpecial (searchPatterns : Catalog) (registry : Registry)
    : Res unit * State :=
  forSymbols (map fst searchPatterns)
    (mkState (mkMem registry None) searchPatterns).


(** The address space has a word at every offset from 0 up to
    [endingOffset] of the bank. *)
Definition coreCovers (bank endingOffset : Z) : Prop :=
  ∀ off, 0 ≤ off < endingOffset → ∃ w, core bank off = Ok w.

End Search.

(** ** A concrete address space and disassembler

    [core] as a list of banks, each a list of words, with Python's list
    indexing; the words of the examples are already pairs of an opcode and
    an operand, and the toy disassembler sets [extended] after EXTEND. *)

Definition pyIndex {A : Type} (l : list A) (i : Z) : Res A :=
  let n := Z.of_nat (length l) in
  if bool_decide (0 ≤ i < n) then
    match l !! Z.to_nat i with Some x => Ok x | None => Raise IndexError end
  else if bool_decide (- n ≤ i < 0) then
    match l !! Z.to_nat (n + i) with Some x => Ok x | None => Raise IndexError end
  else Raise IndexError.

Definition listCore {A : Type} (banks : list (list A)) (bank offset : Z) : Res A :=
  b ← pyIndex banks bank; pyIndex b offset.

Definition toyDisassemble (w : string * string) (extended : bool)
    : string * string * bool :=
  (w.1, w.2, bool_decide (w.1 = "EXTEND"%string)).

Definition toyMachine (banks : list (list (string * string))) : Machine :=
  {| word := string * string;
     core := listCore banks;
     disassembleBasic := toyDisassemble |}.

(** ** The scenarios

    The pattern of the documentation of the module (RELINT optional, then
    EXTEND, QXCH, CA with operand 0004 or 0006, TS, MASK, TS), searched in
    bank 03 of ten instructions. *)

Definition intpretPattern : list Item :=
  [ mkItem false ["RELINT"] [];
    mkItem true ["EXTEND"] [];
    mkItem true ["QXCH"] [];
    mkItem true ["CA"] ["0004"; "0006"];
    mkItem true ["TS"] [];
    mkItem true ["MASK"] [];
    mkItem true ["TS"] [] ]%string.

Definition intpretVariant (start : Start) : SearchPattern :=
  mkSearchPattern [mkRange 3 start 10] intpretPattern 0 false.

(** The required run at offsets 2-7, without and with RELINT before it. *)
Definition bankPlain : list (string * string) :=
  [ ("NOOP", ""); ("TC", "1234"); ("EXTEND", ""); ("QXCH", "0010");
    ("CA", "0004"); ("TS", "0020"); ("MASK", "0030"); ("TS", "0040");
    ("NOOP", ""); ("NOOP", "") ]%string.

Definition bankRelint : list (string * string) :=
  [ ("NOOP", ""); ("RELINT", ""); ("EXTEND", ""); ("QXCH", "0010");
    ("CA", "0004"); ("TS", "0020"); ("MASK", "0030"); ("TS", "0040");
    ("NOOP", ""); ("NOOP", "") ]%string.

(** Banks 00-02 empty, bank 03 as given. *)
Definition banksWith (bank3 : list (string * string))
    : list (list (string * string)) :=
  [ []; []; []; bank3 ].

(** A symbol that is nowhere in [bankPlain], and a symbol whose range
    starts at it. *)
Definition absentVariant : SearchPattern :=
  mkSearchPattern [mkRange 3 (StartInt 0) 10]
    [mkItem true ["RESUME"%string] []] 0 false.

Definition afterAbsentVariant : SearchPattern :=
  mkSearchPattern [mkRange 3 (StartSym "ABSENT") 10]
    [mkItem true ["NOOP"%string] []] 0 false.

Definition chainedCatalog : Catalog :=
  [ ("ABSENT"%string, [absentVariant]); ("AFTER"%string, [afterAbsentVariant]) ].

(** A variant that ends with an optional item, and a variant with an
    operand that names a symbol that is nowhere. *)
Definition trailingOptionalVariant : SearchPattern :=
  mkSearchPattern [mkRange 3 (StartInt 0) 10]
    [mkItem true ["EXTEND"] []; mkItem false ["RELINT"] []]%string 0 false.

Definition danglingOperandVariant : SearchPattern :=
  mkSearchPattern [mkRange 3 (StartInt 0) 10]
    [mkItem true ["TC"] ["NOWHERE"]]%string 0 false.

Definition malformedCatalog : Catalog :=
  [ ("TRAIL"%string, [trailingOptionalVariant]);
    ("HOLE"%string, [danglingOperandVariant]) ].

(** ** The rewriting, in the words of the specification

    "Replace, in every operandSet, any entry equal to the resolved symbol's
    name with the literal textual form of canonicalAddress; entries not
    matching the name are untouched." *)

Definition specReplace (symbol lit : string) (ops : list string) : list string :=
  map (fun o => if bool_decide (o = symbol) then lit else o) ops.

Definition specRewriteItem (symbol lit : string) (p : Item) : Item :=
  mkItem (required p) (desiredOpcodes p) (specReplace symbol lit (desiredOperands p)).

Definition specRewriteVariant (symbol lit : string) (sp : SearchPattern) : SearchPattern :=
  mkSearchPattern (ranges sp) (map (specRewriteItem symbol lit) (pattern sp))
                  (dataWords sp) (noReturn sp).

Definition specRewriteCatalog (symbol lit : string) (c : Catalog) : Catalog :=
  map (fun kv => (kv.1, map (specRewriteVariant symbol lit) kv.2)) c.

(** The operand lists of the catalog are sets: none has a repeated entry. *)
Definition operandsAreSets (c : Catalog) : bool :=
  forallb (fun kv : string * list SearchPattern =>
    forallb (fun sp =>
      forallb (fun p => bool_decide (NoDup (desiredOperands p))) (pattern sp))
      kv.2) c.

Definition intpretCatalog (start : Start) : Catalog :=
  [ ("INTPRET"%string, [intpretVariant start]) ].

(** A pattern without a required item. *)
Definition allOptionalVariant : SearchPattern :=
  mkSearchPattern [mkRange 3 (StartInt 0) 10]
    [mkItem false ["RELINT"%string] []] 0 false.

(** Two optional items before the required one, and a bank in which the
    second of them is missing. *)
Definition leadingPairVariant : SearchPattern :=
  mkSearchPattern [mkRange 3 (StartInt 0) 10]
    [mkItem false ["RELINT"] []; mkItem false ["INHINT"] [];
     mkItem true ["EXTEND"] []]%string 0 false.

Definition bankGap : list (string * string) :=
  [ ("RELINT", ""); ("NOOP", ""); ("EXTEND", ""); ("QXCH", "0010") ]%string.

(** Scenario 4: CALLER has an operand that names TARGET; TARGET is found
    at 03,0002, the address 6002, and CALLER is the TC to it. *)
Definition targetVariant : SearchPattern :=
  mkSearchPattern [mkRange 3 (StartInt 0) 10]
    [mkItem true ["EXTEND"%string] []] 0 false.

Definition callerVariant : SearchPattern :=
  mkSearchPattern [mkRange 3 (StartInt 0) 10]
    [mkItem true ["TC"] ["TARGET"; "0000"]]%string 2 false.

Definition placeholderCatalog : Catalog :=
  [ ("TARGET"%string, [targetVariant]); ("CALLER"%string, [callerVariant]) ].

Definition bankCall : list (string * string) :=
  [ ("TC", "6002"); ("NOOP", ""); ("EXTEND", ""); ("QXCH", "0010");
    ("CA", "0004"); ("TS", "0020"); ("MASK", "0030"); ("TS", "0040");
    ("NOOP", ""); ("NOOP", "") ]%string.

(** A registry as an earlier scan of another catalog may have left it. *)
Definition staleRegistry : Registry :=
  <["ABSENT"%string := mkEntry 3 5 3077 (Some ("ABSENT"%string, 0%nat)) "ABSENT"
                               (DWCount 0)]>
    (<["OTHER"%string := notFound "OTHER"]> ∅).

(** An optional item that any instruction passes, before the required
    one. *)
Definition anyBeforeVariant : SearchPattern :=
  mkSearchPattern [mkRange 3 (StartInt 0) 10]
    [mkItem false [] []; mkItem true ["EXTEND"%string] []] 0 false.

(** A range without an offset, and a pattern without an item. *)
Definition emptyRangeVariant : SearchPattern :=
  mkSearchPattern [mkRange 3 (StartInt 5) 5] [] 0 false.

Definition emptyRangeCatalog : Catalog := [ ("VOID"%string, [emptyRangeVariant]) ].

(** A pattern that bank 03 of [bankPlain] holds twice, at the offsets 5
    and 7, and three variants of one symbol: the first is nowhere, the
    second is this one, the third would be found at 2. *)
Definition tsVariant : SearchPattern :=
  mkSearchPattern [mkRange 3 (StartInt 0) 10]
    [mkItem true ["TS"%string] []] 0 false.

Definition contendedVariants : list SearchPattern :=
  [absentVariant; tsVariant; targetVariant].

(** CALLER with the name of TARGET twice in its operand list. *)
Definition callerTwiceVariant : SearchPattern :=
  mkSearchPattern [mkRange 3 (StartInt 0) 10]
    [mkItem true ["TC"] ["TARGET"; "TARGET"]]%string 2 false.

Definition repeatedCatalog : Catalog :=
  [ ("TARGET"%string, [targetVariant]); ("CALLER"%string, [callerTwiceVariant]) ].

(** The machines of the scenarios. *)
Definition plainMachine : Machine := toyMachine (banksWith bankPlain).
Definition relintMachine : Machine := toyMachine (banksWith bankRelint).
Definition gapMachine : Machine := toyMachine (banksWith bankGap).
Definition callMachine : Machine := toyMachine (banksWith bankCall).

(** ** Catalogs whose ranges look back

    A range may start at a symbol (line 199). [startsKnown known variants]:
    every such start in [variants] names a symbol of [known].
    [refsBackward known symbols c]: going through [symbols] in order, the
    ranges of each symbol start at numbers, at the symbol itself, at a
    symbol that comes before it, or at a symbol of [known]. *)

Definition startKnown (known : list string) (rg : Range) : bool :=
  match r_start rg with
  | StartInt _ => true
  | StartSym name => inList name known
  end.

Definition startsKnown (known : list string) (variants : list SearchPattern) : bool :=
  forallb (fun sp => forallb (startKnown known) (ranges sp)) variants.

Fixpoint refsBackward (known symbols : list string) (c : Catalog) : bool :=
  match symbols with
  | [] => true
  | k :: rest =>
      match catLookup c k with
      | Some variants => startsKnown (k :: known) variants
      | None => true
      end && refsBackward (k :: known) rest c
  end.

(** Two states of the search with the same locals, and registries with
    the same tuple under every symbol of [E]. *)
Definition memRel (E : string → Prop) (s1 s2 : Mem) : Prop :=
  loc s1 = loc s2 ∧ ∀ k, E k → reg s1 !! k = reg s2 !! k.

(** ** Catalogs that can be scanned

    [variantOK known sp]: the pattern has a required item, the ranges start
    at numbers that are not negative or at symbols of [known].
    [scannable known symbols c]: going through [symbols] in order, every
    variant is such, for the symbols before it, the symbol itself and
    [known]. Nothing is asked of the last item of a pattern or of the
    operand lists. *)

Definition rangeOK (known : list string) (rg : Range) : bool :=
  match r_start rg with
  | StartInt n => bool_decide (0 ≤ n)
  | StartSym name => inList name known
  end.

Definition variantOK (known : list string) (sp : SearchPattern) : bool :=
  existsb required (pattern sp) && forallb (rangeOK known) (ranges sp).

Fixpoint scannable (known symbols : list string) (c : Catalog) : bool :=
  match symbols with
  | [] => true
  | k :: rest =>
      match catLookup c k with
      | Some variants => forallb (variantOK (k :: known)) variants
      | None => false
      end && scannable (k :: known) rest c
  end.

(** The ranges of a catalog. *)
Definition allRanges (c : Catalog) : list Range :=
  flat_map (fun kv => flat_map ranges kv.2) c.

(** What the scan keeps true of the registry: the symbols of [known] are in
    it, and no recorded offset is below -1. *)
Definition regOK (known : list string) (s : Mem) : Prop :=
  (∀ name, name ∈ known → is_Some (reg s !! name)) ∧
  (∀ k e, reg s !! k = Some e → -1 ≤ e_offset e).

(** ** Measures of a pattern and of a catalog *)

(** The number of required items of a pattern. *)
Definition requiredCount (items : list Item) : nat :=
  length (filter (fun p => required p = true) items).

(** A catalog without the entries of its operand lists: the symbols, the
    ranges, and of every item whether it is required, its opcodes and the
    number of its operands. *)
Definition itemSkeleton (p : Item) : bool * list string * nat :=
  (required p, desiredOpcodes p, length (desiredOperands p)).

Definition variantSkeleton (sp : SearchPattern)
    : list Range * list (bool * list string * nat) * Z * bool :=
  (ranges sp, map itemSkeleton (pattern sp), dataWords sp, noReturn sp).

Definition skeleton (c : Catalog)
    : list (string * list (list Range * list (bool * list string * nat) * Z * bool)) :=
  map (fun kv => (kv.1, map variantSkeleton kv.2)) c.

(** ** What the search does to the registry *)

(** [r'] is [r] with a tuple for a match of the variant [ref] stored
    under [symbol]: at the candidate [hi] itself with the data-word count
    of the variant, or shifted back to an offset from [lo] on, with the
    pattern in the sixth place. *)
Definition Stored (symbol : string) (ref : VariantRef) (sp : SearchPattern)
    (bank lo hi : Z) (r r' : Registry) : Prop :=
  ∃ o dw,
    ((o = hi ∧ dw = DWCount (dataWords sp)) ∨ (lo ≤ o < hi ∧ dw = DWPatternOf ref)) ∧
    r' = <[symbol := mkEntry bank o (fixedFixedOf bank o) (Some ref) symbol dw]> r.

(** What a step of the search may have done to the registry, by its
    outcome: nothing when nothing was found, [Q] when a match was found,
    either of them when an exception ended it. *)
Definition Outcome (Q : Registry → Registry → Prop) (res : Res bool)
    (r r' : Registry) : Prop :=
  match res with
  | Ok false => r' = r
  | Ok true => Q r r'
  | Raise _ => r' = r ∨ Q r r'
  end.

(** A match of [symbol] found in the range [rg] of the variant [nsp]. *)
Definition FoundIn (symbol : string) (nsp : nat * SearchPattern) (rg : Range)
    (r r' : Registry) : Prop :=
  ∃ startingOffset T,
    resolveStart r (r_start rg) = Ok startingOffset ∧
    startingOffset ≤ T < r_end rg ∧
    Stored symbol (symbol, nsp.1) nsp.2 (r_bank rg) startingOffset T r r'.

(** A match of [symbol] found by one of [variants]. *)
Definition Found (symbol : string) (variants : list SearchPattern)
    (r r' : Registry) : Prop :=
  ∃ nsp rg, variants !! nsp.1 = Some nsp.2 ∧ rg ∈ ranges nsp.2 ∧
            FoundIn symbol nsp rg r r'.

(** ** What a pattern asks of the instructions

    The documentation of the module (lines 42-58): an item accepts an
    instruction when its list of opcodes is empty or holds the opcode, and
    its list of operands is empty or holds the operand. *)
Definition accepts (item : Item) (opcode operand : string) : bool :=
  (bool_decide (length (desiredOpcodes item) = 0%nat) || inList opcode (desiredOpcodes item))
  && (bool_decide (length (desiredOperands item) = 0%nat) || inList operand (desiredOperands item)).

Section Matching.
Context `{Machine}.

(** [Matches bank endingOffset items o ext o']: the instructions of [bank]
    from [o] up to [o'], below [endingOffset], each disassembled once with
    the flag that the one before it left ([ext] for the first), satisfy
    [items] in order; an optional item may stand for no instruction when
    the instruction at its place is not one that it accepts. *)
Inductive Matches (bank endingOffset : Z) : list Item → Z → bool → Z → Prop :=
| matches_nil o ext : Matches bank endingOffset [] o ext o
| matches_take item rest o ext w opcode operand ext' o' :
    o < endingOffset →
    core bank o = Ok w →
    disassembleBasic w ext = (opcode, operand, ext') →
    accepts item opcode operand = true →
    Matches bank endingOffset rest (o + 1) ext' o' →
    Matches bank endingOffset (item :: rest) o ext o'
| matches_skip item rest o ext w opcode operand ext' o' :
    o < endingOffset →
    core bank o = Ok w →
    disassembleBasic w ext = (opcode, operand, ext') →
    required item = false →
    accepts item opcode operand = false →
    Matches bank endingOffset rest o ext o' →
    Matches bank endingOffset (item :: rest) o ext o'.

(** The state [st] of the forward loop stands for the offset [o] and the
    flag [ext]: either the instruction at [o] is still to be disassembled,
    with [ext], or it has been, with [ext], and [st] holds the result. *)
Definition Abs (bank : Z) (st : Fwd) (o : Z) (ext : bool) : Prop :=
  offset st = o ∧
  ((offset st ≠ lastOffset st ∧ extended st = ext) ∨
   (offset st = lastOffset st ∧
    ∃ w opcode operand,
      core bank o = Ok w ∧
      disassembleBasic w ext = (opcode, operand, extended st) ∧
      decoded st = Some (opcode, operand))).

End Matching.

(** * The import of a pattern file

    [importFlexFile(flexFilename, searchPatterns)], lines 97-166, reads a
    file line by line and stores one variant per symbol into the catalog
    that it is given. *)

(** The exceptions that the import can raise. *)
Inductive FlexExc : Type :=
| FlexIndexError
| FlexValueError
| FlexUnboundLocalError.

Inductive FRes (A : Type) : Type :=
| FOk (a : A)
| FRaise (e : FlexExc).
Arguments FOk {A} a.
Arguments FRaise {A} e.

#[global] Instance fres_bind : MBind FRes := λ A B f m,
  match m with
  | FOk a => f a
  | FRaise e => FRaise e
  end.

(** ** Python's string methods

    A string is a sequence of characters with codes below 256. *)

(** The number of [c] in [s]: [s.count(c)]. *)
Fixpoint countChar (c : ascii) (s : string) : nat :=
  match s with
  | EmptyString => O
  | String x s' => ((if bool_decide (x = c) then 1 else 0) + countChar c s')%nat
  end.

(** [c.isspace()], which is what [str.strip()] removes. *)
Definition isSpace (c : ascii) : bool :=
  let n := nat_of_ascii c in
  ((9 <=? n) && (n <=? 13) || (28 <=? n) && (n <=? 32) || (n =? 133) || (n =? 160))%nat.

Fixpoint lstrip (s : string) : string :=
  match s with
  | EmptyString => EmptyString
  | String c s' => if isSpace c then lstrip s' else s
  end.

Fixpoint rstrip (s : string) : string :=
  match s with
  | EmptyString => EmptyString
  | String c s' =>
      match rstrip s' with
      | EmptyString => if isSpace c then EmptyString else String c EmptyString
      | r => String c r
      end
  end.

(** [s.strip()]. *)
Definition strip (s : string) : string := rstrip (lstrip s).

(** [s.replace(c, "")] for a character [c]. *)
Fixpoint removeChar (c : ascii) (s : string) : string :=
  match s with
  | EmptyString => EmptyString
  | String x s' =>
      if bool_decide (x = c) then removeChar c s' else String x (removeChar c s')
  end.

(** [s[-1:] == c] and [s[:-1]]. *)
Fixpoint lastIs (c : ascii) (s : string) : bool :=
  match s with
  | EmptyString => false
  | String x s' =>
      match s' with
      | EmptyString => bool_decide (x = c)
      | String _ _ => lastIs c s'
      end
  end.

Fixpoint dropLast (s : string) : string :=
  match s with
  | EmptyString => EmptyString
  | String x s' =>
      match s' with
      | EmptyString => EmptyString
      | String _ _ => String x (dropLast s')
      end
  end.

(** [s[n:]] and [s[:n]]. *)
Fixpoint dropStr (n : nat) (s : string) : string :=
  match n, s with
  | O, _ => s
  | S _, EmptyString => EmptyString
  | S n', String _ s' => dropStr n' s'
  end.

Fixpoint takeStr (n : nat) (s : string) : string :=
  match n, s with
  | O, _ => EmptyString
  | S _, EmptyString => EmptyString
  | S n', String c s' => String c (takeStr n' s')
  end.

(** [sub in s]. *)
Fixpoint contains (sub s : string) : bool :=
  String.prefix sub s ||
  match s with
  | EmptyString => false
  | String _ s' => contains sub s'
  end.

(** [s.split(sep)] for a separator that is not empty: the occurrences of
    [sep] are found from the left and do not overlap. [skip] counts the
    characters of an occurrence that are still to be passed over. *)
Fixpoint splitGo (sep : string) (skip : nat) (s : string) : list string :=
  match s with
  | EmptyString => [EmptyString]
  | String c s' =>
      match skip with
      | S k => splitGo sep k s'
      | O =>
          if String.prefix sep s
          then EmptyString :: splitGo sep (String.length sep - 1) s'
          else match splitGo sep 0 s' with
               | f :: fs => String c f :: fs
               | [] => [String c EmptyString]
               end
      end
  end.

Definition split (sep s : string) : list string := splitGo sep 0 s.

(** The double quote. *)
Definition dquote : ascii := "034"%char.

(** The separator of line 138: a comma between double quotes. *)
Definition quoteCommaQuote : string :=
  String dquote (String ","%char (String dquote EmptyString)).

(** [int(s, base)] is the interpreter's: a number, or nothing where it
    raises [ValueError]. *)
Class Interp : Type := {
  pyInt : string → Z → option Z
}.

Definition int `{Interp} (s : string) (base : Z) : FRes Z :=
  match pyInt s base with
  | Some n => FOk n
  | None => FRaise FlexValueError
  end.

(** ** The dictionaries *)

(** [flexDict]: the ranges are lists of numbers, as line 165 appends them. *)
Record FlexDict : Type := mkFlexDict {
  fd_dataWords : Z;
  fd_noReturn : bool;
  fd_pattern : list Item;
  fd_ranges : list (list Z)
}.

(** The catalog as the import sees it: it assigns to keys and reads
    nothing. *)
Abbreviation FlexCatalog := (list (string * list FlexDict)).

(** [d[k] = v]: a key that is there keeps its place, a new one comes last. *)
Fixpoint dictSet {V : Type} (d : list (string * V)) (k : string) (v : V)
    : list (string * V) :=
  match d with
  | [] => [(k, v)]
  | (k', v') :: rest =>
      if bool_decide (k' = k) then (k, v) :: rest else (k', v') :: dictSet rest k v
  end.

(** The variables of the loop of line 101; [symbol] and [flexDict] are
    unbound until the first line has been read. *)
Record Import : Type := mkImport {
  im_count : Z;
  im_inPatterns : bool;
  im_symbol : option string;
  im_flexDict : option FlexDict;
  im_searchPatterns : FlexCatalog
}.

(** The reading of a local variable. *)
Definition bound {A : Type} (x : option A) : FRes A :=
  match x with
  | Some a => FOk a
  | None => FRaise FlexUnboundLocalError
  end.

(** [fields[1]]. *)
Definition second (fields : list string) : FRes string :=
  match fields with
  | _ :: x :: _ => FOk x
  | _ => FRaise FlexIndexError
  end.

(** Lines 102-104. *)
Definition normalize (line : string) : string :=
  let l := removeChar " " (strip line) in
  if lastIs "," l then dropLast l else l.

(** Lines 136-149, for one of the two fields of a pattern line. *)
Definition listField (field : string) : list string :=
  let names :=
    map (λ x, removeChar "," (removeChar dquote x))
        (split quoteCommaQuote (removeChar "]" (removeChar "[" field))) in
  if bool_decide (names = [EmptyString]) then [] else names.

(** Lines 129-149: the item of a pattern line. *)
Definition patternLine (line : string) : FRes Item :=
  let required := contains "True" line in
  let fields := split "],[" (dropStr (if required then 6 else 7) line) in
  match fields with
  | f0 :: f1 :: _ => FOk (mkItem required (listField f0) (listField f1))
  | _ => FRaise FlexIndexError
  end.

Section FlexImport.
Context `{Interp}.

(** Lines 161-164. *)
Fixpoint rangeNumbers (rangeFields : list string) : FRes (list Z) :=
  match rangeFields with
  | [] => FOk []
  | x :: rest =>
      n ← int (if bool_decide (takeStr 2 x = "0o"%string) then dropStr 2 x else x) 8;
      ns ← rangeNumbers rest;
      FOk (n :: ns)
  end.

(** Lines 158-165: the loop over the fields of a line of ranges. *)
Fixpoint rangeFields (fields : list string) (d : option FlexDict)
    : FRes (option FlexDict) :=
  match fields with
  | [] => FOk d
  | field :: rest =>
      ns ← rangeNumbers (split "," (removeChar "]" (removeChar "[" field)));
      fd ← bound d;
      rangeFields rest
        (Some (mkFlexDict (fd_dataWords fd) (fd_noReturn fd) (fd_pattern fd)
                          (fd_ranges fd ++ [ns])))
  end.

(** Lines 102-165: the body of the loop, for one line of the file. *)
Definition flexLine (raw : string) (st : Import) : FRes Import :=
  let line := normalize raw in
  let count := im_count st + 1 in
  if bool_decide (count = 1) then
    match split ":" line with
    | f0 :: _ =>
        FOk (mkImport count (im_inPatterns st) (Some (removeChar dquote f0))
                      (Some (mkFlexDict 0 false [] [])) (im_searchPatterns st))
    | [] => FRaise FlexIndexError
    end
  else if bool_decide (count = 2) then
    f1 ← second (split ":" line);
    dataWords ← int (removeChar "," f1) 10;
    fd ← bound (im_flexDict st);
    FOk (mkImport count (im_inPatterns st) (im_symbol st)
           (Some (mkFlexDict dataWords (fd_noReturn fd) (fd_pattern fd) (fd_ranges fd)))
           (im_searchPatterns st))
  else if bool_decide (count = 3) then
    f1 ← second (split ":" line);
    fd ← bound (im_flexDict st);
    FOk (mkImport count (im_inPatterns st) (im_symbol st)
           (Some (mkFlexDict (fd_dataWords fd) (bool_decide (f1 = "True,"%string))
                             (fd_pattern fd) (fd_ranges fd)))
           (im_searchPatterns st))
  else if bool_decide (count = 4) then
    FOk (mkImport count true (im_symbol st) (im_flexDict st) (im_searchPatterns st))
  else if im_inPatterns st then
    if bool_decide (line = "]"%string) then
      FOk (mkImport count false (im_symbol st) (im_flexDict st) (im_searchPatterns st))
    else
      item ← patternLine line;
      fd ← bound (im_flexDict st);
      FOk (mkImport count true (im_symbol st)
             (Some (mkFlexDict (fd_dataWords fd) (fd_noReturn fd)
                               (fd_pattern fd ++ [item]) (fd_ranges fd)))
             (im_searchPatterns st))
  else if bool_decide (line = "}]"%string) then
    fd ← bound (im_flexDict st);
    symbol ← bound (im_symbol st);
    FOk (mkImport 0 false (im_symbol st) (im_flexDict st)
           (dictSet (im_searchPatterns st) symbol [fd]))
  else
    f1 ← second (split ":" line);
    d ← rangeFields (split "],[" f1) (im_flexDict st);
    FOk (mkImport count false (im_symbol st) d (im_searchPatterns st)).

(** Line 101: the lines of the file in order; the result is the exception,
    if any, and the variables as the loop leaves them. *)
Fixpoint importLines (lines : list string) (st : Import) : FRes unit * Import :=
  match lines with
  | [] => (FOk tt, st)
  | raw :: rest =>
      match flexLine raw st with
      | FOk st' => importLines rest st'
      | FRaise e => (FRaise e, st)
      end
  end.

(** [importFlexFile(flexFilename, searchPatterns)] for a file with the
    lines [lines]; the result is the exception, if any, and the catalog
    that the call leaves. *)
Definition importFlexFile (lines : list string) (searchPatterns : FlexCatalog)
    : FRes unit * FlexCatalog :=
  let r := importLines lines (mkImport 0 false None None searchPatterns) in
  (r.1, im_searchPatterns r.2).

End FlexImport.

(** An interpreter for the scenarios: [int] of a string of digits of the
    base, with an optional minus sign. *)
Fixpoint digitsValue (base acc : Z) (s : string) : option Z :=
  match s with
  | EmptyString => Some acc
  | String c s' =>
      let d := Z.of_nat (nat_of_ascii c) - 48 in
      if bool_decide (0 ≤ d < base) then digitsValue base (acc * base + d) s'
      else None
  end.

Definition digitsInt (s : string) (base : Z) : option Z :=
  match s with
  | EmptyString => None
  | String "-"%char EmptyString => None
  | String "-"%char s' => Z.opp <$> digitsValue base 0 s'
  | _ => digitsValue base 0 s
  end.

Definition digitsInterp : Interp := {| pyInt := digitsInt |}.

(** A pattern file of one record, as the lines that the reading of the
    file gives. *)
Definition nl : string := String "010"%char EmptyString.

Definition intpretFile : list string :=
  [ String dquote ("INTPRET" +:+ String dquote (": [{" +:+ nl));
    "    " +:+ String dquote ("dataWords" +:+ String dquote (": 0," +:+ nl));
    "    " +:+ String dquote ("noReturn" +:+ String dquote (": True," +:+ nl));
    "    " +:+ String dquote ("pattern" +:+ String dquote (": [" +:+ nl));
    "        [False, [" +:+ String dquote ("RELINT" +:+ String dquote ("], []]," +:+ nl));
    "        [True, [" +:+ String dquote ("CA" +:+ String dquote (", " +:+ String dquote ("CAF" +:+ String dquote ("], [" +:+ String dquote ("0004" +:+ String dquote ("]]," +:+ nl))))));
    "    ]," +:+ nl;
    "    " +:+ String dquote ("ranges" +:+ String dquote (": [[0o3, 0o0, 0o200], [2, 0, 0o10]]" +:+ nl));
    "}]," +:+ nl ].

(** The same file without its last line. *)
Definition unclosedFile : list string := take 8 intpretFile.

(** ** What the scan reads of an imported variant

    [searchSpecial] reads of a range the bank [searchRange[0]], the start
    [searchRange[1]], which for a number is no key of the registry (line
    199), and the end [searchRange[2]]; a list of fewer than three numbers
    is no range that it can read. *)
Definition rangeOf (fields : list Z) : option Range :=
  match fields with
  | bank :: start :: ending :: _ => Some (mkRange bank (StartInt start) ending)
  | _ => None
  end.

Definition variantOf (fd : FlexDict) : option SearchPattern :=
  rs ← mapM rangeOf (fd_ranges fd);
  Some (mkSearchPattern rs (fd_pattern fd) (fd_dataWords fd) (fd_noReturn fd)).

(** The catalog that [importFlexFile] has filled, as [searchSpecial] is
    given it. *)
Definition catalogOf (c : FlexCatalog) : option Catalog :=
  mapM (λ kv : string * list FlexDict, vs ← mapM variantOf kv.2; Some (kv.1, vs)) c.

(** A pattern file with the two variants of [malformedCatalog]. *)
Definition quoted (s : string) : string :=
  String dquote (s +:+ String dquote EmptyString).

Definition malformedFile : list string :=
  [ quoted "TRAIL" +:+ ": [{" +:+ nl;
    "    " +:+ quoted "dataWords" +:+ ": 0," +:+ nl;
    "    " +:+ quoted "noReturn" +:+ ": False," +:+ nl;
    "    " +:+ quoted "pattern" +:+ ": [" +:+ nl;
    "        [True, [" +:+ quoted "EXTEND" +:+ "], []]," +:+ nl;
    "        [False, [" +:+ quoted "RELINT" +:+ "], []]," +:+ nl;
    "    ]," +:+ nl;
    "    " +:+ quoted "ranges" +:+ ": [[0o3, 0o0, 0o12]]" +:+ nl;
    "}]," +:+ nl;
    quoted "HOLE" +:+ ": [{" +:+ nl;
    "    " +:+ quoted "dataWords" +:+ ": 0," +:+ nl;
    "    " +:+ quoted "noReturn" +:+ ": False," +:+ nl;
    "    " +:+ quoted "pattern" +:+ ": [" +:+ nl;
    "        [True, [" +:+ quoted "TC" +:+ "], [" +:+ quoted "NOWHERE" +:+ "]]," +:+ nl;
    "    ]," +:+ nl;
    "    " +:+ quoted "ranges" +:+ ": [[0o3, 0o0, 0o12]]" +:+ nl;
    "}]," +:+ nl ].


(** * Properties *)

(** ** The seek of the first required item *)

Lemma seekRequired_Ok (items : list Item) (n i : nat) :
  seekRequired items n = Ok i ↔
  ∃ k p, i = (n + k)%nat ∧ items !! k = Some p ∧ required p = true ∧
         Forall (λ q, required q = false) (take k items).
Proof.
  revert n. induction items as [|q items IH]; intros n; simpl.
  - split; [done|]. intros (k & p & _ & H & _). by rewrite lookup_nil in H.
  - destruct (required q) eqn:Hq.
    + split.
      * intros [= <-]. exists 0%nat, q. rewrite Nat.add_0_r. by repeat split.
      * intros (k & p & -> & Hk & Hp & Hall). destruct k as [|k].
        -- by rewrite Nat.add_0_r.
        -- simpl in Hall. apply Forall_cons in Hall as [Hq' _]. congruence.
    + rewrite IH. split.
      * intros (k & p & -> & Hk & Hp & Hall). exists (S k), p.
        repeat split; [lia|done|done|]. simpl. by constructor.
      * intros (k & p & -> & Hk & Hp & Hall). destruct k as [|k].
        -- simpl in Hk. congruence.
        -- exists k, p. simpl in Hall. apply Forall_cons in Hall as [_ Hall].
           repeat split; [lia|done|done|done].
Qed.

Lemma seekRequired_Raise (items : list Item) (n : nat) (e : Exc) :
  seekRequired items n = Raise e ↔
  e = IndexError ∧ Forall (λ q, required q = false) items.
Proof.
  revert n. induction items as [|q items IH]; intros n; simpl.
  - split; [by intros [= <-]|by intros [-> _]].
  - destruct (required q) eqn:Hq.
    + split; [done|]. intros [_ H]. apply Forall_cons in H as [H _]. congruence.
    + rewrite IH. split; intros [-> H]; split; try done.
      * by constructor.
      * by apply Forall_cons in H as [_ H].
Qed.

Lemma seekRequired_lt (items : list Item) (i : nat) :
  seekRequired items 0 = Ok i → (i < length items)%nat.
Proof.
  intros (k & p & -> & Hk & _)%seekRequired_Ok. by apply lookup_lt_Some in Hk.
Qed.

(** ** The loops that run until [found] *)

Lemma untilFound_app {A : Type} (body : A → Mem → Res bool * Mem) xs ys s :
  untilFound body (xs ++ ys) s =
  match untilFound body xs s with
  | (Ok false, s') => untilFound body ys s'
  | r => r
  end.
Proof.
  revert s. induction xs as [|x xs IH]; intros s; simpl; [done|].
  destruct (body x s) as [[[]|e] s1]; auto.
Qed.

Lemma untilFound_found {A : Type} (body : A → Mem → Res bool * Mem) xs s s' :
  untilFound body xs s = (Ok true, s') →
  ∃ pre x post s1, xs = pre ++ x :: post ∧
    untilFound body pre s = (Ok false, s1) ∧ body x s1 = (Ok true, s').
Proof.
  revert s. induction xs as [|x xs IH]; intros s; simpl; [done|].
  destruct (body x s) as [[[]|e] s1] eqn:Hx; [| |done].
  - intros [= <-]. by exists [], x, xs, s.
  - intros (pre & y & post & s2 & -> & Hpre & Hy)%IH.
    exists (x :: pre), y, post, s2. simpl. by rewrite Hx.
Qed.

Section SearchFacts.
Context `{Machine}.

(** ** The forward loop *)

Lemma fetch_same bank st st1 :
  fetch bank st = Ok st1 →
  offset st1 = offset st ∧ iPat st1 = iPat st ∧ lastOffset st1 = lastOffset st.
Proof.
  unfold fetch. case_bool_decide; [|by intros [= <-]].
  destruct (core bank (offset st)) as [w|e]; simpl; [|done].
  destruct (disassembleBasic w (extended st)) as [[opc opd] ext].
  by intros [= <-].
Qed.

Lemma fwdIter_Next symbol bank item st st' :
  fwdIter symbol bank item st = Ok (Next st') →
  iPat st' = S (iPat st) ∧ offset st ≤ offset st' ≤ offset st + 1 ∧
  lastOffset st' = offset st.
Proof.
  unfold fwdIter.
  destruct (fetch bank st) as [st1|e] eqn:Hf; simpl; [|done].
  apply fetch_same in Hf as (Ho & Hi & _).
  destruct (debugPrint symbol (decoded st1)); simpl; [|done].
  destruct (compatible item (decoded st1)) as [[]|]; simpl; [| |done].
  - intros [= <-]. simpl. rewrite Ho, Hi. lia.
  - destruct (required item); [done|]. intros [= <-]. simpl. rewrite Ho, Hi. lia.
Qed.

Lemma fwdIter_Stop symbol bank item st st' :
  fwdIter symbol bank item st = Ok (Stop st') →
  iPat st' = iPat st ∧ offset st' = offset st ∧ required item = true.
Proof.
  unfold fwdIter.
  destruct (fetch bank st) as [st1|e] eqn:Hf; simpl; [|done].
  apply fetch_same in Hf as (Ho & Hi & _).
  destruct (debugPrint symbol (decoded st1)); simpl; [|done].
  destruct (compatible item (decoded st1)) as [[]|]; simpl; [done| |done].
  destruct (required item); [|done]. intros [= <-]. by simpl.
Qed.

(** The pattern index only grows, by at most the number of items left;
    where it reaches the end of the pattern, every item was passed. *)
Lemma forward_iPat symbol bank endingOffset items st st' :
  forward symbol bank endingOffset items st = Ok st' →
  (iPat st ≤ iPat st' ≤ iPat st + length items)%nat ∧ offset st ≤ offset st'.
Proof.
  revert st. induction items as [|item rest IH]; intros st; simpl.
  - intros [= <-]. lia.
  - case_bool_decide; [|intros [= <-]; lia].
    destruct (fwdIter symbol bank item st) as [[st1|st1]|e] eqn:Hit; [| |done].
    + apply fwdIter_Next in Hit as (Hi & Ho & _).
      intros [? ?]%IH. lia.
    + apply fwdIter_Stop in Hit as (Hi & Ho & _). intros [= <-]. lia.
Qed.

(** ** The registry during the search of one symbol *)

Lemma backward_reg symbol ref pat bank startingOffset i off s res s' :
  backward symbol ref pat bank startingOffset i off s = (res, s') →
  reg s' = reg s ∨
  ∃ o, startingOffset ≤ o < off ∧
    reg s' = <[symbol := mkEntry bank o (fixedFixedOf bank o) (Some ref) symbol
                          (DWPatternOf ref)]> (reg s).
Proof.
  revert off s. induction i as [|i IH]; intros off s; simpl.
  - intros [= _ <-]. by left.
  - case_bool_decide as Hgt; [|intros [= _ <-]; by left].
    destruct (pat !! i) as [item|]; [|intros [= _ <-]; by left].
    destruct (core bank (off - 1)) as [w|e]; [|intros [= _ <-]; by left].
    destruct (disassembleBasic w false) as [[opc opd] ext].
    destruct (inList opc (desiredOpcodes item)).
    + destruct (_ || _).
      * intros [Hr|(o & Ho & Hr)]%IH; right.
        -- exists (off - 1). split; [lia|]. by rewrite Hr.
        -- exists o. split; [lia|]. rewrite Hr. simpl. by rewrite insert_insert_eq.
      * intros [= _ <-]. by left.
    + intros [Hr|(o & Ho & Hr)]%IH.
      * left. by rewrite Hr.
      * right. exists o. split; [lia|]. by rewrite Hr.
Qed.

Lemma tryOffset_reg symbol ref sp bank startingOffset endingOffset T s res s' :
  tryOffset symbol ref sp bank startingOffset endingOffset T s = (res, s') →
  match res with
  | Ok false => reg s' = reg s
  | Ok true => Stored symbol ref sp bank startingOffset T (reg s) (reg s')
  | Raise _ =>
      reg s' = reg s ∨ Stored symbol ref sp bank startingOffset T (reg s) (reg s')
  end.
Proof.
  unfold tryOffset.
  destruct (seekRequired (pattern sp) 0) as [i0|e]; [|intros [= <- <-]; by left].
  destruct (forward _ _ _ _ _) as [st|e]; [|intros [= <- <-]; by left].
  case_bool_decide; [|by intros [= <- <-]].
  destruct (backward _ _ _ _ _ _ _ _) as [rb s3] eqn:Hb.
  apply backward_reg in Hb as Hreg. simpl in Hreg.
  assert (Stored symbol ref sp bank startingOffset T (reg s) (reg s3)) as HS.
  { destruct Hreg as [Hr|(o & Ho & Hr)].
    - exists T, (DWCount (dataWords sp)). split; [by left|done].
    - exists o, (DWPatternOf ref). split; [by right|].
      by rewrite Hr, insert_insert_eq. }
  destruct rb as [[]|e]; intros [= <- <-]; by try right.
Qed.

Lemma Outcome_mono (Q Q' : Registry → Registry → Prop) res r r' :
  (∀ r1 r2, Q r1 r2 → Q' r1 r2) → Outcome Q res r r' → Outcome Q' res r r'.
Proof.
  intros HQ. destruct res as [[]|e]; simpl; [auto|auto|].
  intros [Hr|Hq]; [by left|right; auto].
Qed.

Lemma untilFound_outcome {A : Type} (body : A → Mem → Res bool * Mem)
    (Q : A → Registry → Registry → Prop) xs s res s' :
  (∀ x s1 res1 s2, x ∈ xs → body x s1 = (res1, s2) →
                   Outcome (Q x) res1 (reg s1) (reg s2)) →
  untilFound body xs s = (res, s') →
  Outcome (λ r r', ∃ x, x ∈ xs ∧ Q x r r') res (reg s) (reg s').
Proof.
  revert s. induction xs as [|x xs IH]; intros s Hbody; simpl.
  - by intros [= <- <-].
  - destruct (body x s) as [r1 s1] eqn:Hx.
    pose proof (Hbody x s r1 s1 ltac:(left) Hx) as Hout.
    destruct r1 as [[]|e].
    + intros [= <- <-]. simpl in *. exists x. split; [left|done].
    + intros Hrest. simpl in Hout. rewrite <- Hout.
      apply IH in Hrest; [|intros; eapply Hbody; [by right|done]].
      eapply Outcome_mono; [|done]. intros ? ? (y & ? & ?). exists y.
      split; [by right|done].
    + intros [= <- <-]. simpl in *. destruct Hout as [|Hq]; [by left|right].
      exists x. split; [left|done].
Qed.

Lemma elem_of_pyRange (a b T : Z) : T ∈ pyRange a b ↔ a ≤ T < b.
Proof.
  unfold pyRange. rewrite list_elem_of_In, in_map_iff. split.
  - intros (i & <- & Hi%in_seq). lia.
  - intros HT. exists (Z.to_nat (T - a)). split; [lia|]. apply in_seq. lia.
Qed.

Lemma searchRange_outcome symbol n sp rg s res s' :
  searchRange symbol (symbol, n) sp rg s = (res, s') →
  Outcome (FoundIn symbol (n, sp) rg) res (reg s) (reg s').
Proof.
  unfold searchRange, forOffsets.
  destruct (resolveStart (reg s) (r_start rg)) as [start|e] eqn:Hstart;
    [|intros [= <- <-]; by left].
  intros Hloop.
  apply (untilFound_outcome _
           (λ T, Stored symbol (symbol, n) sp (r_bank rg) start T)) in Hloop.
  - destruct res as [[]|e]; simpl in *; [|done|].
    + destruct Hloop as (T & HT%elem_of_pyRange & HS).
      by exists start, T.
    + destruct Hloop as [|(T & HT%elem_of_pyRange & HS)]; [by left|right].
      by exists start, T.
  - intros T s1 res1 s2 _ Htry. apply tryOffset_reg in Htry.
    destruct res1 as [[]|e]; simpl; done.
Qed.

Lemma searchVariant_outcome symbol nsp s res s' :
  searchVariant symbol nsp s = (res, s') →
  Outcome (λ r r', ∃ rg, rg ∈ ranges nsp.2 ∧ FoundIn symbol nsp rg r r')
          res (reg s) (reg s').
Proof.
  unfold searchVariant, forRanges. destruct nsp as [n sp]. simpl.
  apply untilFound_outcome. intros rg s1 res1 s2 _. apply searchRange_outcome.
Qed.

Lemma forVariants_outcome symbol variants s res s' :
  forVariants symbol variants s = (res, s') →
  Outcome (Found symbol variants) res (reg s) (reg s').
Proof.
  unfold forVariants. intros Hloop.
  apply (untilFound_outcome _
    (λ nsp r r', ∃ rg, rg ∈ ranges nsp.2 ∧ FoundIn symbol nsp rg r r')) in Hloop.
  - eapply Outcome_mono; [|done]. intros r1 r2 ([n sp] & Hin & rg & Hrg & HF).
    exists (n, sp), rg. split; [|done].
    apply elem_of_lookup_imap in Hin as (i & x & [= -> ->] & Hi). done.
  - intros. by apply searchVariant_outcome.
Qed.

(** ** One symbol, and the loop over the symbols *)

(** The registry after [symbol] was processed: the mark of line 176,
    or a match stored over it. *)
Lemma processSymbol_reg symbol st res st' :
  processSymbol symbol st = (res, st') →
  let r0 := <[symbol := notFound symbol]> (reg (mem st)) in
  reg (mem st') = r0 ∨
  ∃ variants, catLookup (cat st) symbol = Some variants ∧
              Found symbol variants r0 (reg (mem st')).
Proof.
  unfold processSymbol.
  destruct (catLookup (cat st) symbol) as [variants|]; [|intros [= <- <-]; by left].
  destruct (forVariants _ _ _) as [rv s1] eqn:Hv.
  apply forVariants_outcome in Hv. simpl in Hv.
  assert (reg s1 = <[symbol:=notFound symbol]> (reg (mem st)) ∨
          Found symbol variants (<[symbol:=notFound symbol]> (reg (mem st))) (reg s1))
    as Hs1.
  { destruct rv as [[]|e]; simpl in Hv; [by right|by left|].
    destruct Hv; [by left|by right]. }
  assert (reg (mem st') = reg s1 → reg (mem st') = <[symbol:=notFound symbol]> (reg (mem st)) ∨
          ∃ vs, Some variants = Some vs ∧
            Found symbol vs (<[symbol:=notFound symbol]> (reg (mem st))) (reg (mem st')))
    as Hfin.
  { intros ->. destruct Hs1; [by left|right]. by exists variants. }
  destruct rv as [found|e]; [|intros [= <- <-]; by apply Hfin].
  destruct (rewriteAfter _ _ _ _); intros [= <- <-]; by apply Hfin.
Qed.

Lemma processSymbol_frame symbol st res st' k :
  processSymbol symbol st = (res, st') → k ≠ symbol →
  reg (mem st') !! k = reg (mem st) !! k.
Proof.
  intros Hp Hk. apply processSymbol_reg in Hp as [->|(vs & _ & HF)].
  - by rewrite lookup_insert_ne.
  - destruct HF as (nsp & rg & _ & _ & start & T & _ & _ & o & dw & _ & ->).
    by rewrite !lookup_insert_ne.
Qed.

(** The tuple under [symbol] after it was processed. *)
Lemma processSymbol_entry symbol st res st' :
  processSymbol symbol st = (res, st') →
  ∃ e, reg (mem st') !! symbol = Some e ∧ e_symbol e = symbol ∧
       e_fixedFixed e = fixedFixedOf (e_bank e) (e_offset e).
Proof.
  intros [->|(vs & _ & HF)]%processSymbol_reg.
  - exists (notFound symbol). by rewrite lookup_insert_eq.
  - destruct HF as (nsp & rg & _ & _ & start & T & _ & _ & o & dw & _ & ->).
    eexists. by rewrite lookup_insert_eq.
Qed.

Lemma forSymbols_frame symbols st res st' k :
  forSymbols symbols st = (res, st') → k ∉ symbols →
  reg (mem st') !! k = reg (mem st) !! k.
Proof.
  revert st. induction symbols as [|symbol rest IH]; intros st; simpl.
  - by intros [= _ <-].
  - intros Hrun [Hk Hrest]%not_elem_of_cons.
    destruct (processSymbol symbol st) as [[[]|e] st1] eqn:Hp.
    + rewrite (IH _ Hrun Hrest). by eapply processSymbol_frame.
    + injection Hrun as _ <-. by eapply processSymbol_frame.
Qed.

(** What every run of [processSymbol] establishes for its symbol holds,
    after the loop, for every symbol of the loop. *)
Lemma forSymbols_keeps (Q : string → Entry → Prop) symbols st res st' k :
  (∀ symbol st res st', processSymbol symbol st = (res, st') →
     ∃ e, reg (mem st') !! symbol = Some e ∧ Q symbol e) →
  (∃ e, reg (mem st) !! k = Some e ∧ Q k e) →
  forSymbols symbols st = (res, st') →
  ∃ e, reg (mem st') !! k = Some e ∧ Q k e.
Proof.
  intros HQ. revert st. induction symbols as [|symbol rest IH]; intros st Hk; simpl.
  - by intros [= _ <-].
  - destruct (processSymbol symbol st) as [r1 st1] eqn:Hp.
    assert (∃ e, reg (mem st1) !! k = Some e ∧ Q k e) as Hk1.
    { destruct (decide (k = symbol)) as [->|Hne]; [by eapply HQ|].
      by rewrite (processSymbol_frame _ _ _ _ _ Hp Hne). }
    destruct r1 as [[]|e]; [by apply IH|by intros [= _ <-]].
Qed.

Lemma forSymbols_all (Q : string → Entry → Prop) symbols st st' k :
  (∀ symbol st res st', processSymbol symbol st = (res, st') →
     ∃ e, reg (mem st') !! symbol = Some e ∧ Q symbol e) →
  forSymbols symbols st = (Ok tt, st') → k ∈ symbols →
  ∃ e, reg (mem st') !! k = Some e ∧ Q k e.
Proof.
  intros HQ. revert st. induction symbols as [|symbol rest IH]; intros st; simpl.
  - intros _ Hk. by apply elem_of_nil in Hk.
  - destruct (processSymbol symbol st) as [[[]|e] st1] eqn:Hp; [|done].
    intros Hrun [->|Hk]%elem_of_cons; [|by eapply IH].
    eapply forSymbols_keeps; [done| |done]. by eapply HQ.
Qed.

(** ** The canonical address of a stored tuple *)

Lemma fixedFixedOf_window bank off :
  bank ∈ [2; 3] → fixedFixedOf bank off = bank * 1024 + off.
Proof. intros Hb. unfold fixedFixedOf. by rewrite bool_decide_eq_true_2. Qed.

Lemma fixedFixedOf_none bank off :
  bank ∉ [2; 3] → fixedFixedOf bank off = -1.
Proof. intros Hb. unfold fixedFixedOf. by rewrite bool_decide_eq_false_2. Qed.

(** C7. After a scan, for every symbol of the catalog the third
    component of its tuple is [bank * 0o2000 + offset] when the bank is 2
    or 3, and -1 for any other bank; for a bank and an offset that are
    addresses (not negative), it equals [bank * 0o2000 + offset] if and
    only if the bank is 2 or 3. *)
Theorem canonical_address_iff_window (searchPatterns : Catalog)
    (registry : Registry) (st : State) (symbol : string) :
  searchSpecial searchPatterns registry = (Ok tt, st) →
  symbol ∈ map fst searchPatterns →
  ∃ e, reg (mem st) !! symbol = Some e ∧
       (e_bank e ∈ [2; 3] → e_fixedFixed e = e_bank e * 1024 + e_offset e) ∧
       (e_bank e ∉ [2; 3] → e_fixedFixed e = -1) ∧
       (0 ≤ e_bank e → 0 ≤ e_offset e →
        (e_fixedFixed e = e_bank e * 1024 + e_offset e ↔ e_bank e ∈ [2; 3])).
Proof.
  intros Hrun Hk.
  unfold searchSpecial in Hrun.
  eapply (forSymbols_all
            (λ _ e, e_fixedFixed e = fixedFixedOf (e_bank e) (e_offset e)))
    in Hrun as (e & He & Hff); [| |exact Hk].
  2:{ intros s0 st0 r0 st0' (e & ? & _ & ?)%processSymbol_entry. by exists e. }
  exists e. split; [done|]. rewrite Hff. split; [apply fixedFixedOf_window|].
  split; [apply fixedFixedOf_none|]. intros Hb Ho.
  split; [|apply fixedFixedOf_window].
  destruct (decide (e_bank e ∈ [2; 3])) as [|Hn]; [done|].
  rewrite (fixedFixedOf_none _ _ Hn). lia.
Qed.

(** ** Items that the instruction does not match *)

Lemma emptyOrIn_false l x : emptyOrIn l x = Ok false → is_Some x.
Proof.
  unfold emptyOrIn. case_bool_decide; [done|]. destruct x; [eauto|done].
Qed.

(** A comparison that fails has read [opcode]: the locals are bound. *)
Lemma compatible_false_bound item d : compatible item d = Ok false → is_Some d.
Proof.
  unfold compatible.
  destruct (emptyOrIn (desiredOpcodes item) (fst <$> d)) as [[]|e] eqn:Hopc;
    simpl; [| |done].
  - intros [x Hx]%emptyOrIn_false. destruct d; [eauto|done].
  - intros _. apply emptyOrIn_false in Hopc as [x Hx]. destruct d; [eauto|done].
Qed.

Lemma fwdReach_forward symbol bank endingOffset items st items' st' :
  fwdReach symbol bank endingOffset items st items' st' →
  forward symbol bank endingOffset items st =
  forward symbol bank endingOffset items' st'.
Proof.
  induction 1 as [|item rest st st1 items' st' Hlt Hit _ IH]; [done|].
  simpl. by rewrite bool_decide_eq_true_2, Hit.
Qed.

Lemma fwdReach_iPat symbol bank endingOffset items st items' st' :
  fwdReach symbol bank endingOffset items st items' st' →
  (iPat st + length items = iPat st' + length items')%nat.
Proof.
  induction 1 as [|item rest st st1 items' st' Hlt Hit _ IH]; [done|].
  apply fwdIter_Next in Hit as (Hi & _). simpl. lia.
Qed.

(** C9. In the forward phase from any candidate [T], at an instruction
    that the item [pattern[iPat]] does not match: when the item is
    optional, the iteration leaves the offset as it is and adds one to
    [iPat], and the next iteration tests the same decoded instruction,
    without another disassembly; when the item is required, the loop is
    left with [iPat] short of the end of the pattern, and the candidate
    [T] gives no match and stores nothing. *)
Theorem forward_incompatible_item (symbol : string) (ref : VariantRef)
    (sp : SearchPattern) (bank startingOffset endingOffset T : Z) (s : Mem)
    (i0 : nat) (item : Item) (rest : list Item) (st st1 : Fwd) :
  seekRequired (pattern sp) 0 = Ok i0 →
  fwdReach symbol bank endingOffset (drop i0 (pattern sp))
           (mkFwd T i0 false (-1) (loc s)) (item :: rest) st →
  offset st < endingOffset →
  fetch bank st = Ok st1 →
  compatible item (decoded st1) = Ok false →
  (required item = false →
     ∃ st', fwdIter symbol bank item st = Ok (Next st') ∧
            offset st' = offset st ∧ iPat st' = S (iPat st) ∧
            decoded st' = decoded st1 ∧ extended st' = extended st1 ∧
            fetch bank st' = Ok st' ∧
            forward symbol bank endingOffset (item :: rest) st =
            forward symbol bank endingOffset rest st') ∧
  (required item = true →
     ∃ st', fwdIter symbol bank item st = Ok (Stop st') ∧
            offset st' = offset st ∧ iPat st' = iPat st ∧
            (iPat st' < length (pattern sp))%nat ∧
            forward symbol bank endingOffset (item :: rest) st = Ok st' ∧
            tryOffset symbol ref sp bank startingOffset endingOffset T s =
            (Ok false, mkMem (reg s) (decoded st1))).
Proof.
  intros Hseek Hreach Hlt Hfetch Hcompat.
  pose proof (compatible_false_bound _ _ Hcompat) as [d Hd].
  pose proof (fetch_same _ _ _ Hfetch) as (Ho & Hi & Hl).
  assert (debugPrint symbol (decoded st1) = Ok tt) as Hdbg.
  { unfold debugPrint. rewrite Hd. by case_bool_decide. }
  split; intros Hreq.
  - eexists. split.
    { unfold fwdIter. rewrite Hfetch. simpl. rewrite Hdbg. simpl.
      rewrite Hcompat. simpl. by rewrite Hreq. }
    simpl. repeat split; [done|by rewrite Hi|..].
    + unfold fetch. simpl. by rewrite bool_decide_eq_false_2 by naive_solver.
    + rewrite bool_decide_eq_true_2 by done.
      unfold fwdIter. rewrite Hfetch. simpl. rewrite Hdbg. simpl.
      rewrite Hcompat. simpl. by rewrite Hreq.
  - assert (fwdIter symbol bank item st =
            Ok (Stop (mkFwd (offset st1) (iPat st1) (extended st1) (offset st1)
                            (decoded st1)))) as Hit.
    { unfold fwdIter. rewrite Hfetch. simpl. rewrite Hdbg. simpl.
      rewrite Hcompat. simpl. by rewrite Hreq. }
    pose proof (fwdReach_iPat _ _ _ _ _ _ _ Hreach) as Hlen.
    pose proof (seekRequired_lt _ _ Hseek) as Hi0. simpl in Hlen.
    rewrite length_drop in Hlen.
    assert (forward symbol bank endingOffset (item :: rest) st =
            Ok (mkFwd (offset st1) (iPat st1) (extended st1) (offset st1)
                      (decoded st1))) as Hfw.
    { simpl. by rewrite bool_decide_eq_true_2, Hit. }
    eexists. split; [exact Hit|]. simpl.
    repeat split; [done|done|lia|done|].
    unfold tryOffset. rewrite Hseek.
    rewrite (fwdReach_forward _ _ _ _ _ _ _ Hreach), Hfw. simpl.
    rewrite bool_decide_eq_false_2 by lia. done.
Qed.

(** ** Patterns without a required item *)

(** C10. The seek of the first required item ends inside the pattern
    exactly when the pattern has a required item. For a pattern whose
    items are all optional it indexes past the end: IndexError, at every
    candidate offset, and so for every range that has a candidate. *)
Theorem seek_needs_required_item (symbol : string) (ref : VariantRef)
    (sp : SearchPattern) :
  ((∃ p, p ∈ pattern sp ∧ required p = true) ↔
   ∃ i p, seekRequired (pattern sp) 0 = Ok i ∧ (i < length (pattern sp))%nat ∧
          pattern sp !! i = Some p ∧ required p = true) ∧
  ((∀ p, p ∈ pattern sp → required p = false) ↔
   seekRequired (pattern sp) 0 = Raise IndexError) ∧
  ((∀ p, p ∈ pattern sp → required p = false) →
   (∀ bank startingOffset endingOffset T s,
      tryOffset symbol ref sp bank startingOffset endingOffset T s =
      (Raise IndexError, s)) ∧
   (∀ rg s startingOffset,
      resolveStart (reg s) (r_start rg) = Ok startingOffset →
      startingOffset < r_end rg →
      searchRange symbol ref sp rg s = (Raise IndexError, s))).
Proof.
  assert ((∀ p, p ∈ pattern sp → required p = false) ↔
          seekRequired (pattern sp) 0 = Raise IndexError) as Hall.
  { rewrite seekRequired_Raise, Forall_forall. split; [by auto|by intros [_ ?]]. }
  split; [|split; [done|]].
  - split.
    + intros (p & Hp & Hreq).
      destruct (seekRequired (pattern sp) 0) as [i|e] eqn:Hseek.
      * pose proof (seekRequired_lt _ _ Hseek) as Hlt.
        apply seekRequired_Ok in Hseek as (k & q & -> & Hk & Hq & _).
        by exists k, q.
      * apply seekRequired_Raise in Hseek as [_ Hf].
        rewrite Forall_forall in Hf. specialize (Hf p Hp). congruence.
    + intros (i & p & _ & _ & Hi & Hreq). exists p. split; [|done].
      by eapply list_elem_of_lookup_2.
  - intros Hseek%Hall.
    assert (∀ bank startingOffset endingOffset T s,
              tryOffset symbol ref sp bank startingOffset endingOffset T s =
              (Raise IndexError, s)) as Htry.
    { intros. unfold tryOffset. by rewrite Hseek. }
    split; [done|]. intros rg s start Hstart Hlt.
    unfold searchRange, forOffsets. rewrite Hstart.
    destruct (pyRange start (r_end rg)) as [|T Ts] eqn:Hr.
    + assert (start ∈ pyRange start (r_end rg)) as Hin
        by (apply elem_of_pyRange; lia).
      rewrite Hr in Hin. by apply elem_of_nil in Hin.
    + simpl. by rewrite Htry.
Qed.

(** ** The backward phase *)

Lemma tryOffset_found_entry symbol ref sp bank startingOffset endingOffset T s s' :
  tryOffset symbol ref sp bank startingOffset endingOffset T s = (Ok true, s') →
  ∃ e, reg s' !! symbol = Some e ∧ e_bank e = bank ∧
       e_searchPattern e = Some ref ∧
       (e_offset e = T ∨ startingOffset ≤ e_offset e < T).
Proof.
  intros (o & dw & Ho & ->)%tryOffset_reg. eexists.
  rewrite lookup_insert_eq. split; [done|]. simpl.
  repeat split. destruct Ho as [[-> _]|[Ho _]]; [by left|by right].
Qed.

(** C1, as the code has it. The offset reported for a match at the
    candidate [T] is never before the start of the range: it lies between
    the start, which it can reach, and [T]. At an optional item whose
    opcode matches and whose operand does not, the backward loop stops and
    leaves the registry as it is: the tuple stored last is kept. *)
Theorem backward_stays_in_range (symbol : string) (ref : VariantRef)
    (sp : SearchPattern) (bank startingOffset endingOffset T : Z) (s s' : Mem) :
  startingOffset ≤ T →
  tryOffset symbol ref sp bank startingOffset endingOffset T s = (Ok true, s') →
  (∃ e, reg s' !! symbol = Some e ∧ e_bank e = bank ∧
        startingOffset ≤ e_offset e ≤ T) ∧
  (∀ i off item w opcode operand ext s0,
     off > startingOffset →
     pattern sp !! i = Some item →
     core bank (off - 1) = Ok w →
     disassembleBasic w false = (opcode, operand, ext) →
     inList opcode (desiredOpcodes item) = true →
     desiredOperands item ≠ [] →
     inList operand (desiredOperands item) = false →
     backward symbol ref (pattern sp) bank startingOffset (S i) off s0 =
     (Ok tt, mkMem (reg s0) (Some (opcode, operand)))).
Proof.
  intros HT Htry. split.
  - apply tryOffset_found_entry in Htry as (e & He & Hb & _ & Ho).
    exists e. repeat split; [done|done|lia..].
  - intros i off item w opc opd ext s0 Hoff Hi Hw Hd Hopc Hne Hopd. simpl.
    rewrite bool_decide_eq_true_2 by done. rewrite Hi, Hw, Hd, Hopc, Hopd.
    rewrite bool_decide_eq_false_2; [done|].
    destruct (desiredOperands item); [done|]. simpl. lia.
Qed.

(** ** Ranges that start at a symbol *)

Lemma searchRange_found_entry symbol n sp rg s s' :
  searchRange symbol (symbol, n) sp rg s = (Ok true, s') →
  ∃ start e, resolveStart (reg s) (r_start rg) = Ok start ∧
       reg s' !! symbol = Some e ∧ e_bank e = r_bank rg ∧
       e_searchPattern e = Some (symbol, n) ∧
       start ≤ e_offset e < r_end rg.
Proof.
  intros (start & T & Hs & HT & o & dw & Ho & ->)%searchRange_outcome.
  exists start. eexists. rewrite lookup_insert_eq. split; [done|].
  split; [done|]. simpl. repeat split; destruct Ho as [[-> _]|[Ho _]]; lia.
Qed.

(** C2, as the code has it. For a range whose start names a symbol that
    is in the registry, found or marked as not found, the candidates are
    the offsets from the recorded offset + 1 up to the end of the range.
    For a symbol marked as not found the recorded offset is -1: the
    candidates are those from 0, the range is searched, not skipped. A
    match in the range is reported inside this window. A range without a
    match hands over to the next range of the variant. *)
Theorem symbol_start_window (symbol : string) (n : nat) (sp : SearchPattern)
    (rg : Range) (name : string) (e : Entry) (s : Mem) :
  r_start rg = StartSym name →
  reg s !! name = Some e →
  searchRange symbol (symbol, n) sp rg s =
    forOffsets symbol (symbol, n) sp (r_bank rg) (e_offset e + 1) (r_end rg)
               (pyRange (e_offset e + 1) (r_end rg)) s ∧
  (∀ T, T ∈ pyRange (e_offset e + 1) (r_end rg) ↔ e_offset e + 1 ≤ T < r_end rg) ∧
  (e = notFound name →
   pyRange (e_offset e + 1) (r_end rg) = pyRange 0 (r_end rg)) ∧
  (∀ s', searchRange symbol (symbol, n) sp rg s = (Ok true, s') →
         ∃ e', reg s' !! symbol = Some e' ∧ e_bank e' = r_bank rg ∧
               e_offset e + 1 ≤ e_offset e' < r_end rg) ∧
  (∀ rest s1, searchRange symbol (symbol, n) sp rg s = (Ok false, s1) →
              forRanges symbol (symbol, n) sp (rg :: rest) s =
              forRanges symbol (symbol, n) sp rest s1).
Proof.
  intros Hstart He.
  assert (resolveStart (reg s) (r_start rg) = Ok (e_offset e + 1)) as Hres.
  { rewrite Hstart. simpl. by rewrite He. }
  split; [|split; [|split; [|split]]].
  - unfold searchRange. by rewrite Hres.
  - intros T. apply elem_of_pyRange.
  - by intros ->.
  - intros s' (start & e' & Hs & He' & Hb & _ & Ho)%searchRange_found_entry.
    rewrite Hres in Hs. injection Hs as <-. by exists e'.
  - intros rest s1 Hr. unfold forRanges. simpl. by rewrite Hr.
Qed.

(** ** The first match wins *)

Lemma untilFound_stops {A : Type} (body : A → Mem → Res bool * Mem)
    pre x post s s1 s' :
  untilFound body pre s = (Ok false, s1) → body x s1 = (Ok true, s') →
  untilFound body (pre ++ x :: post) s = (Ok true, s').
Proof. intros Hpre Hx. rewrite untilFound_app, Hpre. simpl. by rewrite Hx. Qed.

Lemma imap_split {A B : Type} (f : nat → A → B) l pre x post :
  imap f l = pre ++ x :: post →
  ∃ lpre y lpost, l = lpre ++ y :: lpost ∧ pre = imap f lpre ∧
                  x = f (length lpre) y.
Proof.
  revert f l. induction pre as [|b pre IH]; intros f l; simpl.
  - destruct l as [|y l]; [done|]. rewrite imap_cons. intros [= <- _].
    by exists [], y, l.
  - destruct l as [|y l]; [done|]. rewrite imap_cons.
    intros [= <- (lpre & z & lpost & -> & -> & ->)%IH].
    by exists (y :: lpre), z, lpost.
Qed.

Lemma forVariants_stops symbol vpre sp vpost s s1 s' :
  forVariants symbol vpre s = (Ok false, s1) →
  searchVariant symbol (length vpre, sp) s1 = (Ok true, s') →
  forVariants symbol (vpre ++ sp :: vpost) s = (Ok true, s').
Proof.
  unfold forVariants. intros Hpre Hsp. rewrite imap_app, imap_cons.
  eapply untilFound_stops; [done|]. by rewrite Nat.add_0_r.
Qed.

Lemma forSymbols_app pre post st :
  forSymbols (pre ++ post) st =
  match forSymbols pre st with
  | (Ok _, st') => forSymbols post st'
  | r => r
  end.
Proof.
  revert st. induction pre as [|k pre IH]; intros st; simpl; [done|].
  destruct (processSymbol k st) as [[[]|e] st1]; auto.
Qed.

Lemma untilFound_decides {A : Type} (body : A → Mem → Res bool * Mem)
    pre x post s s1 :
  untilFound body pre s = (Ok false, s1) → (body x s1).1 ≠ Ok false →
  untilFound body (pre ++ x :: post) s = body x s1.
Proof.
  intros Hpre Hx. rewrite untilFound_app, Hpre. simpl.
  by destruct (body x s1) as [[[]|e] s'].
Qed.

Lemma tryOffset_completes symbol ref sp bank startingOffset endingOffset T s i0 st :
  seekRequired (pattern sp) 0 = Ok i0 →
  forward symbol bank endingOffset (drop i0 (pattern sp))
          (mkFwd T i0 false (-1) (loc s)) = Ok st →
  (length (pattern sp) ≤ iPat st)%nat →
  (tryOffset symbol ref sp bank startingOffset endingOffset T s).1 ≠ Ok false ∧
  Stored symbol ref sp bank startingOffset T (reg s)
         (reg (tryOffset symbol ref sp bank startingOffset endingOffset T s).2).
Proof.
  intros Hseek Hfw Hlen. unfold tryOffset. rewrite Hseek, Hfw.
  rewrite bool_decide_eq_true_2 by done.
  destruct (backward _ _ _ _ _ _ _ _) as [res s3] eqn:Hb.
  assert (Stored symbol ref sp bank startingOffset T (reg s) (reg s3)) as Hst.
  { apply backward_reg in Hb as [->|(o & Ho & ->)]; simpl.
    - exists T, (DWCount (dataWords sp)). split; [by left|done].
    - exists o, (DWPatternOf ref). split; [by right|].
      by rewrite insert_insert_eq. }
  by destruct res as [[]|e].
Qed.

(** C8. The first candidate, in the order of the variants, of their
    ranges and of the offsets of a range, at which the forward phase comes
    to the end of the pattern wins: when the variants, the ranges and the
    offsets before it have given no match, the search of the symbol is the
    attempt at this candidate, whatever offsets, ranges and variants
    follow, so that none of them is tried; it is no failure, and the tuple
    stored is that of this candidate. Conversely, where a symbol is found,
    the match is that of such a first candidate: every candidate before it
    was tried and gave no match and no change of the registry. Once a
    symbol has been processed, the rest of the scan leaves its tuple
    alone. *)
Theorem first_match_wins :
  (∀ symbol vpre sp vpost rpre rg rpost start opre T opost s s1 s2 s3 i0 st,
     let ref := (symbol, length vpre) in
     forVariants symbol vpre s = (Ok false, s1) →
     ranges sp = rpre ++ rg :: rpost →
     forRanges symbol ref sp rpre s1 = (Ok false, s2) →
     resolveStart (reg s2) (r_start rg) = Ok start →
     pyRange start (r_end rg) = opre ++ T :: opost →
     forOffsets symbol ref sp (r_bank rg) start (r_end rg) opre s2 = (Ok false, s3) →
     seekRequired (pattern sp) 0 = Ok i0 →
     forward symbol (r_bank rg) (r_end rg) (drop i0 (pattern sp))
             (mkFwd T i0 false (-1) (loc s3)) = Ok st →
     (length (pattern sp) ≤ iPat st)%nat →
     forVariants symbol (vpre ++ sp :: vpost) s =
       tryOffset symbol ref sp (r_bank rg) start (r_end rg) T s3 ∧
     (tryOffset symbol ref sp (r_bank rg) start (r_end rg) T s3).1 ≠ Ok false ∧
     Stored symbol ref sp (r_bank rg) start T (reg s)
            (reg (tryOffset symbol ref sp (r_bank rg) start (r_end rg) T s3).2)) ∧
  (∀ symbol variants s s',
     forVariants symbol variants s = (Ok true, s') →
     ∃ vpre sp vpost s1 rpre rg rpost s2 start opre T opost s3,
       let ref := (symbol, length vpre) in
       variants = vpre ++ sp :: vpost ∧
       forVariants symbol vpre s = (Ok false, s1) ∧
       ranges sp = rpre ++ rg :: rpost ∧
       forRanges symbol ref sp rpre s1 = (Ok false, s2) ∧
       resolveStart (reg s2) (r_start rg) = Ok start ∧
       pyRange start (r_end rg) = opre ++ T :: opost ∧
       forOffsets symbol ref sp (r_bank rg) start (r_end rg) opre s2 = (Ok false, s3) ∧
       tryOffset symbol ref sp (r_bank rg) start (r_end rg) T s3 = (Ok true, s') ∧
       reg s3 = reg s ∧
       (∀ opost', forOffsets symbol ref sp (r_bank rg) start (r_end rg)
                    (opre ++ T :: opost') s2 = (Ok true, s')) ∧
       (∀ rpost', forRanges symbol ref sp (rpre ++ rg :: rpost') s1 = (Ok true, s')) ∧
       (∀ vpost', forVariants symbol (vpre ++ sp :: vpost') s = (Ok true, s'))) ∧
  (∀ searchPatterns registry pre symbol post st1 st2 res st,
     NoDup (map fst searchPatterns) →
     map fst searchPatterns = pre ++ symbol :: post →
     forSymbols pre (mkState (mkMem registry None) searchPatterns) = (Ok tt, st1) →
     processSymbol symbol st1 = (Ok tt, st2) →
     searchSpecial searchPatterns registry = (res, st) →
     reg (mem st) !! symbol = reg (mem st2) !! symbol).
Proof.
  split; [|split].
  - intros symbol vpre sp vpost rpre rg rpost start opre T opost s s1 s2 s3 i0 st ref
           Hvpre Hranges Hrpre Hstart Hcand Hopre Hseek Hfw Hlen.
    destruct (tryOffset_completes symbol ref sp (r_bank rg) start (r_end rg) T s3 i0 st
                Hseek Hfw Hlen) as [Hne Hst].
    assert (reg s3 = reg s) as Hreg.
    { apply forVariants_outcome in Hvpre.
      apply (untilFound_outcome _
               (λ rg, FoundIn symbol (length vpre, sp) rg)) in Hrpre;
        [|intros; by eapply searchRange_outcome].
      apply (untilFound_outcome _
               (λ T, Stored symbol (symbol, length vpre) sp (r_bank rg) start T))
        in Hopre.
      - simpl in *. congruence.
      - intros T' sa ra sb _ Htry. apply tryOffset_reg in Htry.
        by destruct ra as [[]|]. }
    split; [|split; [exact Hne|by rewrite <- Hreg]].
    assert (searchRange symbol ref sp rg s2 =
            tryOffset symbol ref sp (r_bank rg) start (r_end rg) T s3) as Hrange.
    { unfold searchRange. rewrite Hstart, Hcand. unfold forOffsets.
      by apply untilFound_decides. }
    assert (searchVariant symbol (length vpre, sp) s1 =
            tryOffset symbol ref sp (r_bank rg) start (r_end rg) T s3) as Hvar.
    { unfold searchVariant, forRanges. simpl. rewrite Hranges, <- Hrange.
      apply untilFound_decides; [exact Hrpre|]. by rewrite Hrange. }
    unfold forVariants. rewrite imap_app, imap_cons, Nat.add_0_r, <- Hvar.
    apply untilFound_decides; [exact Hvpre|]. by rewrite Hvar.
  - intros symbol variants s s' Hrun. unfold forVariants in Hrun.
    apply untilFound_found in Hrun as (pre & x & post & s1 & Hsplit & Hpre & Hx).
    apply imap_split in Hsplit as (vpre & sp & vpost & -> & -> & ->).
    pose proof Hx as Hvar.
    unfold searchVariant, forRanges in Hx. simpl in Hx.
    apply untilFound_found in Hx as (rpre & rg & rpost & s2 & Hranges & Hrpre & Hrg).
    pose proof Hrg as Hrange.
    unfold searchRange in Hrg.
    destruct (resolveStart (reg s2) (r_start rg)) as [start|e] eqn:Hstart; [|done].
    pose proof Hrg as Hoffs.
    unfold forOffsets in Hrg.
    apply untilFound_found in Hrg as (opre & T & opost & s3 & Hcand & Hopre & HT).
    exists vpre, sp, vpost, s1, rpre, rg, rpost, s2, start, opre, T, opost, s3.
    simpl. repeat split; try done.
    + apply forVariants_outcome in Hpre.
      apply (untilFound_outcome _
               (λ rg, FoundIn symbol (length vpre, sp) rg)) in Hrpre;
        [|intros; by eapply searchRange_outcome].
      apply (untilFound_outcome _
               (λ T, Stored symbol (symbol, length vpre) sp (r_bank rg) start T))
        in Hopre.
      * simpl in *. congruence.
      * intros T' sa ra sb _ Htry. apply tryOffset_reg in Htry.
        by destruct ra as [[]|].
    + intros opost'. by eapply untilFound_stops.
    + intros rpost'. by eapply untilFound_stops.
    + intros vpost'. by eapply forVariants_stops.
  - intros c r pre symbol post st1 st2 res st Hnd Hkeys Hpre Hsym Hrun.
    unfold searchSpecial in Hrun. rewrite Hkeys, forSymbols_app, Hpre in Hrun.
    simpl in Hrun. rewrite Hsym in Hrun.
    rewrite Hkeys in Hnd. apply NoDup_app in Hnd as (_ & _ & Hnd).
    apply NoDup_cons in Hnd as [Hnotin _].
    by eapply forSymbols_frame.
Qed.

(** ** The rewriting of the placeholders *)

Lemma specReplace_absent symbol lit ops :
  symbol ∉ ops → specReplace symbol lit ops = ops.
Proof.
  induction ops as [|o ops IH]; simpl; [done|].
  intros [Ho Hops]%not_elem_of_cons.
  rewrite bool_decide_eq_false_2 by done. by rewrite IH.
Qed.

(** On a list without repeated entries, replacing the first entry equal
    to the symbol replaces every such entry. *)
Lemma replaceFirst_NoDup symbol lit ops :
  NoDup ops → replaceFirst symbol lit ops = specReplace symbol lit ops.
Proof.
  induction 1 as [|o ops Hnotin Hnd IH]; simpl; [done|].
  case_bool_decide as Ho; [|by rewrite IH].
  subst o. by rewrite specReplace_absent.
Qed.

Lemma rewriteItem_NoDup symbol lit p :
  NoDup (desiredOperands p) → rewriteItem symbol lit p = specRewriteItem symbol lit p.
Proof.
  intros Hnd. unfold rewriteItem, specRewriteItem, inList.
  case_bool_decide as Hin; [by rewrite replaceFirst_NoDup|].
  rewrite specReplace_absent by done. by destruct p.
Qed.

Lemma rewriteCatalog_NoDup symbol lit c :
  operandsAreSets c = true →
  rewriteCatalog symbol lit c = specRewriteCatalog symbol lit c.
Proof.
  unfold operandsAreSets. rewrite forallb_forall. intros Hnd.
  unfold rewriteCatalog, specRewriteCatalog.
  apply map_ext_in. intros [k vs] Hkv. simpl. f_equal.
  apply Hnd in Hkv. simpl in Hkv. rewrite forallb_forall in Hkv.
  apply map_ext_in. intros sp Hsp.
  unfold rewriteVariant, specRewriteVariant. f_equal.
  apply Hkv in Hsp. rewrite forallb_forall in Hsp.
  apply map_ext_in. intros p Hp.
  apply rewriteItem_NoDup. by apply Hsp, bool_decide_eq_true_1 in Hp.
Qed.

(** The catalog after [symbol] was processed, by what was stored. *)
Lemma processSymbol_cat symbol st st' :
  processSymbol symbol st = (Ok tt, st') →
  ∃ e, reg (mem st') !! symbol = Some e ∧
       cat st' =
       if bool_decide (e_searchPattern e ≠ None) && bool_decide (e_fixedFixed e ≠ -1)
       then rewriteCatalog symbol (format04o (e_fixedFixed e)) (cat st)
       else cat st.
Proof.
  unfold processSymbol.
  destruct (catLookup (cat st) symbol) as [variants|]; [|done].
  destruct (forVariants _ _ _) as [[found|e] s1] eqn:Hv; [|done].
  apply forVariants_outcome in Hv. unfold rewriteAfter.
  destruct found; simpl in Hv.
  - destruct Hv as (nsp & rg & _ & _ & start & T & _ & _ & o & dw & _ & Hr).
    rewrite Hr, lookup_insert_eq.
    case_bool_decide as Hff; intros [= <-]; simpl;
      eexists; rewrite Hr, lookup_insert_eq; (split; [reflexivity|]); simpl.
    + simpl in Hff. rewrite bool_decide_eq_true_2 by done. done.
    + simpl in Hff. rewrite bool_decide_eq_false_2 by naive_solver. done.
  - intros [= <-]. simpl. exists (notFound symbol). rewrite Hv, lookup_insert_eq.
    split; [done|]. done.
Qed.

(** ** Two scans of the same catalog *)

Lemma memRel_store E symbol e s1 s2 :
  memRel E s1 s2 → memRel E (store symbol e s1) (store symbol e s2).
Proof.
  intros [Hl Hr]. split; [done|]. intros k Hk. simpl.
  destruct (decide (symbol = k)) as [->|Hne].
  - by rewrite !lookup_insert_eq.
  - rewrite !lookup_insert_ne by done. by apply Hr.
Qed.

Lemma memRel_store_new (E : string → Prop) symbol e s1 s2 :
  memRel E s1 s2 →
  memRel (λ k, E k ∨ k = symbol) (store symbol e s1) (store symbol e s2).
Proof.
  intros [Hl Hr]. split; [done|]. intros k Hk. simpl.
  destruct (decide (symbol = k)) as [->|Hne].
  - by rewrite !lookup_insert_eq.
  - rewrite !lookup_insert_ne by done. destruct Hk as [Hk| ->]; [by apply Hr|done].
Qed.

Lemma memRel_weaken (E E' : string → Prop) s1 s2 :
  (∀ k, E k → E' k) → memRel E' s1 s2 → memRel E s1 s2.
Proof. intros HE [Hl Hr]. split; [done|]. intros k Hk. apply Hr. by apply HE. Qed.

Lemma memRel_loc E r1 r2 l :
  (∀ k, E k → r1 !! k = r2 !! k) → memRel E (mkMem r1 l) (mkMem r2 l).
Proof. by split. Qed.

Lemma backward_rel E symbol ref pat bank startingOffset i off s1 s2 r1 r2 s1' s2' :
  memRel E s1 s2 →
  backward symbol ref pat bank startingOffset i off s1 = (r1, s1') →
  backward symbol ref pat bank startingOffset i off s2 = (r2, s2') →
  r1 = r2 ∧ memRel E s1' s2'.
Proof.
  revert off s1 s2. induction i as [|i IH]; intros off s1 s2 Hrel; simpl.
  - by intros [= <- <-] [= <- <-].
  - case_bool_decide; [|by intros [= <- <-] [= <- <-]].
    destruct (pat !! i) as [item|]; [|by intros [= <- <-] [= <- <-]].
    destruct (core bank (off - 1)) as [w|e]; [|by intros [= <- <-] [= <- <-]].
    destruct (disassembleBasic w false) as [[opc opd] ext].
    assert (memRel E (mkMem (reg s1) (Some (opc, opd)))
                     (mkMem (reg s2) (Some (opc, opd)))) as Hrel1.
    { apply memRel_loc, Hrel. }
    destruct (inList opc (desiredOpcodes item)).
    + destruct (_ || _).
      * apply IH. by apply memRel_store.
      * by intros [= <- <-] [= <- <-].
    + by apply IH.
Qed.

Lemma tryOffset_rel E symbol ref sp bank startingOffset endingOffset T
    s1 s2 r1 r2 s1' s2' :
  memRel E s1 s2 →
  tryOffset symbol ref sp bank startingOffset endingOffset T s1 = (r1, s1') →
  tryOffset symbol ref sp bank startingOffset endingOffset T s2 = (r2, s2') →
  r1 = r2 ∧ memRel E s1' s2'.
Proof.
  intros Hrel. unfold tryOffset. destruct Hrel as [Hl Hr]. rewrite <- Hl.
  destruct (seekRequired (pattern sp) 0) as [i0|e];
    [|by intros [= <- <-] [= <- <-]].
  destruct (forward _ _ _ _ _) as [st|e]; [|by intros [= <- <-] [= <- <-]].
  case_bool_decide; [|by intros [= <- <-] [= <- <-]].
  destruct (backward _ _ _ _ _ _ _ (store _ _ {| reg := reg s1 |}))
    as [rb1 sb1] eqn:Hb1.
  destruct (backward _ _ _ _ _ _ _ (store _ _ {| reg := reg s2 |}))
    as [rb2 sb2] eqn:Hb2.
  destruct (backward_rel E _ _ _ _ _ _ _ _ _ _ _ _ _
              (memRel_store E _ _ _ _ (memRel_loc E _ _ (decoded st) Hr)) Hb1 Hb2)
    as [<- Hrel'].
  destruct rb1 as [[]|e]; by intros [= <- <-] [= <- <-].
Qed.

Lemma untilFound_rel {A : Type} (body : A → Mem → Res bool * Mem)
    (R : Mem → Mem → Prop) xs s1 s2 r1 r2 s1' s2' :
  (∀ x sa sb ra rb sa' sb', x ∈ xs → R sa sb →
     body x sa = (ra, sa') → body x sb = (rb, sb') → ra = rb ∧ R sa' sb') →
  R s1 s2 →
  untilFound body xs s1 = (r1, s1') → untilFound body xs s2 = (r2, s2') →
  r1 = r2 ∧ R s1' s2'.
Proof.
  revert s1 s2. induction xs as [|x xs IH]; intros s1 s2 Hbody HR; simpl.
  - by intros [= <- <-] [= <- <-].
  - destruct (body x s1) as [ra sa] eqn:Ha. destruct (body x s2) as [rb sb] eqn:Hb.
    destruct (Hbody x _ _ _ _ _ _ ltac:(left) HR Ha Hb) as [<- HR'].
    destruct ra as [[]|e]; [by intros [= <- <-] [= <- <-]| |by intros [= <- <-] [= <- <-]].
    apply IH; [|done]. intros y ? ? ? ? ? ? Hy. apply Hbody. by right.
Qed.

Lemma searchRange_rel (E : string → Prop) known symbol ref sp rg s1 s2 r1 r2 s1' s2' :
  (∀ k, k ∈ known → E k) → startKnown known rg = true →
  memRel E s1 s2 →
  searchRange symbol ref sp rg s1 = (r1, s1') →
  searchRange symbol ref sp rg s2 = (r2, s2') →
  r1 = r2 ∧ memRel E s1' s2'.
Proof.
  intros Hknown Hrg Hrel. unfold searchRange.
  assert (resolveStart (reg s1) (r_start rg) = resolveStart (reg s2) (r_start rg))
    as <-.
  { unfold startKnown in Hrg. destruct (r_start rg) as [z|name]; [done|]. simpl.
    unfold inList in Hrg. apply bool_decide_eq_true_1 in Hrg.
    destruct Hrel as [_ Hr]. by rewrite (Hr name) by auto. }
  destruct (resolveStart (reg s1) (r_start rg)) as [start|e];
    [|by intros [= <- <-] [= <- <-]].
  unfold forOffsets. apply untilFound_rel; [|done].
  intros T sa sb ra rb sa' sb' _. apply tryOffset_rel.
Qed.

Lemma forVariants_rel (E : string → Prop) known symbol variants s1 s2 r1 r2 s1' s2' :
  (∀ k, k ∈ known → E k) → startsKnown known variants = true →
  memRel E s1 s2 →
  forVariants symbol variants s1 = (r1, s1') →
  forVariants symbol variants s2 = (r2, s2') →
  r1 = r2 ∧ memRel E s1' s2'.
Proof.
  intros Hknown Hvs Hrel. unfold forVariants. apply untilFound_rel; [|done].
  intros [n sp] sa sb ra rb sa' sb' Hin Hab.
  apply elem_of_lookup_imap in Hin as (i & x & [= -> ->] & Hi).
  unfold searchVariant, forRanges. simpl. apply untilFound_rel; [|done].
  intros rg ? ? ? ? ? ? Hrg. eapply searchRange_rel; [done|].
  unfold startsKnown in Hvs. rewrite forallb_forall in Hvs.
  apply list_elem_of_lookup_2, list_elem_of_In, Hvs in Hi.
  rewrite forallb_forall in Hi. by apply Hi, list_elem_of_In.
Qed.

Lemma catLookup_rewrite symbol lit c k :
  catLookup (rewriteCatalog symbol lit c) k =
  map (rewriteVariant symbol lit) <$> catLookup c k.
Proof.
  induction c as [|[k' vs] c IH]; simpl; [done|].
  by case_bool_decide.
Qed.

Lemma startsKnown_rewrite known symbol lit variants :
  startsKnown known (map (rewriteVariant symbol lit) variants) =
  startsKnown known variants.
Proof.
  unfold startsKnown. induction variants as [|sp vs IH]; simpl; [done|].
  by rewrite IH.
Qed.

Lemma refsBackward_rewrite known symbols symbol lit c :
  refsBackward known symbols (rewriteCatalog symbol lit c) =
  refsBackward known symbols c.
Proof.
  revert known. induction symbols as [|k rest IH]; intros known; simpl; [done|].
  rewrite IH, catLookup_rewrite.
  destruct (catLookup c k) as [vs|]; simpl; [|done].
  by rewrite startsKnown_rewrite.
Qed.

Lemma processSymbol_rel (E : string → Prop) known symbol st1 st2 r1 r2 st1' st2' :
  (∀ k, k ∈ known → E k) →
  match catLookup (cat st1) symbol with
  | Some variants => startsKnown (symbol :: known) variants = true
  | None => True
  end →
  cat st1 = cat st2 →
  memRel E (mem st1) (mem st2) →
  processSymbol symbol st1 = (r1, st1') →
  processSymbol symbol st2 = (r2, st2') →
  r1 = r2 ∧ cat st1' = cat st2' ∧
  memRel (λ k, E k ∨ k = symbol) (mem st1') (mem st2') ∧
  (cat st1' = cat st1 ∨ ∃ lit, cat st1' = rewriteCatalog symbol lit (cat st1)).
Proof.
  intros Hknown Hstarts Hcat Hrel. unfold processSymbol. rewrite <- Hcat.
  pose proof (memRel_store_new E symbol (notFound symbol) _ _ Hrel) as Hrel0.
  destruct (catLookup (cat st1) symbol) as [variants|];
    [|intros [= <- <-] [= <- <-]; simpl; auto].
  destruct (forVariants symbol variants (store _ _ (mem st1))) as [ra sa] eqn:Ha.
  destruct (forVariants symbol variants (store _ _ (mem st2))) as [rb sb] eqn:Hb.
  assert (∀ k, k ∈ symbol :: known → E k ∨ k = symbol) as Hknown'.
  { intros k [->|Hk]%elem_of_cons; [by right|left; by apply Hknown]. }
  destruct (forVariants_rel _ _ _ _ _ _ _ _ _ _ Hknown' Hstarts Hrel0 Ha Hb)
    as [<- Hrel1].
  destruct ra as [found|e]; [|intros [= <- <-] [= <- <-]; simpl; auto].
  unfold rewriteAfter.
  assert (reg sa !! symbol = reg sb !! symbol) as <-
    by (destruct Hrel1 as [_ Hr]; apply Hr; by right).
  destruct found; [|intros [= <- <-] [= <- <-]; simpl; auto].
  destruct (reg sa !! symbol) as [e|]; [|intros [= <- <-] [= <- <-]; simpl; auto].
  case_bool_decide; intros [= <- <-] [= <- <-]; simpl; eauto 10.
Qed.

Lemma forSymbols_rel (E : string → Prop) known symbols st1 st2 r1 r2 st1' st2' :
  (∀ k, k ∈ known → E k) →
  refsBackward known symbols (cat st1) = true →
  cat st1 = cat st2 →
  memRel E (mem st1) (mem st2) →
  forSymbols symbols st1 = (r1, st1') →
  forSymbols symbols st2 = (r2, st2') →
  r1 = r2 ∧ cat st1' = cat st2' ∧ memRel E (mem st1') (mem st2') ∧
  (r1 = Ok tt → ∀ k, k ∈ symbols → reg (mem st1') !! k = reg (mem st2') !! k).
Proof.
  revert E known st1 st2.
  induction symbols as [|symbol rest IH]; intros E known st1 st2 Hknown Hrefs Hcat Hrel;
    simpl.
  - intros [= <- <-] [= <- <-]. split; [done|]. split; [done|]. split; [done|].
    intros _ k Hk. by apply elem_of_nil in Hk.
  - simpl in Hrefs. apply andb_true_iff in Hrefs as [Hhere Hrest].
    destruct (processSymbol symbol st1) as [ra sa] eqn:Ha.
    destruct (processSymbol symbol st2) as [rb sb] eqn:Hb.
    assert (match catLookup (cat st1) symbol with
            | Some variants => startsKnown (symbol :: known) variants = true
            | None => True
            end) as Hhere' by (by destruct (catLookup (cat st1) symbol)).
    destruct (processSymbol_rel _ _ _ _ _ _ _ _ _ Hknown Hhere' Hcat Hrel Ha Hb)
      as (<- & Hcat' & Hrel' & Hshape).
    assert (memRel E (mem sa) (mem sb)) as HrelE
      by (apply (memRel_weaken E (λ k, E k ∨ k = symbol)); [by left|done]).
    destruct ra as [[]|e]; [|by intros [= <- <-] [= <- <-]].
    intros H1 H2.
    assert (∀ k, k ∈ symbol :: known → E k ∨ k = symbol) as Hknown'.
    { intros k [->|Hk]%elem_of_cons; [by right|left; by apply Hknown]. }
    assert (refsBackward (symbol :: known) rest (cat sa) = true) as Hrest'.
    { destruct Hshape as [->|[lit ->]]; [done|]. by rewrite refsBackward_rewrite. }
    destruct (IH _ _ _ _ Hknown' Hrest' Hcat' Hrel' H1 H2) as (Hr & Hc & Hm & Hkeys).
    split; [done|]. split; [done|].
    split; [apply (memRel_weaken E (λ k, E k ∨ k = symbol)); [by left|done]|].
    intros Hok k [->|Hk]%elem_of_cons; [|by apply Hkeys].
    destruct Hm as [_ Hm]. apply Hm. by right.
Qed.

(** C6, as the code has it. The registry [specialSubroutines] is a
    module-level dictionary that a scan receives with what earlier scans
    left in it, and the tuples of symbols that are not in the catalog stay
    in it. What a scan leaves for the symbols of its catalog does not
    depend on it when every range that starts at a symbol starts at a
    symbol processed before, or at the symbol itself: then two scans of
    the same catalog and address space, from any two registries, end the
    same way, with the same catalog and the same tuple under every symbol
    of the catalog. *)
Theorem scan_independent_of_registry (searchPatterns : Catalog)
    (registry1 registry2 : Registry) :
  refsBackward [] (map fst searchPatterns) searchPatterns = true →
  let run1 := searchSpecial searchPatterns registry1 in
  let run2 := searchSpecial searchPatterns registry2 in
  run1.1 = run2.1 ∧ cat run1.2 = cat run2.2 ∧
  (run1.1 = Ok tt → ∀ k, k ∈ map fst searchPatterns →
                      reg (mem run1.2) !! k = reg (mem run2.2) !! k) ∧
  (∀ k, registry1 !! k = registry2 !! k →
        reg (mem run1.2) !! k = reg (mem run2.2) !! k) ∧
  (∀ k, k ∉ map fst searchPatterns → reg (mem run1.2) !! k = registry1 !! k).
Proof.
  intros Hrefs run1 run2.
  destruct run1 as [r1 st1] eqn:H1. destruct run2 as [r2 st2] eqn:H2.
  subst run1 run2. unfold searchSpecial in H1, H2.
  assert (∀ k : string, k ∈ @nil string → registry1 !! k = registry2 !! k) as Hnil.
  { intros k Hk. by apply elem_of_nil in Hk. }
  assert (memRel (λ k, registry1 !! k = registry2 !! k)
                 (mkMem registry1 None) (mkMem registry2 None)) as Hrel by (by split).
  destruct (forSymbols_rel _ [] (map fst searchPatterns)
              (mkState (mkMem registry1 None) searchPatterns)
              (mkState (mkMem registry2 None) searchPatterns)
              _ _ _ _ Hnil Hrefs eq_refl Hrel H1 H2)
    as (Hr & Hc & Hm & Hkeys).
  simpl. split; [done|]. split; [done|]. split; [done|]. split; [apply Hm|].
  intros k Hk. by rewrite (forSymbols_frame _ _ _ _ _ H1 Hk).
Qed.

(** ** Scans that raise nothing *)

Lemma emptyOrIn_bound l v : ∃ b, emptyOrIn l (Some v) = Ok b.
Proof. unfold emptyOrIn. case_bool_decide; eauto. Qed.

Lemma compatible_bound item opc opd : ∃ b, compatible item (Some (opc, opd)) = Ok b.
Proof.
  unfold compatible. simpl.
  destruct (emptyOrIn_bound (desiredOpcodes item) opc) as [[] ->]; simpl; [|eauto].
  apply emptyOrIn_bound.
Qed.

Lemma fwdIter_total symbol bank endingOffset item st :
  coreCovers bank endingOffset →
  0 ≤ offset st < endingOffset →
  is_Some (decoded st) ∨ offset st ≠ lastOffset st →
  ∃ st', (fwdIter symbol bank item st = Ok (Next st') ∨
          fwdIter symbol bank item st = Ok (Stop st')) ∧
         is_Some (decoded st') ∧ 0 ≤ offset st'.
Proof.
  intros Hcore Hoff Hguard. unfold fwdIter.
  assert (∃ st1, fetch bank st = Ok st1 ∧ is_Some (decoded st1) ∧
                 offset st1 = offset st) as (st1 & -> & [[opc opd] Hd] & Ho).
  { unfold fetch. case_bool_decide as Hne.
    - destruct (Hcore _ Hoff) as [w ->]. simpl.
      destruct (disassembleBasic w (extended st)) as [[opc opd] ext].
      eexists. split; [done|]. simpl. eauto.
    - exists st. destruct Hguard as [?|?]; [done|]. by destruct Hne. }
  simpl. rewrite Hd.
  assert (debugPrint symbol (Some (opc, opd)) = Ok tt) as ->
    by (unfold debugPrint; by case_bool_decide).
  simpl. destruct (compatible_bound item opc opd) as [b ->]. simpl.
  destruct b; [|destruct (required item)]; eexists; (split; [eauto|]);
    simpl; (split; [eauto|lia]).
Qed.

Lemma forward_total symbol bank endingOffset items st :
  coreCovers bank endingOffset →
  0 ≤ offset st →
  is_Some (decoded st) ∨ offset st ≠ lastOffset st →
  ∃ st', forward symbol bank endingOffset items st = Ok st'.
Proof.
  intros Hcore. revert st. induction items as [|item rest IH]; intros st Hoff Hguard;
    simpl; [eauto|].
  case_bool_decide as Hlt; [|eauto].
  destruct (fwdIter_total symbol bank endingOffset item st Hcore)
    as (st' & [-> | ->] & Hd & Ho); [lia|done| |eauto].
  apply IH; [done|by left].
Qed.

Lemma backward_total symbol ref pat bank startingOffset endingOffset i off s :
  coreCovers bank endingOffset →
  0 ≤ startingOffset → off ≤ endingOffset → (i ≤ length pat)%nat →
  ∃ s', backward symbol ref pat bank startingOffset i off s = (Ok tt, s').
Proof.
  intros Hcore Hstart. revert off s.
  induction i as [|i IH]; intros off s Hoff Hi; simpl; [eauto|].
  case_bool_decide as Hgt; [|eauto].
  destruct (lookup_lt_is_Some_2 pat i) as [item ->]; [lia|].
  destruct (Hcore (off - 1)) as [w ->]; [lia|].
  destruct (disassembleBasic w false) as [[opc opd] ext].
  destruct (inList opc (desiredOpcodes item)).
  - destruct (_ || _); [|eauto]. apply IH; lia.
  - apply IH; lia.
Qed.

Lemma tryOffset_total symbol ref sp bank startingOffset endingOffset T s :
  existsb required (pattern sp) = true →
  coreCovers bank endingOffset →
  0 ≤ startingOffset ≤ T → T < endingOffset →
  ∃ b s', tryOffset symbol ref sp bank startingOffset endingOffset T s = (Ok b, s').
Proof.
  intros Hreq Hcore HT Hend. unfold tryOffset.
  destruct (seekRequired (pattern sp) 0) as [i0|e] eqn:Hseek.
  2:{ apply seekRequired_Raise in Hseek as [_ Hall].
      apply existsb_exists in Hreq as (p & Hp%list_elem_of_In & Hreq).
      rewrite Forall_forall in Hall. specialize (Hall p Hp). congruence. }
  destruct (forward_total symbol bank endingOffset (drop i0 (pattern sp))
              (mkFwd T i0 false (-1) (loc s)) Hcore) as [st ->]; simpl; [lia|right; lia|].
  case_bool_decide; [|eauto].
  destruct (backward_total symbol ref (pattern sp) bank startingOffset endingOffset
              i0 T (store symbol
                      (mkEntry bank T (fixedFixedOf bank T) (Some ref) symbol
                               (DWCount (dataWords sp)))
                      (mkMem (reg s) (decoded st))) Hcore) as [s3 ->];
    [lia|lia|by apply Nat.lt_le_incl, seekRequired_lt|eauto].
Qed.

Lemma regOK_insert known symbol e r s s' :
  regOK known s → reg s = r → -1 ≤ e_offset e → reg s' = <[symbol := e]> r →
  regOK known s'.
Proof.
  intros [Hk Ho] <- He Hr. split.
  - intros name Hname. rewrite Hr.
    destruct (decide (symbol = name)) as [->|Hne].
    + rewrite lookup_insert_eq. eauto.
    + rewrite lookup_insert_ne by done. by apply Hk.
  - intros k e'. rewrite Hr.
    destruct (decide (symbol = k)) as [->|Hne].
    + rewrite lookup_insert_eq. by intros [= <-].
    + rewrite lookup_insert_ne by done. apply Ho.
Qed.

Lemma regOK_same known s s' : regOK known s → reg s' = reg s → regOK known s'.
Proof. intros [Hk Ho] Hr. split; rewrite Hr; done. Qed.

Lemma tryOffset_regOK known symbol ref sp bank startingOffset endingOffset T s res s' :
  0 ≤ startingOffset ≤ T → regOK known s →
  tryOffset symbol ref sp bank startingOffset endingOffset T s = (res, s') →
  regOK known s'.
Proof.
  intros HT Hok Htry. apply tryOffset_reg in Htry.
  assert (Stored symbol ref sp bank startingOffset T (reg s) (reg s') →
          regOK known s') as HS.
  { intros (o & dw & Ho & Hr). eapply regOK_insert; [done|done| |done].
    simpl. destruct Ho as [[-> _]|[Ho _]]; lia. }
  destruct res as [[]|e]; [by apply HS|by eapply regOK_same|].
  destruct Htry; [by eapply regOK_same|by apply HS].
Qed.

Lemma untilFound_total {A : Type} (body : A → Mem → Res bool * Mem)
    (P : Mem → Prop) xs s :
  (∀ x s1, x ∈ xs → P s1 → ∃ b s2, body x s1 = (Ok b, s2) ∧ P s2) →
  P s → ∃ b s', untilFound body xs s = (Ok b, s') ∧ P s'.
Proof.
  revert s. induction xs as [|x xs IH]; intros s Hbody Hs; simpl; [eauto|].
  destruct (Hbody x s) as (b & s1 & -> & Hs1); [left|done|].
  destruct b; [eauto|]. apply IH; [|done].
  intros y ? Hy. apply Hbody. by right.
Qed.

Lemma searchRange_total known symbol ref sp rg s :
  existsb required (pattern sp) = true →
  rangeOK known rg = true →
  coreCovers (r_bank rg) (r_end rg) →
  regOK known s →
  ∃ b s', searchRange symbol ref sp rg s = (Ok b, s') ∧ regOK known s'.
Proof.
  intros Hreq Hrg Hcore Hok. unfold searchRange.
  assert (∃ start, resolveStart (reg s) (r_start rg) = Ok start ∧ 0 ≤ start)
    as (start & -> & Hstart).
  { unfold rangeOK in Hrg. destruct (r_start rg) as [z|name]; simpl.
    - apply bool_decide_eq_true_1 in Hrg. eauto.
    - apply bool_decide_eq_true_1 in Hrg. destruct Hok as [Hk Ho].
      destruct (Hk name Hrg) as [e He]. rewrite He.
      eexists. split; [done|]. apply Ho in He. lia. }
  unfold forOffsets. apply untilFound_total; [|done].
  intros T s1 HT%elem_of_pyRange Hs1.
  destruct (tryOffset_total symbol ref sp (r_bank rg) start (r_end rg) T s1)
    as (b & s2 & Htry); [done|done|lia|lia|].
  exists b, s2. split; [done|]. eapply tryOffset_regOK; [|done|done]. lia.
Qed.

Lemma forVariants_total known symbol variants s :
  forallb (variantOK known) variants = true →
  (∀ sp rg, sp ∈ variants → rg ∈ ranges sp → coreCovers (r_bank rg) (r_end rg)) →
  regOK known s →
  ∃ b s', forVariants symbol variants s = (Ok b, s') ∧ regOK known s'.
Proof.
  intros Hvs Hcore Hok. unfold forVariants. apply untilFound_total; [|done].
  intros [n sp] s1 Hin Hs1.
  apply elem_of_lookup_imap in Hin as (i & x & [= -> ->] & Hi).
  apply list_elem_of_lookup_2 in Hi.
  rewrite forallb_forall in Hvs.
  pose proof (Hvs x ltac:(by apply list_elem_of_In)) as Hx.
  unfold variantOK in Hx. apply andb_true_iff in Hx as [Hreq Hrgs].
  rewrite forallb_forall in Hrgs.
  unfold searchVariant, forRanges. simpl. apply untilFound_total; [|done].
  intros rg s2 Hrg Hs2. eapply searchRange_total; [done| |by eapply Hcore|done].
  by apply Hrgs, list_elem_of_In.
Qed.

Lemma catLookup_elem c k variants :
  catLookup c k = Some variants → (k, variants) ∈ c.
Proof.
  induction c as [|[k' vs] c IH]; simpl; [done|].
  case_bool_decide as Hk.
  - intros [= <-]. subst. left.
  - intros Hc. right. by apply IH.
Qed.

Lemma allRanges_elem c k variants sp rg :
  (k, variants) ∈ c → sp ∈ variants → rg ∈ ranges sp → rg ∈ allRanges c.
Proof.
  intros Hkv Hsp Hrg. unfold allRanges.
  apply list_elem_of_In, in_flat_map. exists (k, variants).
  split; [by apply list_elem_of_In|]. simpl.
  apply in_flat_map. exists sp. split; by apply list_elem_of_In.
Qed.

Lemma allRanges_rewrite symbol lit c :
  allRanges (rewriteCatalog symbol lit c) = allRanges c.
Proof.
  unfold allRanges, rewriteCatalog.
  induction c as [|[k vs] c IH]; simpl; [done|]. rewrite IH. f_equal.
  clear IH. induction vs as [|sp vs IH]; simpl; [done|]. by rewrite IH.
Qed.

Lemma variantOK_rewrite known symbol lit sp :
  variantOK known (rewriteVariant symbol lit sp) = variantOK known sp.
Proof.
  unfold variantOK. simpl. f_equal.
  induction (pattern sp) as [|p ps IH]; simpl; [done|]. rewrite IH. f_equal.
  unfold rewriteItem. by destruct (inList _ _).
Qed.

Lemma scannable_rewrite known symbols symbol lit c :
  scannable known symbols (rewriteCatalog symbol lit c) = scannable known symbols c.
Proof.
  revert known. induction symbols as [|k rest IH]; intros known; simpl; [done|].
  rewrite IH, catLookup_rewrite.
  destruct (catLookup c k) as [vs|]; simpl; [|done]. f_equal.
  induction vs as [|sp vs IHvs]; simpl; [done|].
  by rewrite IHvs, variantOK_rewrite.
Qed.

Lemma processSymbol_total known symbol variants st :
  catLookup (cat st) symbol = Some variants →
  forallb (variantOK (symbol :: known)) variants = true →
  (∀ rg, rg ∈ allRanges (cat st) → coreCovers (r_bank rg) (r_end rg)) →
  regOK known (mem st) →
  ∃ st', processSymbol symbol st = (Ok tt, st') ∧
         regOK (symbol :: known) (mem st') ∧
         (cat st' = cat st ∨ ∃ lit, cat st' = rewriteCatalog symbol lit (cat st)).
Proof.
  intros Hlook Hvs Hcore Hok. unfold processSymbol. rewrite Hlook.
  assert (regOK (symbol :: known) (store symbol (notFound symbol) (mem st))) as Hok0.
  { destruct Hok as [Hk Ho]. split; simpl.
    - intros name [->|Hn]%elem_of_cons.
      + rewrite lookup_insert_eq. eauto.
      + destruct (decide (symbol = name)) as [->|Hne].
        * rewrite lookup_insert_eq. eauto.
        * rewrite lookup_insert_ne by done. by apply Hk.
    - intros k e. destruct (decide (symbol = k)) as [->|Hne].
      + rewrite lookup_insert_eq. intros [= <-]. simpl. lia.
      + rewrite lookup_insert_ne by done. apply Ho. }
  assert (∀ sp rg, sp ∈ variants → rg ∈ ranges sp →
                   coreCovers (r_bank rg) (r_end rg)) as Hcore'.
  { intros sp rg Hsp Hrg. apply Hcore.
    eapply allRanges_elem; [by apply catLookup_elem|done|done]. }
  destruct (forVariants_total (symbol :: known) symbol variants _ Hvs Hcore' Hok0)
    as (found & s1 & -> & Hok1).
  unfold rewriteAfter. destruct found; [|eauto].
  destruct Hok1 as [Hk Ho]. destruct (Hk symbol) as [e ->]; [left|].
  case_bool_decide; eexists; (split; [done|]); (split; [by split|]); eauto.
Qed.

Lemma forSymbols_total known symbols st :
  scannable known symbols (cat st) = true →
  (∀ rg, rg ∈ allRanges (cat st) → coreCovers (r_bank rg) (r_end rg)) →
  regOK known (mem st) →
  ∃ st', forSymbols symbols st = (Ok tt, st').
Proof.
  revert known st. induction symbols as [|symbol rest IH]; intros known st Hscan Hcore Hok;
    simpl; [eauto|].
  simpl in Hscan. apply andb_true_iff in Hscan as [Hhere Hrest].
  destruct (catLookup (cat st) symbol) as [variants|] eqn:Hlook; [|done].
  destruct (processSymbol_total known symbol variants st Hlook Hhere Hcore Hok)
    as (st1 & -> & Hok1 & Hshape).
  apply (IH (symbol :: known)); [| |done].
  - destruct Hshape as [->|[lit ->]]; [done|]. by rewrite scannable_rewrite.
  - destruct Hshape as [->|[lit ->]]; [done|]. by rewrite allRanges_rewrite.
Qed.

End SearchFacts.

(** ** The scenarios, run *)

(** Scenario 1: without the optional RELINT the match is reported at the
    first required item. *)
Example intpret_plain :
  let run := searchSpecial (H := plainMachine)
               [("INTPRET"%string, [intpretVariant (StartInt 0)])] ∅ in
  run.1 = Ok tt ∧
  reg (mem run.2) !! "INTPRET"%string =
  Some (mkEntry 3 2 3074 (Some ("INTPRET"%string, 0%nat)) "INTPRET" (DWCount 0)).
Proof. vm_compute. done. Qed.

(** C1, as stated, fails: with the range [[3, 1, 10]] and RELINT at offset
    1 the match at candidate 2 is moved back to offset 1, the start of the
    range. *)
Lemma backward_reaches_start :
  let startingOffset := 1 in
  let run := searchSpecial (H := relintMachine)
               [("INTPRET"%string, [intpretVariant (StartInt startingOffset)])] ∅ in
  ∃ e, reg (mem run.2) !! "INTPRET"%string = Some e ∧
       e_searchPattern e = Some ("INTPRET"%string, 0%nat) ∧
       ¬ (startingOffset < e_offset e).
Proof.
  eexists. split; [vm_compute; reflexivity|]. split; [done|]. simpl. lia.
Qed.

(** C2, as stated, fails: ABSENT is recorded as not found, and the range
    of AFTER that starts at ABSENT is searched from offset 0, where AFTER
    is found. *)
Lemma unresolved_start_not_skipped :
  let run := searchSpecial (H := plainMachine) chainedCatalog ∅ in
  run.1 = Ok tt ∧
  reg (mem run.2) !! "ABSENT"%string = Some (notFound "ABSENT") ∧
  ∃ e, reg (mem run.2) !! "AFTER"%string = Some e ∧
       e_searchPattern e = Some ("AFTER"%string, 0%nat) ∧ e_offset e = 0.
Proof.
  split; [vm_compute; reflexivity|]. split; [vm_compute; reflexivity|].
  eexists. split; [vm_compute; reflexivity|]. done.
Qed.

(** C5: where the backward phase moves the match, the sixth component of
    the stored tuple is the pattern of the variant (line 278), not its
    data-word count. *)
Theorem dataWords_replaced_by_pattern :
  let variant := intpretVariant (StartInt 0) in
  let run := searchSpecial (H := relintMachine)
               [("INTPRET"%string, [variant])] ∅ in
  ∃ e, reg (mem run.2) !! "INTPRET"%string = Some e ∧
       e_offset e = 1 ∧
       e_dataWords e = DWPatternOf ("INTPRET"%string, 0%nat) ∧
       e_dataWords e ≠ DWCount (dataWords variant).
Proof.
  eexists. split; [vm_compute; reflexivity|]. done.
Qed.

(** The slip of the backward loop: an opcode that does not match does not
    end it (the [break] of line 281 belongs to the test of the operand).
    NOOP at offset 1 is not the optional INHINT, and the match at 2 is
    still moved to the RELINT at offset 0. *)
Example backward_passes_opcode_mismatch :
  let run := searchSpecial (H := gapMachine) [("PAIR"%string, [leadingPairVariant])] ∅ in
  ∃ e, reg (mem run.2) !! "PAIR"%string = Some e ∧ e_offset e = 0.
Proof. eexists. split; [vm_compute; reflexivity|done]. Qed.

(** Scenario 4: the operand of CALLER that names TARGET becomes 6002, and
    CALLER is found at the TC 6002. *)
Example placeholder_scenario :
  let run := searchSpecial (H := callMachine) placeholderCatalog ∅ in
  run.1 = Ok tt ∧
  cat run.2 = specRewriteCatalog "TARGET" "6002" placeholderCatalog ∧
  ∃ e, reg (mem run.2) !! "CALLER"%string = Some e ∧ e_offset e = 0.
Proof.
  split; [vm_compute; reflexivity|]. split; [vm_compute; reflexivity|].
  eexists. split; [vm_compute; reflexivity|done].
Qed.

(** Only the first of two equal entries of an operand list is replaced. *)
Example replaceFirst_repeated :
  replaceFirst "TARGET" "6002" ["TARGET"; "TARGET"]%string = ["6002"; "TARGET"]%string.
Proof. reflexivity. Qed.

Example format04o_examples :
  format04o 3074 = "6002"%string ∧ format04o 5 = "0005"%string ∧
  format04o (-5) = "-005"%string ∧ format04o 32768 = "100000"%string.
Proof. repeat split. Qed.

Example pyRange_examples : pyRange 3 6 = [3; 4; 5] ∧ pyRange 6 3 = [].
Proof. split; reflexivity. Qed.

(** C6, as stated, fails: the same catalog, scanned over the same address
    space, ends with TypeError in a registry that is empty, and finds AFTER
    in the registry that a scan of another catalog has left. *)
Lemma registry_leaks_between_scans :
  let searchPatterns := [("AFTER"%string, [afterAbsentVariant])] in
  let earlier := searchSpecial (H := plainMachine) [("ABSENT"%string, [absentVariant])] ∅ in
  let fresh := searchSpecial (H := plainMachine) searchPatterns ∅ in
  let later := searchSpecial (H := plainMachine) searchPatterns (reg (mem earlier.2)) in
  fresh.1 = Raise TypeError ∧ later.1 = Ok tt ∧
  reg (mem fresh.2) !! "AFTER"%string ≠ reg (mem later.2) !! "AFTER"%string.
Proof.
  split; [vm_compute; reflexivity|]. split; [vm_compute; reflexivity|].
  vm_compute. discriminate.
Qed.

(** ** The theorems at the scenarios *)

Lemma listCore_covers (banks : list (list (string * string))) (bank : Z)
    (b : list (string * string)) :
  0 ≤ bank → banks !! Z.to_nat bank = Some b →
  coreCovers (H := toyMachine banks) bank (Z.of_nat (length b)).
Proof.
  intros Hbank Hb off Hoff. simpl. unfold listCore, pyIndex.
  pose proof (lookup_lt_Some _ _ _ Hb) as Hlen.
  rewrite bool_decide_eq_true_2 by lia. rewrite Hb. simpl.
  rewrite bool_decide_eq_true_2 by lia.
  destruct (lookup_lt_is_Some_2 b (Z.to_nat off)) as [w ->]; [lia|]. eauto.
Qed.

Lemma backward_stays_in_range_witness :
  ∃ s', tryOffset (H := relintMachine) "INTPRET" ("INTPRET"%string, 0%nat)
          (intpretVariant (StartInt 1)) 3 1 10 2 (mkMem ∅ None) = (Ok true, s') ∧
        ∃ e, reg s' !! "INTPRET"%string = Some e ∧ e_bank e = 3 ∧ 1 ≤ e_offset e ≤ 2.
Proof.
  eexists. split; [vm_compute; reflexivity|].
  eapply (backward_stays_in_range (H := relintMachine) "INTPRET"
            ("INTPRET"%string, 0%nat) (intpretVariant (StartInt 1)) 3 1 10 2
            (mkMem ∅ None)).
  - lia.
  - vm_compute. reflexivity.
Defined.

Lemma symbol_start_window_witness :
  let s := mkMem (<["ABSENT"%string := notFound "ABSENT"]> ∅) None in
  let rg := mkRange 3 (StartSym "ABSENT") 10 in
  pyRange (e_offset (notFound "ABSENT") + 1) (r_end rg) = pyRange 0 10 ∧
  searchRange (H := plainMachine) "AFTER" ("AFTER"%string, 0%nat) afterAbsentVariant rg s =
  forOffsets (H := plainMachine) "AFTER" ("AFTER"%string, 0%nat) afterAbsentVariant
             3 0 10 (pyRange 0 10) s.
Proof.
  intros s rg.
  destruct (symbol_start_window (H := plainMachine) "AFTER" 0 afterAbsentVariant rg
              "ABSENT" (notFound "ABSENT") s) as (Hsearch & _ & Hall & _).
  - reflexivity.
  - vm_compute. reflexivity.
  - split; [by apply Hall|exact Hsearch].
Defined.


Lemma scan_independent_of_registry_witness :
  let run1 := searchSpecial (H := plainMachine) chainedCatalog ∅ in
  let run2 := searchSpecial (H := plainMachine) chainedCatalog staleRegistry in
  run1.1 = run2.1 ∧ cat run1.2 = cat run2.2 ∧
  reg (mem run1.2) !! "AFTER"%string = reg (mem run2.2) !! "AFTER"%string ∧
  reg (mem run2.2) !! "OTHER"%string = Some (notFound "OTHER").
Proof.
  intros run1 run2.
  destruct (scan_independent_of_registry (H := plainMachine) chainedCatalog ∅
              staleRegistry) as (Hres & Hcat & Hkeys & _ & _).
  - reflexivity.
  - split; [exact Hres|]. split; [exact Hcat|]. split.
    + apply Hkeys; [vm_compute; reflexivity|].
      right. left.
    + vm_compute. reflexivity.
Defined.

Lemma canonical_address_iff_window_witness :
  let run := searchSpecial (H := plainMachine) (intpretCatalog (StartInt 0)) ∅ in
  ∃ e, reg (mem run.2) !! "INTPRET"%string = Some e ∧
       (e_bank e ∈ [2; 3] → e_fixedFixed e = e_bank e * 1024 + e_offset e) ∧
       (e_bank e ∉ [2; 3] → e_fixedFixed e = -1).
Proof.
  intros run.
  destruct (canonical_address_iff_window (H := plainMachine)
              (intpretCatalog (StartInt 0)) ∅ run.2 "INTPRET")
    as (e & He & Hin & Hout & _).
  - vm_compute. reflexivity.
  - apply list_elem_of_here.
  - exists e. split; [exact He|]. split; [exact Hin|exact Hout].
Defined.

Lemma first_match_wins_witness :
  let run := forVariants (H := plainMachine) "STORE" contendedVariants (mkMem ∅ None) in
  (run.1 = Ok true ∧
   reg run.2 !! "STORE"%string =
     Some (mkEntry 3 5 3077 (Some ("STORE"%string, 1%nat)) "STORE" (DWCount 0)) ∧
   (tryOffset (H := plainMachine) "STORE" ("STORE"%string, 1%nat) tsVariant 3 0 10 7
              (mkMem ∅ None)).1 = Ok true ∧
   (tryOffset (H := plainMachine) "STORE" ("STORE"%string, 2%nat) targetVariant 3 0 10 2
              (mkMem ∅ None)).1 = Ok true) ∧
  reg (mem (searchSpecial (H := callMachine) placeholderCatalog ∅).2) !! "TARGET"%string =
    Some (mkEntry 3 2 3074 (Some ("TARGET"%string, 0%nat)) "TARGET" (DWCount 0)).
Proof.
  intros run.
  destruct (first_match_wins (H := plainMachine)) as (Hwins & _ & _).
  destruct (first_match_wins (H := callMachine)) as (_ & _ & Hkept).
  split.
  - destruct (Hwins "STORE"%string [absentVariant] tsVariant [targetVariant]
                [] (mkRange 3 (StartInt 0) 10) [] 0 [0; 1; 2; 3; 4] 5 [6; 7; 8; 9]
                (mkMem ∅ None)
                (mkMem ∅ (Some ("NOOP", "")%string))
                (mkMem ∅ (Some ("NOOP", "")%string))
                (mkMem ∅ (Some ("CA", "0004")%string))
                0%nat (mkFwd 6 1 false 5 (Some ("TS", "0020")%string)))
      as (Hrun & _ & _).
    + vm_compute. reflexivity.
    + reflexivity.
    + reflexivity.
    + reflexivity.
    + vm_compute. reflexivity.
    + vm_compute. reflexivity.
    + reflexivity.
    + vm_compute. reflexivity.
    + simpl. lia.
    + unfold run, contendedVariants.
      change [absentVariant; tsVariant; targetVariant]
        with ([absentVariant] ++ tsVariant :: [targetVariant]).
      rewrite Hrun. split; [vm_compute; reflexivity|].
      split; [vm_compute; reflexivity|]. split; vm_compute; reflexivity.
  - rewrite (Hkept placeholderCatalog ∅ [] "TARGET"%string ["CALLER"%string]
               (mkState (mkMem ∅ None) placeholderCatalog)
               (processSymbol (H := callMachine) "TARGET"
                  (mkState (mkMem ∅ None) placeholderCatalog)).2
               (searchSpecial (H := callMachine) placeholderCatalog ∅).1
               (searchSpecial (H := callMachine) placeholderCatalog ∅).2).
    + vm_compute. reflexivity.
    + apply (bool_decide_unpack _). vm_compute. exact I.
    + reflexivity.
    + reflexivity.
    + vm_compute. reflexivity.
    + vm_compute. reflexivity.
Defined.

Lemma forward_incompatible_item_witness :
  tryOffset (H := plainMachine) "INTPRET" ("INTPRET"%string, 0%nat)
            (intpretVariant (StartInt 0)) 3 0 10 0 (mkMem ∅ None) =
  (Ok false, mkMem ∅ (Some ("NOOP", ""))%string) ∧
  ∃ st', fwdIter (H := plainMachine) "TRAIL" 3 (mkItem false ["RELINT"%string] [])
           (mkFwd 3 1 true 2 (Some ("EXTEND", "")%string)) = Ok (Next st') ∧
         offset st' = 3 ∧ iPat st' = 2%nat.
Proof.
  split.
  - destruct (forward_incompatible_item (H := plainMachine) "INTPRET"
                ("INTPRET"%string, 0%nat) (intpretVariant (StartInt 0)) 3 0 10 0
                (mkMem ∅ None) 1 (mkItem true ["EXTEND"%string] [])
                (drop 2 intpretPattern) (mkFwd 0 1 false (-1) None)
                (mkFwd 0 1 false (-1) (Some ("NOOP", "")%string)))
      as [_ Hrequired].
    + reflexivity.
    + apply reach_here.
    + simpl. lia.
    + vm_compute. reflexivity.
    + vm_compute. reflexivity.
    + destruct (Hrequired eq_refl) as (st' & _ & _ & _ & _ & _ & Htry). exact Htry.
  - destruct (forward_incompatible_item (H := plainMachine) "TRAIL"
                ("TRAIL"%string, 0%nat) trailingOptionalVariant 3 0 10 2
                (mkMem ∅ None) 0 (mkItem false ["RELINT"%string] []) []
                (mkFwd 3 1 true 2 (Some ("EXTEND", "")%string))
                (mkFwd 3 1 false 2 (Some ("QXCH", "0010")%string)))
      as [Hoptional _].
    + reflexivity.
    + apply (reach_next (H := plainMachine) "TRAIL" 3 10
               (mkItem true ["EXTEND"%string] []) [mkItem false ["RELINT"%string] []]
               (mkFwd 2 0 false (-1) None)
               (mkFwd 3 1 true 2 (Some ("EXTEND", "")%string))).
      * simpl. lia.
      * vm_compute. reflexivity.
      * apply reach_here.
    + simpl. lia.
    + vm_compute. reflexivity.
    + vm_compute. reflexivity.
    + destruct (Hoptional eq_refl) as (st' & Hiter & Hoff & Hi & _).
      exists st'. split; [exact Hiter|]. split; [exact Hoff|exact Hi].
Defined.

Lemma seek_needs_required_item_witness :
  seekRequired (pattern allOptionalVariant) 0 = Raise IndexError ∧
  searchRange (H := plainMachine) "ODD" ("ODD"%string, 0%nat) allOptionalVariant
              (mkRange 3 (StartInt 0) 10) (mkMem ∅ None) =
  (Raise IndexError, mkMem ∅ None).
Proof.
  destruct (seek_needs_required_item (H := plainMachine) "ODD" ("ODD"%string, 0%nat)
              allOptionalVariant) as (_ & Hseek & Hscan).
  assert (∀ p, p ∈ pattern allOptionalVariant → required p = false) as Hall.
  { intros p Hp. apply elem_of_cons in Hp as [->|Hp]; [reflexivity|].
    by apply elem_of_nil in Hp. }
  split.
  - apply Hseek, Hall.
  - destruct (Hscan Hall) as [_ Hrange].
    apply (Hrange (mkRange 3 (StartInt 0) 10) (mkMem ∅ None) 0); [reflexivity|simpl; lia].
Defined.

(** * Further properties of the search *)

Section SearchMore.
Context `{Machine}.

(** ** What a candidate needs to be a match *)

Lemma fwdIter_Next_cases symbol bank item st st1 :
  fwdIter symbol bank item st = Ok (Next st1) →
  iPat st1 = S (iPat st) ∧ lastOffset st1 = offset st ∧
  (offset st1 = offset st + 1 ∨ (offset st1 = offset st ∧ required item = false)).
Proof.
  unfold fwdIter.
  destruct (fetch bank st) as [st0|e] eqn:Hf; simpl; [|done].
  apply fetch_same in Hf as (Ho & Hi & _).
  destruct (debugPrint symbol (decoded st0)); simpl; [|done].
  destruct (compatible item (decoded st0)) as [[]|]; simpl; [| |done].
  - intros [= <-]. simpl. rewrite Ho, Hi. auto.
  - destruct (required item); [done|]. intros [= <-]. simpl. rewrite Ho, Hi. auto.
Qed.

Lemma requiredCount_cons p items :
  requiredCount (p :: items) =
  ((if required p then 1 else 0) + requiredCount items)%nat.
Proof.
  unfold requiredCount. rewrite filter_cons.
  destruct (decide (required p = true)) as [Hp|Hp]; [by rewrite Hp|].
  by destruct (required p).
Qed.

(** A forward loop that passes every item takes an instruction for each
    required one, all of them before the end of the range. *)
Lemma forward_complete symbol bank endingOffset items st st' :
  forward symbol bank endingOffset items st = Ok st' →
  iPat st' = (iPat st + length items)%nat →
  offset st + Z.of_nat (requiredCount items) ≤ offset st' ∧
  (items ≠ [] → offset st < endingOffset ∧ offset st' ≤ endingOffset).
Proof.
  revert st. induction items as [|item rest IH]; intros st; simpl.
  - intros [= <-] _. split; [unfold requiredCount; simpl; lia|done].
  - case_bool_decide as Hlt; [|intros [= <-]; lia].
    destruct (fwdIter symbol bank item st) as [[st1|st1]|e] eqn:Hit; [| |done].
    + apply fwdIter_Next_cases in Hit as (Hi & _ & Ho). intros Hfw Hlen.
      destruct (IH st1 Hfw) as [Hreq Hend]; [lia|].
      assert (offset st1 ≤ offset st') as Hmono
        by (apply forward_iPat in Hfw; lia).
      split.
      * rewrite requiredCount_cons.
        destruct Ho as [Ho|[Ho ->]]; [destruct (required item)|]; lia.
      * intros _. split; [done|].
        destruct rest as [|item' rest'].
        -- simpl in Hfw. injection Hfw as <-. lia.
        -- apply Hend. done.
    + apply fwdIter_Stop in Hit as (Hi & _). intros [= <-]. lia.
Qed.

(** What a match at a candidate went through. *)
Lemma tryOffset_found_inv symbol ref sp bank startingOffset endingOffset T s s' :
  tryOffset symbol ref sp bank startingOffset endingOffset T s = (Ok true, s') →
  ∃ i0 st,
    seekRequired (pattern sp) 0 = Ok i0 ∧
    forward symbol bank endingOffset (drop i0 (pattern sp))
            (mkFwd T i0 false (-1) (loc s)) = Ok st ∧
    (length (pattern sp) ≤ iPat st)%nat ∧
    backward symbol ref (pattern sp) bank startingOffset i0 T
      (store symbol
         (mkEntry bank T (fixedFixedOf bank T) (Some ref) symbol
                  (DWCount (dataWords sp)))
         (mkMem (reg s) (decoded st))) = (Ok tt, s').
Proof.
  unfold tryOffset.
  destruct (seekRequired (pattern sp) 0) as [i0|e] eqn:Hseek; [|done].
  destruct (forward _ _ _ _ _) as [st|e] eqn:Hfw; [|done].
  case_bool_decide as Hlen; [|done].
  destruct (backward _ _ _ _ _ _ _ _) as [[[]|e] s3] eqn:Hb; [|done].
  intros [= <-]. by exists i0, st.
Qed.

Lemma requiredCount_drop items i0 :
  Forall (λ q, required q = false) (take i0 items) →
  requiredCount (drop i0 items) = requiredCount items.
Proof.
  revert i0. induction items as [|p items IH]; intros [|i0]; simpl; try done.
  intros [Hp Hrest]%Forall_cons. rewrite IH by done.
  by rewrite requiredCount_cons, Hp.
Qed.

(** X2. A match at the candidate [T] has an instruction for every required
    item of the pattern between [T] and the end of the range. *)
Theorem match_needs_room (symbol : string) (ref : VariantRef) (sp : SearchPattern)
    (bank startingOffset endingOffset T : Z) (s s' : Mem) :
  tryOffset symbol ref sp bank startingOffset endingOffset T s = (Ok true, s') →
  T < endingOffset ∧ T + Z.of_nat (requiredCount (pattern sp)) ≤ endingOffset.
Proof.
  intros (i0 & st & Hseek & Hfw & Hlen & _)%tryOffset_found_inv.
  pose proof (seekRequired_lt _ _ Hseek) as Hi0.
  pose proof (forward_iPat _ _ _ _ _ _ Hfw) as [Hi _]. simpl in Hi.
  rewrite length_drop in Hi.
  destruct (forward_complete _ _ _ _ _ _ Hfw) as [Hreq Hend].
  { simpl. rewrite length_drop. lia. }
  simpl in Hreq, Hend.
  destruct Hend as [Hlt Hle].
  { intros Hnil. apply (f_equal length) in Hnil. rewrite length_drop in Hnil.
    simpl in Hnil. lia. }
  apply seekRequired_Ok in Hseek as (k & p & -> & _ & _ & Hopt). simpl in *.
  rewrite requiredCount_drop in Hreq by done. lia.
Qed.

(** X1. Where the forward loop comes to the end of the range with an item
    of the pattern left, required or optional, the candidate is no match,
    and nothing is stored. *)
Theorem range_end_cuts_pattern (symbol : string) (ref : VariantRef)
    (sp : SearchPattern) (bank startingOffset endingOffset T : Z) (s : Mem)
    (i0 : nat) (item : Item) (rest : list Item) (st : Fwd) :
  seekRequired (pattern sp) 0 = Ok i0 →
  fwdReach symbol bank endingOffset (drop i0 (pattern sp))
           (mkFwd T i0 false (-1) (loc s)) (item :: rest) st →
  endingOffset ≤ offset st →
  tryOffset symbol ref sp bank startingOffset endingOffset T s =
  (Ok false, mkMem (reg s) (decoded st)).
Proof.
  intros Hseek Hreach Hend.
  pose proof (fwdReach_iPat _ _ _ _ _ _ _ Hreach) as Hlen.
  pose proof (seekRequired_lt _ _ Hseek) as Hi0. simpl in Hlen.
  rewrite length_drop in Hlen.
  unfold tryOffset. rewrite Hseek, (fwdReach_forward _ _ _ _ _ _ _ Hreach). simpl.
  rewrite bool_decide_eq_false_2 by lia.
  by rewrite bool_decide_eq_false_2 by lia.
Qed.

(** ** Matches that the backward phase leaves where they are *)

Lemma backward_unchanged symbol ref pat bank startingOffset i off s res s' :
  (∀ j item, (j < i)%nat → pat !! j = Some item → desiredOpcodes item = []) →
  backward symbol ref pat bank startingOffset i off s = (res, s') →
  reg s' = reg s.
Proof.
  revert off s. induction i as [|i IH]; intros off s Hempty; simpl.
  - by intros [= _ <-].
  - case_bool_decide; [|by intros [= _ <-]].
    destruct (pat !! i) as [item|] eqn:Hi; [|by intros [= _ <-]].
    destruct (core bank (off - 1)) as [w|e]; [|by intros [= _ <-]].
    destruct (disassembleBasic w false) as [[opc opd] ext].
    rewrite (Hempty i item) by (done || lia).
    unfold inList. rewrite bool_decide_eq_false_2 by apply not_elem_of_nil.
    intros Hb. apply IH in Hb; [done|]. intros j it Hj. apply Hempty. lia.
Qed.

Lemma backward_at_start symbol ref pat bank startingOffset i off s :
  i = 0%nat ∨ off ≤ startingOffset →
  backward symbol ref pat bank startingOffset i off s = (Ok tt, s).
Proof.
  intros [->|Hoff]; [done|]. destruct i; [done|]. simpl.
  by rewrite bool_decide_eq_false_2 by lia.
Qed.

(** X3. For a pattern that begins with a required item, and for the
    candidate at the start of the range, the backward phase does nothing:
    the tuple of a match holds the candidate offset and the data-word count
    of the variant. *)
Theorem match_stored_at_candidate (symbol : string) (ref : VariantRef)
    (sp : SearchPattern) (bank startingOffset endingOffset T : Z) (s s' : Mem) :
  (∃ p rest, pattern sp = p :: rest ∧ required p = true) ∨ T ≤ startingOffset →
  tryOffset symbol ref sp bank startingOffset endingOffset T s = (Ok true, s') →
  reg s' = <[symbol := mkEntry bank T (fixedFixedOf bank T) (Some ref) symbol
                               (DWCount (dataWords sp))]> (reg s).
Proof.
  intros Hcase (i0 & st & Hseek & _ & _ & Hb)%tryOffset_found_inv.
  rewrite backward_at_start in Hb.
  - by injection Hb as <-.
  - destruct Hcase as [(p & rest & Hpat & Hreq)|HT]; [left|by right].
    rewrite Hpat in Hseek. simpl in Hseek. rewrite Hreq in Hseek. congruence.
Qed.

(** X4. An optional item with an empty list of opcodes, which the forward
    phase lets pass for any instruction, never moves a match back: when all
    the items before the first required one are such, the tuple of a match
    holds the candidate offset and the data-word count of the variant. *)
Theorem empty_opcodes_never_extend (symbol : string) (ref : VariantRef)
    (sp : SearchPattern) (bank startingOffset endingOffset T : Z) (s s' : Mem) :
  (∀ item, item ∈ pattern sp → required item = false → desiredOpcodes item = []) →
  tryOffset symbol ref sp bank startingOffset endingOffset T s = (Ok true, s') →
  reg s' = <[symbol := mkEntry bank T (fixedFixedOf bank T) (Some ref) symbol
                               (DWCount (dataWords sp))]> (reg s).
Proof.
  intros Hempty (i0 & st & Hseek & _ & _ & Hb)%tryOffset_found_inv.
  apply backward_unchanged in Hb; [done|].
  intros j item Hj Hitem.
  apply seekRequired_Ok in Hseek as (k & p & -> & _ & _ & Hopt). simpl in Hj.
  apply Hempty; [by eapply list_elem_of_lookup_2|].
  rewrite Forall_forall in Hopt. apply Hopt.
  apply list_elem_of_lookup. exists j. by rewrite lookup_take_lt.
Qed.

(** ** Symbols without a candidate *)

Lemma pyRange_empty a b : b ≤ a → pyRange a b = [].
Proof. intros Hab. unfold pyRange. by replace (Z.to_nat (b - a)) with 0%nat by lia. Qed.

Lemma untilFound_all_false {A : Type} (body : A → Mem → Res bool * Mem) xs s :
  (∀ x s1, x ∈ xs → body x s1 = (Ok false, s1)) →
  untilFound body xs s = (Ok false, s).
Proof.
  induction xs as [|x xs IH]; intros Hbody; simpl; [done|].
  rewrite Hbody by left. apply IH. intros y s1 Hy. apply Hbody. by right.
Qed.

(** X5. A symbol that has no variant, or whose variants have no range, or
    only ranges that end at or before their start, is marked as not found
    without an exception and without a change of the catalog: the pattern
    and the address space are not looked at. *)
Theorem no_candidate_not_found (symbol : string) (variants : list SearchPattern)
    (st : State) :
  catLookup (cat st) symbol = Some variants →
  (∀ sp rg, sp ∈ variants → rg ∈ ranges sp →
            ∃ n, r_start rg = StartInt n ∧ r_end rg ≤ n) →
  processSymbol symbol st =
  (Ok tt, mkState (store symbol (notFound symbol) (mem st)) (cat st)).
Proof.
  intros Hlook Hempty. unfold processSymbol. rewrite Hlook.
  unfold forVariants. rewrite untilFound_all_false; [done|].
  intros [n sp] s1 Hin.
  apply elem_of_lookup_imap in Hin as (i & x & [= -> ->] & Hi).
  apply list_elem_of_lookup_2 in Hi.
  unfold searchVariant, forRanges. simpl. apply untilFound_all_false.
  intros rg s2 Hrg. destruct (Hempty x rg Hi Hrg) as (z & Hstart & Hend).
  unfold searchRange. rewrite Hstart. simpl. unfold forOffsets.
  by rewrite pyRange_empty.
Qed.

(** ** The registry and the catalog after a scan *)

(** X6. After a scan that ends without an exception, the registry holds a
    tuple for exactly the symbols it held before and the symbols of the
    catalog, and the tuple of a symbol of the catalog names the symbol in
    its fifth place. *)
Theorem registry_domain_after_scan (searchPatterns : Catalog) (registry : Registry)
    (st : State) (k : string) :
  searchSpecial searchPatterns registry = (Ok tt, st) →
  (is_Some (reg (mem st) !! k) ↔
   is_Some (registry !! k) ∨ k ∈ map fst searchPatterns) ∧
  (k ∈ map fst searchPatterns →
   ∃ e, reg (mem st) !! k = Some e ∧ e_symbol e = k).
Proof.
  intros Hrun. unfold searchSpecial in Hrun.
  assert (k ∈ map fst searchPatterns →
          ∃ e, reg (mem st) !! k = Some e ∧ e_symbol e = k) as Hin.
  { intros Hk.
    eapply (forSymbols_all (λ symbol e, e_symbol e = symbol)) in Hrun; [exact Hrun| |exact Hk].
    intros s0 st0 r0 st0' (e & ? & ? & _)%processSymbol_entry. by exists e. }
  split; [|exact Hin].
  destruct (decide (k ∈ map fst searchPatterns)) as [Hk|Hk].
  - destruct (Hin Hk) as (e & -> & _). split; eauto.
  - rewrite (forSymbols_frame _ _ _ _ _ Hrun Hk). simpl.
    split; [by left|]. by intros [?|?].
Qed.

Lemma length_replaceFirst symbol lit ops :
  length (replaceFirst symbol lit ops) = length ops.
Proof.
  induction ops as [|o ops IH]; simpl; [done|].
  case_bool_decide; simpl; [done|]. by rewrite IH.
Qed.

Lemma skeleton_rewrite symbol lit c :
  skeleton (rewriteCatalog symbol lit c) = skeleton c.
Proof.
  unfold skeleton, rewriteCatalog. rewrite map_map. apply map_ext.
  intros [k vs]. simpl. f_equal. rewrite map_map. apply map_ext.
  intros sp. unfold variantSkeleton. simpl. do 3 f_equal.
  rewrite map_map. apply map_ext. intros p.
  unfold rewriteItem, itemSkeleton. destruct (inList _ _); simpl; [|done].
  by rewrite length_replaceFirst.
Qed.

Lemma processSymbol_cat_shape symbol st res st' :
  processSymbol symbol st = (res, st') →
  cat st' = cat st ∨ ∃ lit, cat st' = rewriteCatalog symbol lit (cat st).
Proof.
  unfold processSymbol.
  destruct (catLookup (cat st) symbol) as [variants|]; [|intros [= <- <-]; by left].
  destruct (forVariants _ _ _) as [[found|e] s1]; [|intros [= <- <-]; by left].
  unfold rewriteAfter. destruct found; [|intros [= <- <-]; by left].
  destruct (reg s1 !! symbol) as [e|]; [|intros [= <- <-]; by left].
  case_bool_decide; intros [= <- <-]; simpl; eauto.
Qed.

Lemma forSymbols_skeleton symbols st res st' :
  forSymbols symbols st = (res, st') → skeleton (cat st') = skeleton (cat st).
Proof.
  revert st. induction symbols as [|symbol rest IH]; intros st; simpl.
  - by intros [= _ <-].
  - destruct (processSymbol symbol st) as [r1 st1] eqn:Hp.
    assert (skeleton (cat st1) = skeleton (cat st)) as Hst1.
    { apply processSymbol_cat_shape in Hp as [->|[lit ->]]; [done|].
      apply skeleton_rewrite. }
    destruct r1 as [[]|e]; [|by intros [= _ <-]].
    intros Hrest. by rewrite (IH _ Hrest).
Qed.

(** X7. Whatever the outcome of a scan, the catalog it leaves differs from
    the one it received in entries of operand lists only: the symbols and
    their order, the ranges, the data-word counts, the flags, the opcode
    lists and the number of operands of every item are the same. *)
Theorem scan_keeps_skeleton (searchPatterns : Catalog) (registry : Registry) :
  let st := (searchSpecial searchPatterns registry).2 in
  skeleton (cat st) = skeleton searchPatterns ∧
  map fst (cat st) = map fst searchPatterns.
Proof.
  intros st.
  assert (skeleton (cat st) = skeleton searchPatterns) as Hsk.
  { destruct (searchSpecial searchPatterns registry) as [res st0] eqn:Hrun.
    apply forSymbols_skeleton in Hrun. exact Hrun. }
  split; [done|].
  apply (f_equal (map fst)) in Hsk. unfold skeleton in Hsk.
  rewrite !map_map in Hsk. done.
Qed.

(** X8. The tuple of a found symbol points at one of the variants of the
    symbol, and its bank and offset lie in one of the ranges of that
    variant: the bank is that of the range, the offset is below its end
    and, for a range that starts at a number, not below its start. *)
Theorem match_inside_declared_range (symbol : string) (st st' : State)
    (res : Res unit) (e : Entry) (ref : VariantRef) :
  processSymbol symbol st = (res, st') →
  reg (mem st') !! symbol = Some e →
  e_searchPattern e = Some ref →
  ∃ variants n sp rg,
    catLookup (cat st) symbol = Some variants ∧ ref = (symbol, n) ∧
    variants !! n = Some sp ∧ rg ∈ ranges sp ∧
    e_bank e = r_bank rg ∧ e_offset e < r_end rg ∧
    (∀ z, r_start rg = StartInt z → z ≤ e_offset e).
Proof.
  intros [Hr|(variants & Hlook & HF)]%processSymbol_reg He Href.
  - rewrite Hr, lookup_insert_eq in He. injection He as <-. done.
  - destruct HF as ([n sp] & rg & Hn & Hrg & start & T & Hs & HT & o & dw & Ho & Hr).
    rewrite Hr, lookup_insert_eq in He. injection He as <-. simpl in *.
    injection Href as <-.
    exists variants, n, sp, rg. repeat split; try done.
    + destruct Ho as [[-> _]|[Ho _]]; lia.
    + intros z Hz. rewrite Hz in Hs. simpl in Hs. injection Hs as ->.
      destruct Ho as [[-> _]|[Ho _]]; lia.
Qed.

(** ** The forward loop and the decoded instruction *)

Lemma fwdReach_lastOffset symbol bank endingOffset items st items' st' lo :
  fwdReach symbol bank endingOffset items st items' st' →
  lo ≤ lastOffset st → lastOffset st ≤ offset st →
  lo ≤ lastOffset st' ∧ lastOffset st' ≤ offset st'.
Proof.
  induction 1 as [|item rest st st1 items' st' _ Hit _ IH]; [done|].
  intros Hlo Hle. apply fwdIter_Next_cases in Hit as (_ & Hlast & Hoff).
  apply IH; lia.
Qed.

(** X9. Once the forward loop has compared the instruction at an offset,
    it never disassembles an instruction at that offset or below it again:
    at every later iteration it either reuses the decoded instruction or
    reads a word at a greater offset. *)
Theorem disassembled_once (symbol : string) (bank endingOffset : Z)
    (item : Item) (rest items' : list Item) (st st1 st' : Fwd) :
  fwdIter symbol bank item st = Ok (Next st1) →
  fwdReach symbol bank endingOffset rest st1 items' st' →
  fetch bank st' = Ok st' ∨ offset st < offset st'.
Proof.
  intros (_ & Hlast & Hoff)%fwdIter_Next_cases Hreach.
  destruct (fwdReach_lastOffset _ _ _ _ _ _ _ (offset st) Hreach) as [Hlo Hle];
    [lia|lia|].
  unfold fetch. case_bool_decide as Hne; [right; lia|by left].
Qed.

Lemma untilFound_false_reg {A : Type} (body : A → Mem → Res bool * Mem) xs s s' :
  (∀ x s1 s2, body x s1 = (Ok false, s2) → reg s2 = reg s1) →
  untilFound body xs s = (Ok false, s') → reg s' = reg s.
Proof.
  intros Hbody. revert s. induction xs as [|x xs IH]; intros s; simpl.
  - by intros [= <-].
  - destruct (body x s) as [[[]|e] s1] eqn:Hx; [done| |done].
    intros Hrest%IH. rewrite Hrest. by eapply Hbody.
Qed.

Lemma untilFound_raises {A : Type} (body : A → Mem → Res bool * Mem)
    pre x post s s1 e s' :
  untilFound body pre s = (Ok false, s1) → body x s1 = (Raise e, s') →
  untilFound body (pre ++ x :: post) s = (Raise e, s').
Proof. intros Hpre Hx. rewrite untilFound_app, Hpre. simpl. by rewrite Hx. Qed.

(** X10. A range whose start names a symbol that the registry does not
    hold ends the scan of the symbol with a [TypeError] as soon as the
    search comes to it, that is when the variants and the ranges before it
    have given no match; the registry then records the symbol as not
    found, and the catalog is as it was. *)
Theorem unknown_start_symbol_raises (symbol name : string)
    (vpre vpost : list SearchPattern) (sp : SearchPattern)
    (rpre rpost : list Range) (rg : Range) (st : State) (s1 s2 : Mem) :
  catLookup (cat st) symbol = Some (vpre ++ sp :: vpost) →
  ranges sp = rpre ++ rg :: rpost →
  r_start rg = StartSym name →
  name ≠ symbol →
  reg (mem st) !! name = None →
  forVariants symbol vpre (store symbol (notFound symbol) (mem st)) = (Ok false, s1) →
  forRanges symbol (symbol, length vpre) sp rpre s1 = (Ok false, s2) →
  processSymbol symbol st = (Raise TypeError, mkState s2 (cat st)) ∧
  reg s2 = <[symbol := notFound symbol]> (reg (mem st)).
Proof.
  intros Hlook Hranges Hstart Hname Hnone Hvpre Hrpre.
  assert (reg s2 = <[symbol := notFound symbol]> (reg (mem st))) as Hreg.
  { apply forVariants_outcome in Hvpre. simpl in Hvpre.
    unfold forRanges in Hrpre. apply untilFound_false_reg in Hrpre.
    - by rewrite Hrpre, Hvpre.
    - intros rg' sa sb Hsr. by apply searchRange_outcome in Hsr. }
  split; [|done].
  unfold processSymbol. rewrite Hlook.
  assert (forVariants symbol (vpre ++ sp :: vpost)
            (store symbol (notFound symbol) (mem st)) = (Raise TypeError, s2)) as ->; [|done].
  unfold forVariants. rewrite imap_app, imap_cons.
  eapply untilFound_raises; [exact Hvpre|].
  rewrite Nat.add_0_r. unfold searchVariant. simpl. rewrite Hranges.
  unfold forRanges. eapply untilFound_raises; [exact Hrpre|].
  unfold searchRange. rewrite Hstart. simpl.
  rewrite Hreg, lookup_insert_ne by done. by rewrite Hnone.
Qed.

End SearchMore.

(** * The rewriting and the literals *)

Lemma replaceFirst_gone symbol lit ops :
  symbol ≠ lit → NoDup ops → symbol ∉ replaceFirst symbol lit ops.
Proof.
  intros Hne. induction 1 as [|o ops Hnotin Hnd IH]; simpl; [apply not_elem_of_nil|].
  case_bool_decide as Ho.
  - subst o. apply not_elem_of_cons. done.
  - apply not_elem_of_cons. split; [done|exact IH].
Qed.

Lemma rewriteItem_gone symbol lit p :
  symbol ≠ lit → NoDup (desiredOperands p) →
  symbol ∉ desiredOperands (rewriteItem symbol lit p).
Proof.
  intros Hne Hnd. unfold rewriteItem, inList.
  case_bool_decide as Hin; simpl; [by apply replaceFirst_gone|done].
Qed.

Lemma rewriteItem_absent symbol lit p :
  symbol ∉ desiredOperands p → rewriteItem symbol lit p = p.
Proof.
  intros Hnotin. unfold rewriteItem, inList. by rewrite bool_decide_eq_false_2.
Qed.

(** X11. When the operand lists of the catalog have no repeated entry and
    the literal is not the name of the symbol itself, the rewriting leaves
    no operand list that names the symbol, and rewriting a second time
    changes nothing. *)
Theorem placeholder_gone (symbol lit : string) (c : Catalog) :
  symbol ≠ lit →
  operandsAreSets c = true →
  (∀ k vs sp p, (k, vs) ∈ rewriteCatalog symbol lit c → sp ∈ vs →
                p ∈ pattern sp → symbol ∉ desiredOperands p) ∧
  rewriteCatalog symbol lit (rewriteCatalog symbol lit c) = rewriteCatalog symbol lit c.
Proof.
  intros Hne Hsets.
  assert (∀ k vs sp p, (k, vs) ∈ rewriteCatalog symbol lit c → sp ∈ vs →
                p ∈ pattern sp → symbol ∉ desiredOperands p) as Hgone.
  { unfold operandsAreSets in Hsets. rewrite forallb_forall in Hsets.
    intros k vs sp p Hkv Hsp Hp. unfold rewriteCatalog in Hkv.
    apply list_elem_of_In, in_map_iff in Hkv as ([k0 vs0] & [= <- <-] & Hkv0).
    apply Hsets in Hkv0. simpl in Hkv0. rewrite forallb_forall in Hkv0.
    apply list_elem_of_In, in_map_iff in Hsp as (sp0 & <- & Hsp0).
    apply Hkv0 in Hsp0. rewrite forallb_forall in Hsp0.
    simpl in Hp.
    apply list_elem_of_In, in_map_iff in Hp as (p0 & <- & Hp0).
    apply Hsp0, bool_decide_eq_true_1 in Hp0.
    by apply rewriteItem_gone. }
  split; [exact Hgone|].
  set (c' := rewriteCatalog symbol lit c) in *.
  unfold rewriteCatalog at 1.
  rewrite <- (map_id c') at 2. apply map_ext_in.
  intros [k vs] Hkv%list_elem_of_In. simpl. f_equal.
  rewrite <- (map_id vs) at 2. apply map_ext_in.
  intros sp Hsp%list_elem_of_In. unfold rewriteVariant.
  destruct sp as [rs pat dw nr]. simpl. f_equal.
  rewrite <- (map_id pat) at 2. apply map_ext_in.
  intros p Hp%list_elem_of_In. apply rewriteItem_absent.
  by apply (Hgone k vs (mkSearchPattern rs pat dw nr) p).
Qed.

Lemma octValue_app acc a b : octValue acc (a +:+ b) = octValue (octValue acc a) b.
Proof. revert acc. induction a as [|c a IH]; intros acc; simpl; [done|]. by rewrite IH. Qed.

Lemma octDigit_cases d :
  0 ≤ d < 8 →
  ∃ c, octDigit d = String c "" ∧ c ≠ "-"%char ∧
       Z.of_nat (nat_of_ascii c) - 48 = d.
Proof.
  intros Hd.
  assert (d = 0 ∨ d = 1 ∨ d = 2 ∨ d = 3 ∨ d = 4 ∨ d = 5 ∨ d = 6 ∨ d = 7)
    as [->|[->|[->|[->|[->|[->|[->| ->]]]]]]] by lia;
    (eexists; split; [reflexivity|split; [discriminate|reflexivity]]).
Qed.

Lemma octDigits_head fuel n :
  0 ≤ n < 8 ^ (Z.of_nat fuel + 1) →
  ∃ c r, octDigits fuel n = String c r ∧ c ≠ "-"%char.
Proof.
  revert n. induction fuel as [|fuel IH]; intros n Hn; simpl.
  - destruct (octDigit_cases n) as (c & -> & Hc & _); [simpl in Hn; lia|]. eauto.
  - destruct (Z.ltb_spec n 8) as [Hlt|Hge].
    + destruct (octDigit_cases n) as (c & -> & Hc & _); [lia|]. eauto.
    + destruct (IH (n / 8)) as (c & r & -> & Hc); [|simpl; eauto].
      split; [apply Z.div_pos; lia|].
      apply Z.div_lt_upper_bound; [lia|].
      replace (Z.of_nat (S fuel) + 1) with (Z.succ (Z.of_nat fuel + 1)) in Hn by lia.
      rewrite Z.pow_succ_r in Hn by lia. lia.
Qed.

Lemma oct_fuel n : 0 ≤ n → 0 ≤ n < 8 ^ (Z.of_nat (Z.to_nat (Z.log2 n)) + 1).
Proof.
  intros Hn. split; [done|]. rewrite Z2Nat.id by apply Z.log2_nonneg.
  destruct (decide (n = 0)) as [->|Hne]; [done|].
  pose proof (Z.log2_spec n ltac:(lia)) as [_ Hlt].
  eapply Z.lt_le_trans; [exact Hlt|].
  replace (Z.succ (Z.log2 n)) with (Z.log2 n + 1) by lia.
  apply Z.pow_le_mono_l. lia.
Qed.

Lemma octValue_octDigits fuel n :
  0 ≤ n < 8 ^ (Z.of_nat fuel + 1) → octValue 0 (octDigits fuel n) = n.
Proof.
  revert n. induction fuel as [|fuel IH]; intros n Hn; simpl.
  - destruct (octDigit_cases n) as (c & -> & _ & Hc); [simpl in Hn; lia|].
    simpl. lia.
  - destruct (Z.ltb_spec n 8) as [Hlt|Hge].
    + destruct (octDigit_cases n) as (c & -> & _ & Hc); [lia|]. simpl. lia.
    + rewrite octValue_app, IH.
      * destruct (octDigit_cases (n mod 8)) as (c & -> & _ & Hc);
          [apply Z.mod_pos_bound; lia|].
        simpl. pose proof (Z.div_mod n 8). lia.
      * split; [apply Z.div_pos; lia|].
        apply Z.div_lt_upper_bound; [lia|].
        replace (Z.of_nat (S fuel) + 1) with (Z.succ (Z.of_nat fuel + 1)) in Hn by lia.
        rewrite Z.pow_succ_r in Hn by lia. lia.
Qed.

Lemma octValue_oct n : 0 ≤ n → octValue 0 (oct n) = n.
Proof.
  intros Hn. unfold oct. by apply octValue_octDigits, oct_fuel.
Qed.

Lemma octValue_zeros k s : octValue 0 (zeros k +:+ s) = octValue 0 s.
Proof. induction k as [|k IH]; simpl; [done|]. exact IH. Qed.

Lemma zeros_head k s c r :
  s = String c r → c ≠ "-"%char → ∃ c' r', zeros k +:+ s = String c' r' ∧ c' ≠ "-"%char.
Proof. intros -> Hc. destruct k as [|k]; simpl; eauto. Qed.

Lemma length_app_string a b :
  String.length (a +:+ b) = (String.length a + String.length b)%nat.
Proof. induction a as [|c a IH]; simpl; [done|]. by rewrite IH. Qed.

Lemma length_zeros k : String.length (zeros k) = k.
Proof. induction k as [|k IH]; simpl; [done|]. f_equal. exact IH. Qed.

Lemma readOct_format04o n : readOct (format04o n) = n.
Proof.
  unfold format04o. destruct (Z.ltb_spec n 0) as [Hneg|Hpos].
  - cbv zeta. change (- octValue 0 (zeros (3 - String.length (oct (- n))) +:+ oct (- n)) = n).
    rewrite octValue_zeros, octValue_oct; lia.
  - destruct (octDigits_head (Z.to_nat (Z.log2 n)) n (oct_fuel n Hpos))
      as (c & r & Hd & Hc).
    destruct (zeros_head (4 - String.length (oct n)) (oct n) c r Hd Hc)
      as (c' & r' & Heq & Hc').
    cbv zeta. rewrite Heq. unfold readOct.
    transitivity (octValue 0 (String c' r')).
    + destruct c' as [[] [] [] [] [] [] [] []]; first [reflexivity|by destruct Hc'].
    + rewrite <- Heq, octValue_zeros. by apply octValue_oct.
Qed.

(** X12. The literal that ["%04o"] writes for an address has at least four
    characters and loses nothing: read as an octal number it gives the
    address back, so that two addresses never share a literal. *)
Theorem format04o_faithful (n m : Z) :
  readOct (format04o n) = n ∧
  (format04o n = format04o m → n = m) ∧
  (4 ≤ String.length (format04o n))%nat.
Proof.
  split; [apply readOct_format04o|]. split.
  - intros Heq. by rewrite <- (readOct_format04o n), Heq, readOct_format04o.
  - unfold format04o. destruct (n <? 0); cbv zeta.
    + rewrite !length_app_string, length_zeros. simpl. 
      lia.
    + rewrite length_app_string, length_zeros. lia.
Qed.

Lemma octalDigits_app a b :
  octalDigits (a +:+ b) = octalDigits a && octalDigits b.
Proof. induction a as [|c a IH]; simpl; [done|]. by rewrite IH, andb_assoc. Qed.

Lemma octDigit_shape d :
  0 ≤ d < 8 → String.length (octDigit d) = 1%nat ∧ octalDigits (octDigit d) = true.
Proof.
  intros Hd.
  assert (d = 0 ∨ d = 1 ∨ d = 2 ∨ d = 3 ∨ d = 4 ∨ d = 5 ∨ d = 6 ∨ d = 7)
    as [->|[->|[->|[->|[->|[->|[->| ->]]]]]]] by lia; by split.
Qed.

Lemma octDigits_shape k fuel n :
  8 ^ Z.of_nat k ≤ n < 8 ^ (Z.of_nat k + 1) → (k ≤ fuel)%nat →
  String.length (octDigits fuel n) = S k ∧ octalDigits (octDigits fuel n) = true.
Proof.
  revert fuel n. induction k as [|k IH]; intros fuel n Hn Hfuel.
  - simpl in Hn. assert (0 ≤ n < 8) as Hd by lia.
    destruct fuel as [|fuel]; simpl.
    + by apply octDigit_shape.
    + destruct (Z.ltb_spec n 8); [by apply octDigit_shape|lia].
  - destruct fuel as [|fuel]; [lia|]. simpl.
    replace (Z.of_nat (S k)) with (Z.succ (Z.of_nat k)) in Hn by lia.
    rewrite Z.pow_succ_r in Hn by lia.
    replace (Z.succ (Z.of_nat k) + 1) with (Z.succ (Z.of_nat k + 1)) in Hn by lia.
    rewrite Z.pow_succ_r in Hn by lia.
    assert (0 < 8 ^ Z.of_nat k) by (apply Z.pow_pos_nonneg; lia).
    destruct (Z.ltb_spec n 8); [lia|].
    destruct (IH fuel (n / 8)) as [Hlen Hdig]; [|lia|].
    { split; [apply Z.div_le_lower_bound; lia|apply Z.div_lt_upper_bound; lia]. }
    destruct (octDigit_shape (n mod 8)) as [Hlen1 Hdig1]; [apply Z.mod_pos_bound; lia|].
    rewrite length_app_string, octalDigits_app, Hlen, Hlen1, Hdig, Hdig1.
    split; [lia|done].
Qed.

Lemma format04o_window n :
  2048 ≤ n < 4096 →
  String.length (format04o n) = 4%nat ∧ octalDigits (format04o n) = true.
Proof.
  intros Hn. unfold format04o. destruct (Z.ltb_spec n 0); [lia|]. cbv zeta.
  destruct (octDigits_shape 3 (Z.to_nat (Z.log2 n)) n) as [Hlen Hdig].
  - simpl. lia.
  - assert (11 ≤ Z.log2 n); [|lia].
    apply Z.log2_le_pow2; simpl; lia.
  - unfold oct. rewrite Hlen. simpl. by split.
Qed.

Lemma format04o_length n : (4 ≤ String.length (format04o n))%nat.
Proof.
  unfold format04o. destruct (n <? 0); cbv zeta.
  - rewrite !length_app_string, length_zeros. simpl. lia.
  - rewrite length_app_string, length_zeros. lia.
Qed.

(** C3, as the code has it. When a symbol has been processed and its
    tuple holds a match with a canonical address, and no operand list of
    the catalog holds an entry twice, the catalog is the one before with
    every entry equal to the name of the symbol, in every operand list of
    every item of every variant of every symbol, replaced by one literal,
    and nothing else changed: one pass of replacement for the symbol. The
    literal is the address written in octal: read as an octal number it
    gives the address, it has at least four characters, and for an
    address from 4000 to 7777 (octal) it is exactly four octal digits.
    Without a match, or with -1 for the canonical address, the catalog is
    not changed. *)
Theorem placeholders_rewritten_once `{Machine} (symbol : string) (st st' : State) :
  operandsAreSets (cat st) = true →
  processSymbol symbol st = (Ok tt, st') →
  ∃ e, reg (mem st') !! symbol = Some e ∧
       (e_searchPattern e ≠ None → e_fixedFixed e ≠ -1 →
        ∃ lit, cat st' = specRewriteCatalog symbol lit (cat st) ∧
               readOct lit = e_fixedFixed e ∧
               (4 ≤ String.length lit)%nat ∧
               (2048 ≤ e_fixedFixed e < 4096 →
                String.length lit = 4%nat ∧ octalDigits lit = true)) ∧
       (e_searchPattern e = None ∨ e_fixedFixed e = -1 → cat st' = cat st).
Proof.
  intros Hnd (e & He & Hcat)%processSymbol_cat. exists e. split; [done|].
  split.
  - intros Hsp Hff. exists (format04o (e_fixedFixed e)).
    split; [|split; [apply readOct_format04o|split;
                     [apply format04o_length|apply format04o_window]]].
    rewrite Hcat, !bool_decide_eq_true_2 by done. simpl.
    by apply rewriteCatalog_NoDup.
  - intros [Hsp|Hff]; rewrite Hcat.
    + by rewrite (bool_decide_eq_false_2 (_ ≠ None)) by naive_solver.
    + rewrite (bool_decide_eq_false_2 (_ ≠ -1)) by naive_solver.
      by rewrite andb_false_r.
Qed.

(** C3, as stated, fails: where an operand list holds the name of the
    symbol twice, the first entry is replaced and the second stays. *)
Lemma repeated_placeholder_stays :
  let st' := (processSymbol (H := callMachine) "TARGET"
                (mkState (mkMem ∅ None) repeatedCatalog)).2 in
  reg (mem st') !! "TARGET"%string =
    Some (mkEntry 3 2 3074 (Some ("TARGET"%string, 0%nat)) "TARGET" (DWCount 0)) ∧
  cat st' =
    [ ("TARGET"%string, [targetVariant]);
      ("CALLER"%string,
       [mkSearchPattern [mkRange 3 (StartInt 0) 10]
          [mkItem true ["TC"] ["6002"; "TARGET"]]%string 2 false]) ] ∧
  cat st' ≠ specRewriteCatalog "TARGET" "6002" repeatedCatalog.
Proof.
  split; [vm_compute; reflexivity|]. split; [vm_compute; reflexivity|].
  vm_compute. discriminate.
Qed.

(** * The pattern as a relation on the instructions *)

Section MatchingFacts.
Context `{Machine}.

Lemma compatible_accepts item opcode operand :
  compatible item (Some (opcode, operand)) = Ok (accepts item opcode operand).
Proof.
  unfold compatible, accepts, emptyOrIn. simpl.
  destruct (bool_decide (length (desiredOpcodes item) = 0%nat)); simpl.
  - by destruct (bool_decide (length (desiredOperands item) = 0%nat)).
  - destruct (inList opcode (desiredOpcodes item)); simpl; [|done].
    by destruct (bool_decide (length (desiredOperands item) = 0%nat)).
Qed.

Lemma debugPrint_Some symbol d : debugPrint symbol (Some d) = Ok tt.
Proof. unfold debugPrint. by case_bool_decide. Qed.

Lemma fetch_Abs bank st o ext :
  Abs bank st o ext →
  match core bank o with
  | Raise e => fetch bank st = Raise e
  | Ok w =>
      let '(opcode, operand, ext') := disassembleBasic w ext in
      fetch bank st =
      Ok (mkFwd o (iPat st) ext' (lastOffset st) (Some (opcode, operand)))
  end.
Proof.
  intros [Ho [[Hne Hext]|[Heq (w & opc & opd & Hw & Hd & Hdec)]]]; unfold fetch.
  - rewrite bool_decide_eq_true_2 by done. rewrite Ho, Hext.
    destruct (core bank o) as [w|e]; simpl; [|done].
    by destruct (disassembleBasic w ext) as [[opc opd] ext'].
  - rewrite bool_decide_eq_false_2 by (intros ?; done).
    rewrite Hw, Hd. destruct st as [o1 i1 e1 l1 d1]. simpl in *. by subst.
Qed.

Lemma fwdIter_Abs symbol bank item st o ext :
  Abs bank st o ext →
  match core bank o with
  | Raise e => fwdIter symbol bank item st = Raise e
  | Ok w =>
      let '(opcode, operand, ext') := disassembleBasic w ext in
      if accepts item opcode operand then
        ∃ st1, fwdIter symbol bank item st = Ok (Next st1) ∧
               iPat st1 = S (iPat st) ∧ Abs bank st1 (o + 1) ext'
      else if required item then
        ∃ st1, fwdIter symbol bank item st = Ok (Stop st1) ∧ iPat st1 = iPat st
      else
        ∃ st1, fwdIter symbol bank item st = Ok (Next st1) ∧
               iPat st1 = S (iPat st) ∧ Abs bank st1 o ext
  end.
Proof.
  intros Habs. pose proof (fetch_Abs bank st o ext Habs) as Hf.
  unfold fwdIter. destruct (core bank o) as [w|e] eqn:Hw; [|by rewrite Hf].
  destruct (disassembleBasic w ext) as [[opc opd] ext'] eqn:Hd.
  rewrite Hf. simpl. rewrite debugPrint_Some. simpl.
  rewrite compatible_accepts. simpl.
  destruct (accepts item opc opd).
  - eexists. split; [done|]. split; [done|]. split; [done|]. left. simpl. split; [lia|done].
  - destruct (required item).
    + by eexists.
    + eexists. split; [done|]. split; [done|]. split; [done|]. right. simpl.
      split; [done|]. by exists w, opc, opd.
Qed.

Lemma forward_Matches symbol bank endingOffset items st st' o ext :
  Abs bank st o ext →
  forward symbol bank endingOffset items st = Ok st' →
  iPat st' = (iPat st + length items)%nat →
  Matches bank endingOffset items o ext (offset st').
Proof.
  revert st o ext. induction items as [|item rest IH]; intros st o ext Habs; simpl.
  - intros [= <-] _. destruct Habs as [<- _]. constructor.
  - case_bool_decide as Hlt; [|intros [= <-]; lia].
    pose proof (fwdIter_Abs symbol bank item st o ext Habs) as Hit.
    destruct (core bank o) as [w|e] eqn:Hw; [|by rewrite Hit].
    destruct (disassembleBasic w ext) as [[opc opd] ext'] eqn:Hd.
    assert (o < endingOffset) as Ho by (destruct Habs as [<- _]; done).
    destruct (accepts item opc opd) eqn:Hacc.
    + destruct Hit as (st1 & -> & Hi & Habs1). intros Hfw Hlen.
      eapply matches_take; [done..|]. eapply IH; [done..|lia].
    + destruct (required item) eqn:Hreq.
      * destruct Hit as (st1 & -> & Hi). intros [= <-]. lia.
      * destruct Hit as (st1 & -> & Hi & Habs1). intros Hfw Hlen.
        eapply matches_skip; [done..|]. eapply IH; [done..|lia].
Qed.

Lemma Matches_forward symbol bank endingOffset items st o ext o' :
  Abs bank st o ext →
  Matches bank endingOffset items o ext o' →
  ∃ st', forward symbol bank endingOffset items st = Ok st' ∧
         iPat st' = (iPat st + length items)%nat ∧ offset st' = o'.
Proof.
  intros Habs Hm. revert st Habs.
  induction Hm as [o ext|item rest o ext w opc opd ext' o' Ho Hw Hd Hacc _ IH
                  |item rest o ext w opc opd ext' o' Ho Hw Hd Hreq Hacc _ IH];
    intros st Habs; simpl.
  - exists st. split; [done|]. split; [lia|]. by destruct Habs.
  - rewrite bool_decide_eq_true_2 by (destruct Habs as [-> _]; done).
    pose proof (fwdIter_Abs symbol bank item st o ext Habs) as Hit.
    rewrite Hw, Hd, Hacc in Hit. destruct Hit as (st1 & -> & Hi & Habs1).
    destruct (IH st1 Habs1) as (st' & Hfw & Hlen & Hoff).
    exists st'. split; [done|]. split; [lia|done].
  - rewrite bool_decide_eq_true_2 by (destruct Habs as [-> _]; done).
    pose proof (fwdIter_Abs symbol bank item st o ext Habs) as Hit.
    rewrite Hw, Hd, Hacc, Hreq in Hit. destruct Hit as (st1 & -> & Hi & Habs1).
    destruct (IH st1 Habs1) as (st' & Hfw & Hlen & Hoff).
    exists st'. split; [done|]. split; [lia|done].
Qed.

Lemma tryOffset_Matches symbol ref sp bank startingOffset endingOffset T s i0 s' :
  T ≠ -1 →
  seekRequired (pattern sp) 0 = Ok i0 →
  tryOffset symbol ref sp bank startingOffset endingOffset T s = (Ok true, s') →
  ∃ o', Matches bank endingOffset (drop i0 (pattern sp)) T false o'.
Proof.
  intros HT Hseek (i1 & st & Hseek1 & Hfw & Hlen & _)%tryOffset_found_inv.
  rewrite Hseek in Hseek1. injection Hseek1 as <-.
  pose proof (seekRequired_lt _ _ Hseek) as Hi0.
  exists (offset st). eapply forward_Matches; [|done|].
  - split; [done|]. left. simpl. split; [lia|done].
  - simpl. rewrite length_drop.
    apply forward_iPat in Hfw as [Hi _]. simpl in Hi. rewrite length_drop in Hi. lia.
Qed.

Lemma Matches_tryOffset symbol ref sp bank startingOffset endingOffset T s i0 o' :
  T ≠ -1 →
  seekRequired (pattern sp) 0 = Ok i0 →
  Matches bank endingOffset (drop i0 (pattern sp)) T false o' →
  (tryOffset symbol ref sp bank startingOffset endingOffset T s).1 ≠ Ok false ∧
  ∃ e, reg (tryOffset symbol ref sp bank startingOffset endingOffset T s).2
         !! symbol = Some e ∧
       e_searchPattern e = Some ref ∧ e_bank e = bank.
Proof.
  intros HT Hseek Hm.
  assert (Abs bank (mkFwd T i0 false (-1) (loc s)) T false) as Habs.
  { split; [done|]. left. simpl. split; [lia|done]. }
  pose proof (seekRequired_lt _ _ Hseek) as Hi0.
  destruct (Matches_forward symbol _ _ _ _ _ _ _ Habs Hm) as (st' & Hfw & Hlen & _).
  simpl in Hlen. rewrite length_drop in Hlen.
  unfold tryOffset. rewrite Hseek, Hfw.
  rewrite bool_decide_eq_true_2 by lia.
  destruct (backward _ _ _ _ _ _ _ _) as [res s3] eqn:Hb.
  assert (∃ e, reg s3 !! symbol = Some e ∧ e_searchPattern e = Some ref ∧
               e_bank e = bank) as He.
  { apply backward_reg in Hb as [->|(o & _ & ->)]; simpl;
      rewrite lookup_insert_eq; by eexists. }
  destruct res as [[]|e]; simpl; (split; [done|exact He]).
Qed.

(** X13. A candidate is a match exactly when the instructions from it on,
    each disassembled once with the flag that the one before it left,
    satisfy the items of the pattern from the first required one on: a
    match that the search reports is one, and where there is one the search
    does not pass the candidate by but stores a tuple for it. *)
Theorem match_iff_pattern_satisfied (symbol : string) (ref : VariantRef)
    (sp : SearchPattern) (bank startingOffset endingOffset T : Z) (s : Mem)
    (i0 : nat) :
  T ≠ -1 →
  seekRequired (pattern sp) 0 = Ok i0 →
  (∀ s', tryOffset symbol ref sp bank startingOffset endingOffset T s = (Ok true, s') →
         ∃ o', Matches bank endingOffset (drop i0 (pattern sp)) T false o') ∧
  (∀ o', Matches bank endingOffset (drop i0 (pattern sp)) T false o' →
         (tryOffset symbol ref sp bank startingOffset endingOffset T s).1 ≠ Ok false ∧
         ∃ e, reg (tryOffset symbol ref sp bank startingOffset endingOffset T s).2
                !! symbol = Some e ∧
              e_searchPattern e = Some ref ∧ e_bank e = bank).
Proof.
  intros HT Hseek. split.
  - intros s' Htry. by eapply tryOffset_Matches.
  - intros o' Hm. by eapply Matches_tryOffset.
Qed.

Lemma pyRange_cons a b : a < b → pyRange a b = a :: pyRange (a + 1) b.
Proof.
  intros Hab. unfold pyRange.
  replace (Z.to_nat (b - a)) with (S (Z.to_nat (b - (a + 1)))) by lia.
  cbn [seq map]. f_equal; [lia|].
  rewrite <- seq_shift, map_map. apply map_ext. intros i. lia.
Qed.

Lemma forOffsets_least symbol ref sp bank start endingOffset i0 n a s :
  seekRequired (pattern sp) 0 = Ok i0 →
  coreCovers bank endingOffset →
  0 ≤ start ≤ a → a + Z.of_nat n = endingOffset ∨ (n = 0%nat ∧ endingOffset ≤ a) →
  ∃ b s', forOffsets symbol ref sp bank start endingOffset (pyRange a endingOffset) s
          = (Ok b, s') ∧
    if b then
      ∃ T, a ≤ T < endingOffset ∧
           (∃ o', Matches bank endingOffset (drop i0 (pattern sp)) T false o') ∧
           (∀ T', a ≤ T' < T →
                  ¬ ∃ o', Matches bank endingOffset (drop i0 (pattern sp)) T' false o') ∧
           Stored symbol ref sp bank start T (reg s) (reg s')
    else
      reg s' = reg s ∧
      ∀ T, a ≤ T < endingOffset →
           ¬ ∃ o', Matches bank endingOffset (drop i0 (pattern sp)) T false o'.
Proof.
  intros Hseek Hcore. revert a s.
  assert (existsb required (pattern sp) = true) as Hreq.
  { apply seekRequired_Ok in Hseek as (k & p & _ & Hp & Hrp & _).
    apply existsb_exists. exists p. split; [|done].
    apply list_elem_of_In. by apply list_elem_of_lookup_2 in Hp. }
  induction n as [|n IH]; intros a s Ha Hn.
  - rewrite pyRange_empty by lia. exists false, s. split; [done|]. split; [done|].
    intros T HT. lia.
  - destruct Hn as [Hn|[? _]]; [|done].
    rewrite pyRange_cons by lia. unfold forOffsets. cbn [untilFound].
    destruct (tryOffset_total symbol ref sp bank start endingOffset a s Hreq Hcore)
      as (b & s1 & Htry); [lia|lia|].
    rewrite Htry. destruct b.
    + exists true, s1. split; [done|]. exists a. split; [lia|]. split.
      * eapply tryOffset_Matches; [lia|done..].
      * split; [intros T' ?; lia|]. by apply tryOffset_reg in Htry.
    + assert (¬ ∃ o', Matches bank endingOffset (drop i0 (pattern sp)) a false o') as Hno.
      { intros [o' Hm].
        destruct (Matches_tryOffset symbol ref sp bank start endingOffset a s i0 o')
          as [Hne _]; [lia|done..|]. by rewrite Htry in Hne. }
      pose proof (tryOffset_reg _ _ _ _ _ _ _ _ _ _ Htry) as Hreg. simpl in Hreg.
      destruct (IH (a + 1) s1) as (b & s' & Hrest & Hres); [lia|left; lia|].
      exists b, s'. split; [exact Hrest|]. destruct b.
      * destruct Hres as (T & HT & Hhit & Hleast & Hst).
        exists T. split; [lia|]. split; [done|]. split; [|by rewrite <- Hreg].
        intros T' HT'. destruct (decide (T' = a)) as [->|Hne]; [done|].
        apply Hleast. lia.
      * destruct Hres as [Hr Hnone]. split; [by rewrite Hr|].
        intros T HT. destruct (decide (T = a)) as [->|Hne]; [done|].
        apply Hnone. lia.
Qed.

(** X14. In a range that the address space covers, the search is
    exhaustive and takes the lowest candidate: it finds a match exactly
    when some offset of the range satisfies the pattern, the candidate of
    the match is the least such offset, and the offset that it stores is
    this candidate or, after the backward phase, one between the start of
    the range and it. *)
Theorem range_search_finds_least (symbol : string) (n : nat) (sp : SearchPattern)
    (rg : Range) (s : Mem) (start : Z) (i0 : nat) :
  seekRequired (pattern sp) 0 = Ok i0 →
  resolveStart (reg s) (r_start rg) = Ok start →
  0 ≤ start →
  coreCovers (r_bank rg) (r_end rg) →
  ∃ b s', searchRange symbol (symbol, n) sp rg s = (Ok b, s') ∧
    if b then
      ∃ T, start ≤ T < r_end rg ∧
           (∃ o', Matches (r_bank rg) (r_end rg) (drop i0 (pattern sp)) T false o') ∧
           (∀ T', start ≤ T' < T →
              ¬ ∃ o', Matches (r_bank rg) (r_end rg) (drop i0 (pattern sp)) T' false o') ∧
           Stored symbol (symbol, n) sp (r_bank rg) start T (reg s) (reg s')
    else
      reg s' = reg s ∧
      ∀ T, start ≤ T < r_end rg →
           ¬ ∃ o', Matches (r_bank rg) (r_end rg) (drop i0 (pattern sp)) T false o'.
Proof.
  intros Hseek Hstart Hpos Hcore. unfold searchRange. rewrite Hstart.
  apply (forOffsets_least symbol (symbol, n) sp (r_bank rg) start (r_end rg) i0
           (Z.to_nat (r_end rg - start)) start s Hseek Hcore); [lia|].
  destruct (decide (start ≤ r_end rg)); [left; lia|right; lia].
Qed.


End MatchingFacts.

(** X15. Whatever its outcome, a scan leaves the tuples of the symbols
    that are not in the catalog as they were. *)
Theorem scan_touches_only_catalog_symbols `{Machine} (searchPatterns : Catalog)
    (registry : Registry) (k : string) :
  k ∉ map fst searchPatterns →
  reg (mem (searchSpecial searchPatterns registry).2) !! k = registry !! k.
Proof.
  intros Hk.
  destruct (searchSpecial searchPatterns registry) as [res st] eqn:Hrun.
  unfold searchSpecial in Hrun.
  simpl. by rewrite (forSymbols_frame _ _ _ _ _ Hrun Hk).
Qed.

(** * Properties of the import *)

(** ** The string methods *)

Lemma prefix_char c x s :
  String.prefix (String c EmptyString) (String x s) = bool_decide (x = c).
Proof.
  simpl. destruct (ascii_dec c x) as [->|Hne].
  - rewrite bool_decide_eq_true_2 by done. by destruct s.
  - by rewrite bool_decide_eq_false_2 by (intros ->; done).
Qed.

Lemma split_char_cons c x s :
  split (String c EmptyString) (String x s) =
  if bool_decide (x = c) then EmptyString :: split (String c EmptyString) s
  else match split (String c EmptyString) s with
       | f :: fs => String x f :: fs
       | [] => [String x EmptyString]
       end.
Proof.
  unfold split. cbn [splitGo]. rewrite prefix_char. by case_bool_decide.
Qed.

Lemma contains_cons sep c s :
  contains sep (String c s) = false →
  String.prefix sep (String c s) = false ∧ contains sep s = false.
Proof. cbn [contains]. by intros [? ?]%orb_false_iff. Qed.

Lemma split_absent sep s : contains sep s = false → split sep s = [s].
Proof.
  unfold split. induction s as [|c s IH]; [done|].
  intros [Hp Hc]%contains_cons. cbn [splitGo]. rewrite Hp. by rewrite IH.
Qed.

Lemma contains_dropStr sep n s :
  contains sep s = false → contains sep (dropStr n s) = false.
Proof.
  revert s. induction n as [|n IH]; intros s; [done|].
  destruct s as [|c s]; [done|]. intros [_ Hc]%contains_cons. by apply IH.
Qed.

Lemma contains_char_count c s :
  contains (String c EmptyString) s = false ↔ countChar c s = 0%nat.
Proof.
  induction s as [|x s IH]; [done|].
  cbn [contains countChar]. rewrite prefix_char, orb_false_iff, IH.
  destruct (bool_decide (x = c)).
  - split; [by intros [? _]|lia].
  - split; [intros [_ ?]; lia|intros ?; split; [done|lia]].
Qed.

Lemma lastIs_cons c x y s : lastIs c (String x (String y s)) = lastIs c (String y s).
Proof. done. Qed.

Lemma split_char_second c s f0 f1 rest :
  split (String c EmptyString) s = f0 :: f1 :: rest →
  (countChar c s ≤ 1)%nat →
  rest = [] ∧ ∀ z, lastIs z f1 = true → lastIs z s = true.
Proof.
  revert f0. induction s as [|x s IH]; intros f0; [done|].
  rewrite split_char_cons. cbn [countChar]. case_bool_decide as Hx.
  - intros [= <- Hs] Hcount.
    assert (countChar c s = 0%nat) as Hzero by lia.
    apply contains_char_count, split_absent in Hzero. rewrite Hzero in Hs.
    injection Hs as <- <-. split; [done|]. intros z Hz.
    destruct s as [|y s]; [done|]. by rewrite lastIs_cons.
  - destruct (split (String c EmptyString) s) as [|f fs] eqn:Hs; [done|].
    intros [= <- ->] Hcount.
    destruct (IH f eq_refl ltac:(lia)) as [-> Hlast]. split; [done|].
    intros z Hz. destruct s as [|y s]; [done|]. rewrite lastIs_cons. by apply Hlast.
Qed.

Lemma countChar_lstrip c s : (countChar c (lstrip s) ≤ countChar c s)%nat.
Proof.
  induction s as [|x s IH]; [done|]. cbn [lstrip].
  destruct (isSpace x); [cbn [countChar]; lia|done].
Qed.

Lemma countChar_rstrip c s : (countChar c (rstrip s) ≤ countChar c s)%nat.
Proof.
  induction s as [|x s IH]; [done|]. cbn [rstrip].
  destruct (rstrip s) as [|y r].
  - destruct (isSpace x); cbn [countChar] in *; lia.
  - cbn [countChar] in *. lia.
Qed.

Lemma countChar_removeChar c d s : (countChar c (removeChar d s) ≤ countChar c s)%nat.
Proof.
  induction s as [|x s IH]; [done|]. cbn [removeChar].
  case_bool_decide; cbn [countChar]; lia.
Qed.

Lemma countChar_dropLast c s : (countChar c (dropLast s) ≤ countChar c s)%nat.
Proof.
  induction s as [|x s IH]; [done|]. cbn [dropLast].
  destruct s as [|y s]; [cbn [countChar]; lia|].
  cbn [countChar] in *. lia.
Qed.

Lemma countChar_normalize c raw : (countChar c (normalize raw) ≤ countChar c raw)%nat.
Proof.
  unfold normalize, strip.
  pose proof (countChar_lstrip c raw).
  pose proof (countChar_rstrip c (lstrip raw)).
  pose proof (countChar_removeChar c " " (rstrip (lstrip raw))).
  pose proof (countChar_dropLast c (removeChar " " (rstrip (lstrip raw)))).
  destruct (lastIs _ _); lia.
Qed.

Lemma elem_of_dictSet {V : Type} (d : list (string * V)) k0 v k w :
  (k, w) ∈ dictSet d k0 v → (k, w) ∈ d ∨ (k = k0 ∧ w = v).
Proof.
  induction d as [|[k1 v1] d IH]; simpl.
  - intros [[= -> ->]|[]%elem_of_nil]%elem_of_cons. by right.
  - case_bool_decide as Hk.
    + intros [[= -> ->]|Hin]%elem_of_cons; [by right|]. left. by right.
    + intros [[= -> ->]|Hin]%elem_of_cons; [left; by left|].
      destruct (IH Hin) as [?|?]; [left; by right|by right].
Qed.

(** ** The loop over the lines *)

Section ImportFacts.
Context `{Interp}.

Lemma importLines_inv (P : Import → Prop) lines st :
  (∀ raw st1 st2, raw ∈ lines → P st1 → flexLine raw st1 = FOk st2 → P st2) →
  P st → P (importLines lines st).2.
Proof.
  intros Hstep. revert st. induction lines as [|raw rest IH]; intros st HP; simpl.
  - done.
  - destruct (flexLine raw st) as [st'|e] eqn:Hline; simpl; [|done].
    apply IH.
    + intros raw1 st1 st2 Hin. apply Hstep. by right.
    + eapply Hstep; [by left|done..].
Qed.

Lemma rangeFields_keeps fields d d' (P : FlexDict → Prop) :
  (∀ fd ns, P fd → P (mkFlexDict (fd_dataWords fd) (fd_noReturn fd) (fd_pattern fd)
                                 (fd_ranges fd ++ [ns]))) →
  rangeFields fields d = FOk d' →
  (∀ fd, d = Some fd → P fd) → ∀ fd', d' = Some fd' → P fd'.
Proof.
  intros HP. revert d. induction fields as [|field rest IH]; intros d; simpl.
  - intros [= <-]. done.
  - destruct (rangeNumbers _) as [ns|e]; simpl; [|done].
    destruct d as [fd|]; simpl; [|done].
    intros Hrest Hd. eapply IH; [done|]. intros fd0 [= <-]. apply HP. by apply Hd.
Qed.

(** What a line does to the dictionary under construction and to the
    catalog, for a property [P] of dictionaries that the appending of an
    item or of a range keeps and that the setting of the data-word count
    keeps. *)
Lemma flexLine_dict (P : FlexDict → Prop) (Q : string → list FlexDict → Prop) raw st st' :
  (∀ fd ns, P fd → P (mkFlexDict (fd_dataWords fd) (fd_noReturn fd) (fd_pattern fd)
                                 (fd_ranges fd ++ [ns]))) →
  (∀ fd item, P fd → P (mkFlexDict (fd_dataWords fd) (fd_noReturn fd)
                                   (fd_pattern fd ++ [item]) (fd_ranges fd))) →
  (∀ fd n, P fd → P (mkFlexDict n (fd_noReturn fd) (fd_pattern fd) (fd_ranges fd))) →
  P (mkFlexDict 0 false [] []) →
  (∀ fd f1, P fd → im_count st + 1 = 3 →
            second (split ":" (normalize raw)) = FOk f1 →
            P (mkFlexDict (fd_dataWords fd) (bool_decide (f1 = "True,"%string))
                          (fd_pattern fd) (fd_ranges fd))) →
  (∀ k fd, P fd → Q k [fd]) →
  flexLine raw st = FOk st' →
  (∀ fd, im_flexDict st = Some fd → P fd) →
  (∀ k ds, (k, ds) ∈ im_searchPatterns st → Q k ds) →
  (∀ fd, im_flexDict st' = Some fd → P fd) ∧
  (∀ k ds, (k, ds) ∈ im_searchPatterns st' → Q k ds).
Proof.
  intros HPr HPi HPn HP0 HP3 HQ Hline Hfd Hcat. unfold flexLine in Hline.
  case_bool_decide as H1.
  { destruct (split ":" (normalize raw)) as [|f0 fs]; [done|].
    injection Hline as <-. simpl. split; [by intros fd [= <-]|done]. }
  case_bool_decide as H2.
  { destruct (second _) as [f1|]; simpl in Hline; [|done].
    destruct (int _ _); simpl in Hline; [|done].
    destruct (im_flexDict st) as [fd|]; simpl in Hline; [|done].
    injection Hline as <-. simpl. split; [|done].
    intros fd' [= <-]. by apply HPn, Hfd. }
  case_bool_decide as H3.
  { destruct (second _) as [f1|] eqn:Hf1; simpl in Hline; [|done].
    destruct (im_flexDict st) as [fd|]; simpl in Hline; [|done].
    injection Hline as <-. simpl. split; [|done].
    intros fd' [= <-]. apply HP3; [by apply Hfd|done..]. }
  case_bool_decide as H4.
  { injection Hline as <-. simpl. split; done. }
  destruct (im_inPatterns st).
  { case_bool_decide as Hend.
    - injection Hline as <-. simpl. split; done.
    - destruct (patternLine _) as [item|]; simpl in Hline; [|done].
      destruct (im_flexDict st) as [fd|]; simpl in Hline; [|done].
      injection Hline as <-. simpl. split; [|done].
      intros fd' [= <-]. by apply HPi, Hfd. }
  case_bool_decide as Hclose.
  { destruct (im_flexDict st) as [fd|] eqn:Hd; simpl in Hline; [|done].
    destruct (im_symbol st) as [symbol|]; simpl in Hline; [|done].
    injection Hline as <-. simpl. split; [done|].
    intros k ds [Hin|[-> ->]]%elem_of_dictSet; [by eapply Hcat|].
    by apply HQ, Hfd. }
  destruct (second _) as [f1|]; simpl in Hline; [|done].
  destruct (rangeFields _ _) as [d|] eqn:Hr; simpl in Hline; [|done].
  injection Hline as <-. simpl. split; [|done].
  by eapply rangeFields_keeps.
Qed.

Lemma flexLine_cat raw st st' :
  flexLine raw st = FOk st' →
  im_searchPatterns st' = im_searchPatterns st ∨
  (normalize raw = "}]"%string ∧
   ∃ symbol fd, im_symbol st = Some symbol ∧ im_flexDict st = Some fd ∧
                im_searchPatterns st' = dictSet (im_searchPatterns st) symbol [fd]).
Proof.
  unfold flexLine. intros Hline.
  case_bool_decide as H1.
  { destruct (split ":" (normalize raw)) as [|f0 fs]; [done|].
    injection Hline as <-. by left. }
  case_bool_decide as H2.
  { destruct (second _) as [f1|]; simpl in Hline; [|done].
    destruct (int _ _); simpl in Hline; [|done].
    destruct (im_flexDict st) as [fd|]; simpl in Hline; [|done].
    injection Hline as <-. by left. }
  case_bool_decide as H3.
  { destruct (second _) as [f1|] eqn:Hf1; simpl in Hline; [|done].
    destruct (im_flexDict st) as [fd|]; simpl in Hline; [|done].
    injection Hline as <-. by left. }
  case_bool_decide as H4.
  { injection Hline as <-. by left. }
  destruct (im_inPatterns st).
  { case_bool_decide as Hend.
    - injection Hline as <-. by left.
    - destruct (patternLine _) as [item|]; simpl in Hline; [|done].
      destruct (im_flexDict st) as [fd|]; simpl in Hline; [|done].
      injection Hline as <-. by left. }
  case_bool_decide as Hclose.
  { destruct (im_flexDict st) as [fd|] eqn:Hd; simpl in Hline; [|done].
    destruct (im_symbol st) as [symbol|]; simpl in Hline; [|done].
    injection Hline as <-. right. split; [done|]. by exists symbol, fd. }
  destruct (second _) as [f1|]; simpl in Hline; [|done].
  destruct (rangeFields _ _) as [d|] eqn:Hr; simpl in Hline; [|done].
  injection Hline as <-. by left.
Qed.

Lemma dictSet_keys {V : Type} (d : list (string * V)) k v :
  map fst d `prefix_of` map fst (dictSet d k v).
Proof.
  induction d as [|[k1 v1] d IH]; simpl; [apply prefix_nil|].
  case_bool_decide as Hk; simpl.
  - by subst k1.
  - by apply prefix_cons.
Qed.

(** X16. Under lines with at most one colon each and at most one comma at
    their end, which is how a pattern file is laid out, the import never
    sets the flag [noReturn]: every variant that it stores has it false,
    whatever the file says. *)
Theorem noReturn_flag_lost (lines : list string) (searchPatterns : FlexCatalog)
    (k : string) (ds : list FlexDict) :
  (∀ raw, raw ∈ lines →
          (countChar ":" raw ≤ 1)%nat ∧ lastIs "," (normalize raw) = false) →
  (k, ds) ∈ (importFlexFile lines searchPatterns).2 →
  (k, ds) ∈ searchPatterns ∨ ∃ fd, ds = [fd] ∧ fd_noReturn fd = false.
Proof.
  intros Hlines. revert k ds. unfold importFlexFile. simpl.
  apply (importLines_inv
    (λ st, (∀ fd, im_flexDict st = Some fd → fd_noReturn fd = false) ∧
           (∀ k ds, (k, ds) ∈ im_searchPatterns st →
                    (k, ds) ∈ searchPatterns ∨ ∃ fd, ds = [fd] ∧ fd_noReturn fd = false))).
  - intros raw st1 st2 Hraw [Hfd Hcat] Hline.
    destruct (Hlines raw Hraw) as [Hcolon Hcomma].
    eapply (flexLine_dict (λ fd, fd_noReturn fd = false)); try done.
    + intros fd f1 _ _ Hf1. simpl. apply bool_decide_eq_false_2. intros ->.
      unfold second in Hf1.
      destruct (split ":" (normalize raw)) as [|f0 [|f1 rest]] eqn:Hs; [done..|].
      injection Hf1 as ->.
      apply split_char_second in Hs as [_ Hlast].
      * by rewrite (Hlast ","%char eq_refl) in Hcomma.
      * pose proof (countChar_normalize ":" raw). lia.
    + intros k fd Hfd'. right. by exists fd.
  - split; [done|]. simpl. intros k ds Hin. by left.
Qed.

(** X17. Whatever the file holds and whether or not the import ends with
    an exception, every entry of the catalog that it leaves is an entry
    that was there or a list of exactly one variant, and the symbols that
    were there keep their places: the new ones come after them. *)
Theorem import_stores_single_variants (lines : list string)
    (searchPatterns : FlexCatalog) :
  let after := (importFlexFile lines searchPatterns).2 in
  (∀ k ds, (k, ds) ∈ after → (k, ds) ∈ searchPatterns ∨ ∃ fd, ds = [fd]) ∧
  map fst searchPatterns `prefix_of` map fst after.
Proof.
  unfold importFlexFile. simpl.
  apply (importLines_inv
    (λ st, (∀ k ds, (k, ds) ∈ im_searchPatterns st →
                    (k, ds) ∈ searchPatterns ∨ ∃ fd, ds = [fd]) ∧
           map fst searchPatterns `prefix_of` map fst (im_searchPatterns st))).
  - intros raw st1 st2 _ [Hcat Hkeys] Hline.
    apply flexLine_cat in Hline as [->|(_ & symbol & fd & _ & _ & ->)]; [done|].
    split.
    + intros k ds [Hin|[-> ->]]%elem_of_dictSet; [by apply Hcat|]. right. by exists fd.
    + etrans; [exact Hkeys|]. apply dictSet_keys.
  - split; [|done]. intros k ds Hin. by left.
Qed.

(** X18. Only a line that reads [}]], blanks and one last comma aside,
    stores a variant: a file without such a line leaves the catalog as it
    was, whatever else it holds and however the import ends. *)
Theorem import_needs_closing_line (lines : list string)
    (searchPatterns : FlexCatalog) :
  (∀ raw, raw ∈ lines → normalize raw ≠ "}]"%string) →
  (importFlexFile lines searchPatterns).2 = searchPatterns.
Proof.
  intros Hlines. unfold importFlexFile. simpl.
  apply (importLines_inv (λ st, im_searchPatterns st = searchPatterns)); [|done].
  intros raw st1 st2 Hraw Hcat Hline.
  apply flexLine_cat in Hline as [->|[Hclose _]]; [done|].
  by apply Hlines in Hraw.
Qed.

Lemma second_absent sep s :
  contains sep s = false → second (split sep s) = FRaise FlexIndexError.
Proof. intros Hs. by rewrite split_absent. Qed.

(** X19. A line that has to hold a second field and has no separator ends
    the import with an [IndexError], the variables and the catalog being as the
    lines before it have left them: the second and the third line of a record and a line
    of ranges without a colon, and a line of the pattern that is not the
    closing bracket and has no ["],["]. An empty line is one of them. *)
Theorem missing_field_raises (raw : string) (rest : list string) (st : Import) :
  (im_count st = 1 ∨ im_count st = 2) ∧ countChar ":" (normalize raw) = 0%nat ∨
  4 ≤ im_count st ∧ im_inPatterns st = true ∧ normalize raw ≠ "]"%string ∧
    contains "],[" (normalize raw) = false ∨
  4 ≤ im_count st ∧ im_inPatterns st = false ∧ normalize raw ≠ "}]"%string ∧
    countChar ":" (normalize raw) = 0%nat →
  importLines (raw :: rest) st = (FRaise FlexIndexError, st).
Proof.
  intros Hcase. simpl.
  assert (flexLine raw st = FRaise FlexIndexError) as ->; [|done].
  unfold flexLine.
  destruct Hcase as [[Hcount Hcolon]|[(Hcount & Hin & Hend & Hsep)|(Hcount & Hin & Hend & Hcolon)]].
  - apply contains_char_count in Hcolon.
    rewrite bool_decide_eq_false_2 by lia.
    destruct Hcount as [Hcount|Hcount].
    + rewrite bool_decide_eq_true_2 by lia. by rewrite second_absent.
    + rewrite bool_decide_eq_false_2 by lia.
      rewrite bool_decide_eq_true_2 by lia. by rewrite second_absent.
  - rewrite !bool_decide_eq_false_2 by lia. rewrite Hin.
    rewrite bool_decide_eq_false_2 by done.
    unfold patternLine. rewrite split_absent by by apply contains_dropStr. done.
  - apply contains_char_count in Hcolon.
    rewrite !bool_decide_eq_false_2 by lia. rewrite Hin.
    rewrite bool_decide_eq_false_2 by done. by rewrite second_absent.
Qed.

Lemma rangeNumbers_raises rangeFields e :
  rangeNumbers rangeFields = FRaise e → e = FlexValueError.
Proof.
  induction rangeFields as [|x rest IH]; simpl; [done|].
  unfold int. destruct (pyInt _ _); simpl; [|by intros [= <-]].
  destruct (rangeNumbers rest); simpl; [done|]. intros [= <-]. by apply IH.
Qed.

Lemma rangeFields_bound fields d :
  is_Some d →
  match rangeFields fields d with
  | FOk d' => is_Some d'
  | FRaise e => e = FlexValueError
  end.
Proof.
  revert d. induction fields as [|field rest IH]; intros d Hd; simpl; [done|].
  destruct (rangeNumbers _) as [ns|e] eqn:Hns; simpl; [|by eapply rangeNumbers_raises].
  destruct Hd as [fd ->]. simpl. by apply IH.
Qed.

Lemma second_raises fields e : second fields = FRaise e → e = FlexIndexError.
Proof. destruct fields as [|f0 [|f1 fs]]; simpl; by intros [= <-]. Qed.

Lemma flexLine_bound raw st :
  0 ≤ im_count st →
  (1 ≤ im_count st → is_Some (im_symbol st) ∧ is_Some (im_flexDict st)) →
  match flexLine raw st with
  | FOk st' =>
      0 ≤ im_count st' ∧
      (1 ≤ im_count st' → is_Some (im_symbol st') ∧ is_Some (im_flexDict st'))
  | FRaise e => e ≠ FlexUnboundLocalError
  end.
Proof.
  intros Hcount Hbound. unfold flexLine.
  case_bool_decide as H1.
  { destruct (split ":" (normalize raw)) as [|f0 fs]; [done|]. simpl.
    split; [lia|]. by split. }
  destruct Hbound as [[symbol Hsym] [fd Hfd]]; [lia|]. rewrite Hsym, Hfd.
  case_bool_decide as H2.
  { destruct (second _) as [f1|e] eqn:Hsecond; simpl;
      [|by apply second_raises in Hsecond as ->].
    unfold int. destruct (pyInt _ _); simpl; [|done]. split; [lia|]. by split. }
  case_bool_decide as H3.
  { destruct (second _) as [f1|e] eqn:Hsecond; simpl;
      [|by apply second_raises in Hsecond as ->]. split; [lia|]. by split. }
  case_bool_decide as H4.
  { simpl. split; [lia|]. by split. }
  destruct (im_inPatterns st).
  { case_bool_decide as Hend; simpl; [split; [lia|]; by split|].
    destruct (patternLine _) as [item|e] eqn:Hitem; simpl.
    - split; [lia|]. by split.
    - unfold patternLine in Hitem.
      destruct (split _ _) as [|f0 [|f1 fs]]; [| |done]; by injection Hitem as <-. }
  case_bool_decide as Hclose.
  { simpl. split; [lia|]. intros ?. lia. }
  destruct (second _) as [f1|e] eqn:Hsecond; simpl;
      [|by apply second_raises in Hsecond as ->].
  pose proof (rangeFields_bound (split "],[" f1) (Some fd) ltac:(done)) as Hr.
  destruct (rangeFields _ _) as [d|e]; simpl; [|by subst e].
  split; [lia|]. by split.
Qed.

(** X20. The import never reads [symbol] or [flexDict] before the first
    line of a record has bound them: it raises no [UnboundLocalError]. *)
Theorem import_never_unbound (lines : list string) (searchPatterns : FlexCatalog) :
  (importFlexFile lines searchPatterns).1 ≠ FRaise FlexUnboundLocalError.
Proof.
  unfold importFlexFile. simpl.
  assert (∀ st, 0 ≤ im_count st →
            (1 ≤ im_count st → is_Some (im_symbol st) ∧ is_Some (im_flexDict st)) →
            (importLines lines st).1 ≠ FRaise FlexUnboundLocalError) as Hloop.
  { induction lines as [|raw rest IH]; intros st Hcount Hbound; simpl; [done|].
    pose proof (flexLine_bound raw st Hcount Hbound) as Hline.
    destruct (flexLine raw st) as [st'|e]; simpl.
    - destruct Hline as [Hcount' Hbound']. by apply IH.
    - by intros [= ->]. }
  apply Hloop; simpl; [lia|]. intros ?. lia.
Qed.

Lemma flexLine_first raw st :
  im_count st = 0 →
  flexLine raw st =
  flexLine raw (mkImport 0 (im_inPatterns st) None None (im_searchPatterns st)).
Proof. intros Hcount. unfold flexLine. simpl. rewrite Hcount. done. Qed.

Lemma flexLine_count raw st st' :
  flexLine raw st = FOk st' →
  0 ≤ im_count st → (im_count st = 0 → im_inPatterns st = false) →
  0 ≤ im_count st' ∧ (im_count st' = 0 → im_inPatterns st' = false).
Proof.
  unfold flexLine. intros Hline Hcount Hzero.
  case_bool_decide as H1.
  { destruct (split ":" (normalize raw)) as [|f0 fs]; [done|].
    injection Hline as <-. simpl. split; [lia|]. intros ?. lia. }
  case_bool_decide as H2.
  { destruct (second _) as [f1|]; simpl in Hline; [|done].
    destruct (int _ _); simpl in Hline; [|done].
    destruct (im_flexDict st) as [fd|]; simpl in Hline; [|done].
    injection Hline as <-. simpl. split; [lia|]. intros ?. lia. }
  case_bool_decide as H3.
  { destruct (second _) as [f1|] eqn:Hf1; simpl in Hline; [|done].
    destruct (im_flexDict st) as [fd|]; simpl in Hline; [|done].
    injection Hline as <-. simpl. split; [lia|]. intros ?. lia. }
  case_bool_decide as H4.
  { injection Hline as <-. simpl. split; [lia|]. intros ?. lia. }
  destruct (im_inPatterns st).
  { case_bool_decide as Hend.
    - injection Hline as <-. simpl. split; [lia|done].
    - destruct (patternLine _) as [item|]; simpl in Hline; [|done].
      destruct (im_flexDict st) as [fd|]; simpl in Hline; [|done].
      injection Hline as <-. simpl. split; [lia|]. intros ?. lia. }
  case_bool_decide as Hclose.
  { destruct (im_flexDict st) as [fd|] eqn:Hd; simpl in Hline; [|done].
    destruct (im_symbol st) as [symbol|]; simpl in Hline; [|done].
    injection Hline as <-. simpl. split; [lia|done]. }
  destruct (second _) as [f1|]; simpl in Hline; [|done].
  destruct (rangeFields _ _) as [d|] eqn:Hr; simpl in Hline; [|done].
  injection Hline as <-. simpl. split; [lia|done].
Qed.

Lemma importLines_app lines1 lines2 st st1 :
  importLines lines1 st = (FOk tt, st1) →
  importLines (lines1 ++ lines2) st = importLines lines2 st1.
Proof.
  revert st. induction lines1 as [|raw rest IH]; intros st; simpl.
  - by intros [= <-].
  - destruct (flexLine raw st) as [st'|e]; [|done]. apply IH.
Qed.

Lemma importLines_first lines st :
  im_count st = 0 →
  importLines lines st =
  match lines with
  | [] => (FOk tt, st)
  | raw :: rest =>
      match flexLine raw (mkImport 0 (im_inPatterns st) None None (im_searchPatterns st)) with
      | FOk st' => importLines rest st'
      | FRaise e => (FRaise e, st)
      end
  end.
Proof.
  intros Hcount. destruct lines as [|raw rest]; simpl; [done|].
  by rewrite (flexLine_first raw st Hcount).
Qed.

(** X21. Records do not reach into each other: when the import of some
    lines ends without an exception at the end of a record, the import of
    these lines followed by further ones gives what the import of the
    further ones gives, started on the catalog that the first have left. *)
Theorem import_of_records_composes (lines1 lines2 : list string)
    (searchPatterns : FlexCatalog) (st1 : Import) :
  importLines lines1 (mkImport 0 false None None searchPatterns) = (FOk tt, st1) →
  im_count st1 = 0 →
  importFlexFile (lines1 ++ lines2) searchPatterns =
  importFlexFile lines2 (im_searchPatterns st1).
Proof.
  intros Hrun Hcount. unfold importFlexFile.
  rewrite (importLines_app _ lines2 _ _ Hrun).
  assert (im_inPatterns st1 = false) as Hin.
  { pose proof (importLines_inv
      (λ st, 0 ≤ im_count st ∧ (im_count st = 0 → im_inPatterns st = false))
      lines1 (mkImport 0 false None None searchPatterns)) as Hinv.
    rewrite Hrun in Hinv. simpl in Hinv. apply Hinv; [|done..].
    intros raw sa sb _ [Hc Hz] Hline. by eapply flexLine_count. }
  rewrite (importLines_first lines2 st1 Hcount), Hin.
  destruct lines2 as [|raw rest]; simpl; [done|].
  by destruct (flexLine raw _) as [st'|e].
Qed.

End ImportFacts.

(** * No variant is rejected *)

Lemma splitGo_nonempty sep skip s : splitGo sep skip s ≠ [].
Proof.
  revert skip. induction s as [|c s IH]; intros skip; cbn [splitGo]; [done|].
  destruct skip as [|k]; [|apply IH].
  destruct (String.prefix sep (String c s)); [done|].
  destruct (splitGo sep 0 s); discriminate.
Qed.

Lemma split_present c0 sep s :
  contains (String c0 sep) s = true →
  ∃ f0 f1 rest, split (String c0 sep) s = f0 :: f1 :: rest.
Proof.
  unfold split. induction s as [|c s IH]; [done|].
  cbn [contains splitGo]. destruct (String.prefix (String c0 sep) (String c s)) eqn:Hp.
  - intros _.
    destruct (splitGo (String c0 sep) (String.length (String c0 sep) - 1) s)
      as [|f1 rest] eqn:Hs; [by apply splitGo_nonempty in Hs|].
    by exists EmptyString, f1, rest.
  - simpl. intros (f0 & f1 & rest & ->)%IH. by exists (String c f0), f1, rest.
Qed.

Lemma mapM_elem {A B : Type} (f : A → option B) l k y :
  mapM f l = Some k → y ∈ k → ∃ x, x ∈ l ∧ f x = Some y.
Proof.
  intros Hm%mapM_Some_1 [i Hi]%list_elem_of_lookup_1.
  destruct (Forall2_lookup_r _ _ _ _ _ Hm Hi) as (x & Hx & Hf).
  exists x. split; [by eapply list_elem_of_lookup_2|done].
Qed.

Lemma elem_of_allRanges c rg :
  rg ∈ allRanges c → ∃ k vs sp, (k, vs) ∈ c ∧ sp ∈ vs ∧ rg ∈ ranges sp.
Proof.
  unfold allRanges. intros ([k vs] & Hkv & Hin)%list_elem_of_In%in_flat_map.
  simpl in Hin. apply in_flat_map in Hin as (sp & Hsp & Hrg).
  exists k, vs, sp. by rewrite !list_elem_of_In.
Qed.

Lemma catalogOf_starts fc c rg :
  catalogOf fc = Some c → rg ∈ allRanges c → ∃ n, r_start rg = StartInt n.
Proof.
  intros Hc (k & vs & sp & Hkv & Hsp & Hrg)%elem_of_allRanges.
  destruct (mapM_elem _ _ _ _ Hc Hkv) as ([k0 ds] & _ & Hds). simpl in Hds.
  destruct (mapM variantOf ds) as [vs0|] eqn:Hvs; simpl in Hds; [|done].
  injection Hds as <- <-.
  destruct (mapM_elem _ _ _ _ Hvs Hsp) as (fd & _ & Hfd). unfold variantOf in Hfd.
  destruct (mapM rangeOf (fd_ranges fd)) as [rs|] eqn:Hrs; simpl in Hfd; [|done].
  injection Hfd as <-. simpl in Hrg.
  destruct (mapM_elem _ _ _ _ Hrs Hrg) as (fields & _ & Hfields).
  destruct fields as [|b [|st [|en rest]]]; simpl in Hfields; try done.
  injection Hfields as <-. by eexists.
Qed.

Lemma catLookup_key (c : Catalog) k :
  k ∈ map fst c → ∃ vs, catLookup c k = Some vs.
Proof.
  induction c as [|[k' vs] c IH]; simpl; [by intros ?%elem_of_nil|].
  case_bool_decide as Hk; [eauto|].
  intros [->|Hin]%elem_of_cons; [done|]. by apply IH.
Qed.

Lemma scannable_numeric (c : Catalog) known symbols :
  (∀ k vs sp, (k, vs) ∈ c → sp ∈ vs → existsb required (pattern sp) = true) →
  (∀ rg, rg ∈ allRanges c → ∃ n, r_start rg = StartInt n ∧ 0 ≤ n) →
  (∀ k, k ∈ symbols → k ∈ map fst c) →
  scannable known symbols c = true.
Proof.
  intros Hreq Hstart. revert known.
  induction symbols as [|k rest IH]; intros known Hkeys; simpl; [done|].
  destruct (catLookup_key c k) as [vs Hlook]; [apply Hkeys; by left|].
  rewrite Hlook. apply catLookup_elem in Hlook.
  apply andb_true_iff. split; [|apply IH; intros k' ?; apply Hkeys; by right].
  apply forallb_forall. intros sp Hsp%list_elem_of_In. unfold variantOK.
  rewrite (Hreq k vs sp Hlook Hsp). simpl.
  apply forallb_forall. intros rg Hrg%list_elem_of_In.
  destruct (Hstart rg) as (n & Hn & Hpos); [by eapply allRanges_elem|].
  unfold rangeOK. rewrite Hn. by apply bool_decide_eq_true_2.
Qed.

Section Rejection.
Context `{Machine} `{Interp}.


End Rejection.


(** * The further properties on the scenarios *)

Lemma range_end_cuts_pattern_witness :
  tryOffset (H := plainMachine) "TRAIL" ("TRAIL"%string, 0%nat)
            trailingOptionalVariant 3 0 3 2 (mkMem ∅ None) =
  (Ok false, mkMem ∅ (Some ("EXTEND", "")%string)).
Proof.
  apply (range_end_cuts_pattern (H := plainMachine) "TRAIL" ("TRAIL"%string, 0%nat)
           trailingOptionalVariant 3 0 3 2 (mkMem ∅ None) 0
           (mkItem false ["RELINT"%string] []) []
           (mkFwd 3 1 true 2 (Some ("EXTEND", "")%string))).
  - reflexivity.
  - apply (reach_next (H := plainMachine) "TRAIL" 3 3
             (mkItem true ["EXTEND"%string] []) [mkItem false ["RELINT"%string] []]
             (mkFwd 2 0 false (-1) None)
             (mkFwd 3 1 true 2 (Some ("EXTEND", "")%string))).
    + simpl. lia.
    + vm_compute. reflexivity.
    + apply reach_here.
  - simpl. lia.
Defined.

Lemma match_needs_room_witness :
  2 < 10 ∧ 2 + Z.of_nat (requiredCount intpretPattern) ≤ 10.
Proof.
  apply (match_needs_room (H := plainMachine) "INTPRET" ("INTPRET"%string, 0%nat)
           (intpretVariant (StartInt 0)) 3 0 10 2 (mkMem ∅ None)
           (tryOffset (H := plainMachine) "INTPRET" ("INTPRET"%string, 0%nat)
              (intpretVariant (StartInt 0)) 3 0 10 2 (mkMem ∅ None)).2).
  vm_compute. reflexivity.
Defined.

Lemma match_stored_at_candidate_witness :
  reg (tryOffset (H := callMachine) "TARGET" ("TARGET"%string, 0%nat)
         targetVariant 3 0 10 2 (mkMem ∅ None)).2 =
  <["TARGET"%string := mkEntry 3 2 (fixedFixedOf 3 2) (Some ("TARGET"%string, 0%nat))
                               "TARGET" (DWCount 0)]> ∅.
Proof.
  apply (match_stored_at_candidate (H := callMachine) "TARGET" ("TARGET"%string, 0%nat)
           targetVariant 3 0 10 2 (mkMem ∅ None)).
  - left. exists (mkItem true ["EXTEND"%string] []), []. split; reflexivity.
  - vm_compute. reflexivity.
Defined.

Lemma empty_opcodes_never_extend_witness :
  reg (tryOffset (H := plainMachine) "ANY" ("ANY"%string, 0%nat)
         anyBeforeVariant 3 0 10 2 (mkMem ∅ None)).2 =
  <["ANY"%string := mkEntry 3 2 (fixedFixedOf 3 2) (Some ("ANY"%string, 0%nat))
                            "ANY" (DWCount 0)]> ∅.
Proof.
  apply (empty_opcodes_never_extend (H := plainMachine) "ANY" ("ANY"%string, 0%nat)
           anyBeforeVariant 3 0 10 2 (mkMem ∅ None)).
  - intros item Hin Hopt.
    apply elem_of_cons in Hin as [->|Hin]; [reflexivity|].
    apply elem_of_cons in Hin as [->|Hin]; [discriminate Hopt|].
    by apply elem_of_nil in Hin.
  - vm_compute. reflexivity.
Defined.

Lemma no_candidate_not_found_witness :
  processSymbol (H := plainMachine) "VOID" (mkState (mkMem ∅ None) emptyRangeCatalog) =
  (Ok tt, mkState (store "VOID" (notFound "VOID") (mkMem ∅ None)) emptyRangeCatalog).
Proof.
  apply (no_candidate_not_found (H := plainMachine) "VOID" [emptyRangeVariant]
           (mkState (mkMem ∅ None) emptyRangeCatalog)).
  - reflexivity.
  - intros sp rg Hsp Hrg.
    apply elem_of_cons in Hsp as [->|Hsp]; [|by apply elem_of_nil in Hsp].
    apply elem_of_cons in Hrg as [->|Hrg]; [|by apply elem_of_nil in Hrg].
    exists 5. split; [reflexivity|simpl; lia].
Defined.

Lemma registry_domain_after_scan_witness :
  ∃ e, reg (mem (searchSpecial (H := callMachine) placeholderCatalog ∅).2)
         !! "CALLER"%string = Some e ∧ e_symbol e = "CALLER"%string.
Proof.
  apply (registry_domain_after_scan (H := callMachine) placeholderCatalog ∅
           (searchSpecial (H := callMachine) placeholderCatalog ∅).2 "CALLER"%string).
  - vm_compute. reflexivity.
  - simpl. apply list_elem_of_further, list_elem_of_here.
Defined.

Lemma match_inside_declared_range_witness :
  ∃ variants n sp rg,
    catLookup placeholderCatalog "TARGET" = Some variants ∧
    ("TARGET"%string, 0%nat) = ("TARGET"%string, n) ∧
    variants !! n = Some sp ∧ rg ∈ ranges sp ∧
    3 = r_bank rg ∧ 2 < r_end rg ∧ (∀ z, r_start rg = StartInt z → z ≤ 2).
Proof.
  apply (match_inside_declared_range (H := callMachine) "TARGET"
           (mkState (mkMem ∅ None) placeholderCatalog)
           (processSymbol (H := callMachine) "TARGET"
              (mkState (mkMem ∅ None) placeholderCatalog)).2
           (processSymbol (H := callMachine) "TARGET"
              (mkState (mkMem ∅ None) placeholderCatalog)).1
           (mkEntry 3 2 3074 (Some ("TARGET"%string, 0%nat)) "TARGET" (DWCount 0))
           ("TARGET"%string, 0%nat)).
  - vm_compute. reflexivity.
  - vm_compute. reflexivity.
  - reflexivity.
Defined.

Lemma disassembled_once_witness :
  fetch (H := plainMachine) 3 (mkFwd 3 1 true 2 (Some ("EXTEND", "")%string)) =
    Ok (mkFwd 3 1 true 2 (Some ("EXTEND", "")%string)) ∨ 2 < 3.
Proof.
  apply (disassembled_once (H := plainMachine) "TRAIL" 3 10
           (mkItem true ["EXTEND"%string] []) [mkItem false ["RELINT"%string] []]
           [mkItem false ["RELINT"%string] []]
           (mkFwd 2 0 false (-1) None)
           (mkFwd 3 1 true 2 (Some ("EXTEND", "")%string))
           (mkFwd 3 1 true 2 (Some ("EXTEND", "")%string))).
  - vm_compute. reflexivity.
  - apply reach_here.
Defined.

Lemma unknown_start_symbol_raises_witness :
  processSymbol (H := plainMachine) "AFTER" (mkState (mkMem ∅ None) chainedCatalog) =
    (Raise TypeError,
     mkState (store "AFTER" (notFound "AFTER") (mkMem ∅ None)) chainedCatalog) ∧
  reg (store "AFTER" (notFound "AFTER") (mkMem ∅ None)) =
    <["AFTER"%string := notFound "AFTER"]> ∅.
Proof.
  apply (unknown_start_symbol_raises (H := plainMachine) "AFTER" "ABSENT"
           [] [] afterAbsentVariant [] [] (mkRange 3 (StartSym "ABSENT") 10)
           (mkState (mkMem ∅ None) chainedCatalog)
           (store "AFTER" (notFound "AFTER") (mkMem ∅ None))
           (store "AFTER" (notFound "AFTER") (mkMem ∅ None))).
  - reflexivity.
  - reflexivity.
  - reflexivity.
  - discriminate.
  - reflexivity.
  - reflexivity.
  - reflexivity.
Defined.

Lemma placeholder_gone_witness :
  rewriteCatalog "TARGET" "6002" (rewriteCatalog "TARGET" "6002" placeholderCatalog) =
  rewriteCatalog "TARGET" "6002" placeholderCatalog.
Proof.
  apply (placeholder_gone "TARGET" "6002" placeholderCatalog).
  - discriminate.
  - reflexivity.
Defined.

Lemma match_iff_pattern_satisfied_witness :
  ∃ o', Matches (H := plainMachine) 3 10 (drop 1 intpretPattern) 2 false o'.
Proof.
  destruct (match_iff_pattern_satisfied (H := plainMachine) "INTPRET"
              ("INTPRET"%string, 0%nat) (intpretVariant (StartInt 0)) 3 0 10 2
              (mkMem ∅ None) 1) as [Hsound _].
  - lia.
  - reflexivity.
  - apply (Hsound (tryOffset (H := plainMachine) "INTPRET" ("INTPRET"%string, 0%nat)
                     (intpretVariant (StartInt 0)) 3 0 10 2 (mkMem ∅ None)).2).
    vm_compute. reflexivity.
Defined.

Lemma scan_touches_only_catalog_symbols_witness :
  reg (mem (searchSpecial (H := plainMachine) chainedCatalog staleRegistry).2)
    !! "OTHER"%string = staleRegistry !! "OTHER"%string.
Proof.
  apply (scan_touches_only_catalog_symbols (H := plainMachine) chainedCatalog
           staleRegistry "OTHER"%string).
  intros Hin.
  apply elem_of_cons in Hin as [Hin|Hin]; [discriminate Hin|].
  apply elem_of_cons in Hin as [Hin|Hin]; [discriminate Hin|].
  by apply elem_of_nil in Hin.
Defined.

Lemma noReturn_flag_lost_witness :
  ∃ fd, (importFlexFile (H := digitsInterp) intpretFile []).2 = [("INTPRET"%string, [fd])] ∧
        fd_noReturn fd = false.
Proof.
  destruct (noReturn_flag_lost (H := digitsInterp) intpretFile [] "INTPRET"%string
              [mkFlexDict 0 false
                 [mkItem false ["RELINT"%string] [];
                  mkItem true ["CA"; "CAF"]%string ["0004"%string]]
                 [[3; 0; 128]; [2; 0; 8]]]) as [Hin|(fd & Heq & Hflag)].
  - intros raw Hin.
    repeat (apply elem_of_cons in Hin as [->|Hin];
            [split; [vm_compute; lia|vm_compute; reflexivity]|]).
    by apply elem_of_nil in Hin.
  - vm_compute. apply list_elem_of_here.
  - by apply elem_of_nil in Hin.
  - injection Heq as <-. eexists. split; [vm_compute; reflexivity|exact Hflag].
Defined.

Lemma import_needs_closing_line_witness :
  (importFlexFile (H := digitsInterp) unclosedFile []).2 = [].
Proof.
  apply (import_needs_closing_line (H := digitsInterp) unclosedFile []).
  intros raw Hin.
  repeat (apply elem_of_cons in Hin as [->|Hin]; [vm_compute; discriminate|]).
  by apply elem_of_nil in Hin.
Defined.

Lemma missing_field_raises_witness :
  importLines (H := digitsInterp) [nl; nl]
    (mkImport 5 true (Some "INTPRET"%string) (Some (mkFlexDict 0 false [] [])) []) =
  (FRaise FlexIndexError,
   mkImport 5 true (Some "INTPRET"%string) (Some (mkFlexDict 0 false [] [])) []).
Proof.
  apply (missing_field_raises (H := digitsInterp) nl [nl]
           (mkImport 5 true (Some "INTPRET"%string) (Some (mkFlexDict 0 false [] [])) [])).
  right. left. simpl im_count. simpl im_inPatterns.
  split; [lia|]. split; [reflexivity|]. split; [vm_compute; discriminate|].
  vm_compute. reflexivity.
Defined.

Lemma import_never_unbound_witness :
  (importFlexFile (H := digitsInterp) unclosedFile []).1 ≠ FRaise FlexUnboundLocalError.
Proof. apply (import_never_unbound (H := digitsInterp) unclosedFile []). Defined.

Lemma import_of_records_composes_witness :
  importFlexFile (H := digitsInterp) (intpretFile ++ unclosedFile) [] =
  importFlexFile (H := digitsInterp) unclosedFile
    (im_searchPatterns
       (importLines (H := digitsInterp) intpretFile (mkImport 0 false None None [])).2).
Proof.
  apply (import_of_records_composes (H := digitsInterp) intpretFile unclosedFile []
           (importLines (H := digitsInterp) intpretFile (mkImport 0 false None None [])).2).
  - vm_compute. reflexivity.
  - vm_compute. reflexivity.
Defined.

Lemma range_search_finds_least_witness :
  ∃ b s', searchRange (H := plainMachine) "INTPRET" ("INTPRET"%string, 0%nat)
            (intpretVariant (StartInt 0)) (mkRange 3 (StartInt 0) 10) (mkMem ∅ None)
          = (Ok b, s').
Proof.
  destruct (range_search_finds_least (H := plainMachine) "INTPRET" 0
              (intpretVariant (StartInt 0)) (mkRange 3 (StartInt 0) 10)
              (mkMem ∅ None) 0 1) as (b & s' & Hrun & _).
  - reflexivity.
  - reflexivity.
  - lia.
  - apply (listCore_covers (banksWith bankPlain) 3 bankPlain); [lia|reflexivity].
  - exists b, s'. exact Hrun.
Defined.

Lemma placeholders_rewritten_once_witness :
  let st := mkState (mkMem ∅ None) placeholderCatalog in
  let st' := (processSymbol (H := callMachine) "TARGET" st).2 in
  reg (mem st') !! "TARGET"%string =
    Some (mkEntry 3 2 3074 (Some ("TARGET"%string, 0%nat)) "TARGET" (DWCount 0)) ∧
  cat st' = specRewriteCatalog "TARGET" "6002" placeholderCatalog ∧
  cat st' =
    [ ("TARGET"%string, [targetVariant]);
      ("CALLER"%string,
       [mkSearchPattern [mkRange 3 (StartInt 0) 10]
          [mkItem true ["TC"] ["6002"; "0000"]]%string 2 false]) ].
Proof.
  intros st st'.
  destruct (placeholders_rewritten_once (H := callMachine) "TARGET" st st')
    as (e & He & Hfound & _).
  - reflexivity.
  - vm_compute. reflexivity.
  - assert (Some e = Some (mkEntry 3 2 3074 (Some ("TARGET"%string, 0%nat)) "TARGET"
                                   (DWCount 0))) as [= ->]
      by (rewrite <- He; vm_compute; reflexivity).
    split; [exact He|].
    destruct Hfound as (lit & Hcat & Hread & _ & Hwin); [discriminate|simpl; lia|].
    destruct Hwin as [Hlen Hdig]; [simpl; lia|].
    assert ("6002"%string = lit) as <-.
    { assert (cat st' = specRewriteCatalog "TARGET" "6002" placeholderCatalog) as Hrun
        by (vm_compute; reflexivity).
      rewrite Hrun in Hcat. vm_compute in Hcat. by injection Hcat. }
    split; [exact Hcat|]. rewrite Hcat. vm_compute. reflexivity.
Defined.

